(** * RoutePlanner: the route optimization engine of
      [backend/src/services/RouteOptimizer.ts]

    A shallow embedding of the [RouteOptimizer] class and the properties its
    specification states about it, with further properties of the class and
    of the [RouteStorageService] class that the same source holds.

    Conventions of the embedding.
    - A JavaScript [number] is an exact rational ([Q]); no rounding, no NaN.
      [Infinity] only occurs as the initial value of a running minimum and is
      modelled by an absent minimum ([option]).
    - [calculateDistance] (the haversine formula, written with [Math.sin],
      [Math.cos], [Math.atan2] and [Math.sqrt]) is a variable of the
      development: every definition and theorem is parametric in it.
    - A string is a [string] of 8-bit characters and stands for ASCII text.
    - The external Distance Matrix service is an oracle from a request to
      either a failure or a table of elements.
    - The mutable fields of the class ([googleMapsApiKey],
      [originalAddresses]) form an explicit record that is threaded through
      the methods. *)

From Stdlib Require Import List String Ascii Bool Arith Lia.
From Stdlib Require Import ZArith QArith Qabs Lqa Permutation DecimalString.
Import ListNotations.

Local Open Scope string_scope.
Local Open Scope list_scope.
Local Open Scope nat_scope.

(** ** Strings and the regular expressions of [normalizeAddressForGrouping] *)

Module Str.

Definition chars := list ascii.

Definition is_upper (c : ascii) : bool :=
  (65 <=? nat_of_ascii c) && (nat_of_ascii c <=? 90).

Definition is_lower (c : ascii) : bool :=
  (97 <=? nat_of_ascii c) && (nat_of_ascii c <=? 122).

Definition is_digit (c : ascii) : bool :=
  (48 <=? nat_of_ascii c) && (nat_of_ascii c <=? 57).

(** [\s] restricted to ASCII: space, tab, line feed, vertical tab, form feed,
    carriage return. *)
Definition is_space (c : ascii) : bool :=
  (nat_of_ascii c =? 32) || ((9 <=? nat_of_ascii c) && (nat_of_ascii c <=? 13)).

Definition lower_char (c : ascii) : ascii :=
  if is_upper c then ascii_of_nat (nat_of_ascii c + 32) else c.

(** [String.prototype.toLowerCase] *)
Definition toLowerCase (s : chars) : chars := map lower_char s.

(** [[a-z]] under the [i] flag *)
Definition cls_letter (c : ascii) : bool := is_lower c || is_upper c.

(** [[a-z0-9]] under the [i] flag *)
Definition cls_alnum (c : ascii) : bool := cls_letter c || is_digit c.

Definition cls_comma (c : ascii) : bool := nat_of_ascii c =? 44.

(** The fragment of regular expressions the source uses: a pattern is a
    sequence of atoms, and every quantifier is applied to a character class. *)
Inductive atom : Type :=
| One (cls : ascii -> bool)          (* [c]   *)
| Opt (cls : ascii -> bool)          (* [c?]  *)
| Star (cls : ascii -> bool)         (* [c*]  *)
| Plus (cls : ascii -> bool)         (* [c+]  *)
| Words (alts : list chars)          (* [(w1|w2|...)], literal alternatives *)
| EndOfInput.                        (* [$]   *)

Definition regex := list atom.

(** A literal word at the head of the input, compared case-insensitively;
    the result is the input after the word. *)
Fixpoint literal (w s : chars) : option chars :=
  match w, s with
  | [], _ => Some s
  | _ :: _, [] => None
  | a :: w', c :: s' =>
      if Ascii.eqb (lower_char a) (lower_char c) then literal w' s' else None
  end.

(** Greedy repetition of a class with backtracking: the longest run is tried
    first, then shorter ones, until the continuation [k] succeeds. *)
Fixpoint greedy (cls : ascii -> bool) (k : chars -> option chars) (s : chars)
  : option chars :=
  match s with
  | c :: s' =>
      if cls c then
        match greedy cls k s' with
        | Some r => Some r
        | None => k s
        end
      else k s
  | [] => k []
  end.

(** Alternatives are tried from left to right. *)
Fixpoint first_alt (alts : list chars) (k : chars -> option chars) (s : chars)
  : option chars :=
  match alts with
  | [] => None
  | w :: ws =>
      match literal w s with
      | Some rest =>
          match k rest with
          | Some r => Some r
          | None => first_alt ws k s
          end
      | None => first_alt ws k s
      end
  end.

(** [match_here r s]: the pattern matched at the head of [s], with the
    priorities of a backtracking matcher; the result is the input left after
    the match. *)
Fixpoint match_here (r : regex) (s : chars) : option chars :=
  match r with
  | [] => Some s
  | One cls :: r' =>
      match s with
      | c :: s' => if cls c then match_here r' s' else None
      | [] => None
      end
  | Opt cls :: r' =>
      match s with
      | c :: s' =>
          if cls c then
            match match_here r' s' with
            | Some x => Some x
            | None => match_here r' s
            end
          else match_here r' s
      | [] => match_here r' []
      end
  | Star cls :: r' => greedy cls (match_here r') s
  | Plus cls :: r' =>
      match s with
      | c :: s' => if cls c then greedy cls (match_here r') s' else None
      | [] => None
      end
  | Words alts :: r' => first_alt alts (match_here r') s
  | EndOfInput :: r' =>
      match s with
      | [] => match_here r' []
      | _ :: _ => None
      end
  end.

(** [String.prototype.replace] with a global pattern: scan from the left,
    replace the leftmost match, resume after it (one character further after
    an empty match). *)
Fixpoint replace_from (fuel : nat) (r : regex) (rep s : chars) : chars :=
  match fuel with
  | O => s
  | S fuel' =>
      let skip :=
        match s with
        | c :: s' => c :: replace_from fuel' r rep s'
        | [] => []
        end in
      match match_here r s with
      | Some rest =>
          if List.length rest <? List.length s
          then rep ++ replace_from fuel' r rep rest
          else rep ++ skip
      | None => skip
      end
  end.

Definition replace (r : regex) (rep s : chars) : chars :=
  replace_from (S (List.length s)) r rep s.

Fixpoint trimStart (s : chars) : chars :=
  match s with
  | c :: s' => if is_space c then trimStart s' else s
  | [] => []
  end.

(** [String.prototype.trim] *)
Definition trim (s : chars) : chars := rev (trimStart (rev (trimStart s))).

End Str.

Definition chars_of (s : string) : Str.chars := list_ascii_of_string s.

(** [/,?\s*(apt|apartment|unit|suite|#)\s*[a-z0-9]+/gi] *)
Definition unit_pattern : Str.regex :=
  [ Str.Opt Str.cls_comma; Str.Star Str.is_space;
    Str.Words (map chars_of ["apt"; "apartment"; "unit"; "suite"; "#"]);
    Str.Star Str.is_space; Str.Plus Str.cls_alnum ].

(** [/,?\s*[a-z]\s*$/gi] *)
Definition suffix_pattern : Str.regex :=
  [ Str.Opt Str.cls_comma; Str.Star Str.is_space; Str.One Str.cls_letter;
    Str.Star Str.is_space; Str.EndOfInput ].

(** [/\s+/g] *)
Definition spaces_pattern : Str.regex := [ Str.Plus Str.is_space ].

Definition normalizeAddressForGrouping (address : string) : string :=
  string_of_list_ascii
    (Str.trim
       (Str.replace spaces_pattern (chars_of " ")
          (Str.replace suffix_pattern []
             (Str.replace unit_pattern []
                (Str.toLowerCase (chars_of address)))))).

(** ** Data model *)

(** The [Address] interface. Coordinates are present: stops without
    coordinates are filtered out before they reach the optimizer. *)
Record Address : Type := mkAddress {
  id : string;
  address : string;
  latitude : Q;
  longitude : Q;
  name : option string;
  notes : option string
}.

(** An element of a grouped route: an [Address] object that may carry the
    extra [groupedAddresses] field which [groupSameLocationAddresses] puts on
    a group representative. *)
Record Stop : Type := mkStop {
  addr :> Address;
  groupedAddresses : option (list Address)
}.

(** [{ latitude, longitude }], the optional start location. *)
Record Location : Type := mkLocation {
  loc_latitude : Q;
  loc_longitude : Q
}.

(** A [number[][]]; a cell that was assigned [undefined] is [None]. *)
Definition Matrix : Type := list (list (option Q)).

(** The mutable fields of a [RouteOptimizer] instance. *)
Record RouteOptimizer : Type := mkRouteOptimizer {
  googleMapsApiKey : string;
  originalAddresses : option (list Stop)
}.

(** One element of a Distance Matrix response: [status === 'OK'] with its
    [distance.value] in metres, or any other status. *)
Inductive element : Type :=
| ElementOK (meters : Q)
| ElementNotOK.

(** [response.data.rows[i].elements[j]] *)
Definition response : Type := list (list element).

Record RouteMetrics : Type := mkRouteMetrics {
  totalDistance : Q;
  estimatedTime : Q
}.

(** ** Small helpers for JavaScript arrays and numbers *)

Definition Qltb (x y : Q) : bool := negb (Qle_bool y x).

(** [x < m] where [m] is a running minimum that starts at [Infinity]. *)
Definition below (x : Q) (m : option Q) : bool :=
  match m with
  | None => true
  | Some y => Qltb x y
  end.

(** [Array.prototype.findIndex]; [None] is [-1]. *)
Fixpoint findIndex {A : Type} (p : A -> bool) (l : list A) : option nat :=
  match l with
  | [] => None
  | x :: l' => if p x then Some 0 else option_map S (findIndex p l')
  end.

(** [l.splice(p, 1)] *)
Definition remove_at {A : Type} (p : nat) (l : list A) : list A :=
  firstn p l ++ skipn (S p) l.

(** [l[p] = v] on an array that has index [p] *)
Fixpoint set_at {A : Type} (p : nat) (v : A) (l : list A) : list A :=
  match l, p with
  | [], _ => []
  | _ :: l', O => v :: l'
  | x :: l', S p' => x :: set_at p' v l'
  end.

(** [m[i][j]], [None] when the row or the cell is [undefined]. *)
Definition cell (m : Matrix) (i j : nat) : option Q :=
  match nth_error m i with
  | Some row =>
      match nth_error row j with
      | Some c => c
      | None => None
      end
  | None => None
  end.

(** [m[i][j] = v] *)
Definition set_cell (m : Matrix) (i j : nat) (v : option Q) : Matrix :=
  match nth_error m i with
  | Some row => set_at i (set_at j v row) m
  | None => m
  end.

Definition string_of_nat (n : nat) : string :=
  NilEmpty.string_of_uint (Nat.to_uint n).

Definition sumQ (l : list Q) : Q := fold_left Qplus l 0%Q.

(** ** Grouping and expansion *)

(** [locationGroups.get(key).push(address)], creating the entry at the end of
    the insertion-ordered [Map] when the key is new. *)
Fixpoint push_group (key : string) (a : Address)
  (groups : list (string * list Address)) : list (string * list Address) :=
  match groups with
  | [] => [(key, [a])]
  | (k, g) :: rest =>
      if String.eqb k key then (k, g ++ [a]) :: rest
      else (k, g) :: push_group key a rest
  end.

Definition locationGroups (addresses : list Address)
  : list (string * list Address) :=
  fold_left
    (fun groups a =>
       push_group (normalizeAddressForGrouping (address a)) a groups)
    addresses [].

(** [a.name || a.id] *)
Definition name_or_id (a : Address) : string :=
  match name a with
  | Some n => if String.eqb n "" then id a else n
  | None => id a
  end.

(** The template string [`${x}`] of an optional string. *)
Definition show_optional (s : option string) : string :=
  match s with
  | Some n => n
  | None => "undefined"
  end.

Definition representative (locationKey : string) (first : Address)
  (group : list Address) : Stop :=
  mkStop
    (mkAddress
       ("group_" ++ locationKey)%string
       (address first)
       (latitude first)
       (longitude first)
       (Some (show_optional (name first) ++ " (+"
              ++ string_of_nat (List.length group - 1) ++ " more)")%string)
       (Some ("Group of " ++ string_of_nat (List.length group)
              ++ " deliveries: "
              ++ String.concat ", " (map name_or_id group))%string))
    (Some group).

Definition groupSameLocationAddresses (addresses : list Address) : list Stop :=
  flat_map
    (fun entry : string * list Address =>
       let (locationKey, group) := entry in
       match group with
       | [] => []                              (* a group is never empty *)
       | [a] => [mkStop a None]
       | first :: _ => [representative locationKey first group]
       end)
    (locationGroups addresses).

Definition expandGroupedRoute (groupedRoute : list Stop) : list Address :=
  flat_map
    (fun stop : Stop =>
       match groupedAddresses stop with
       | Some group => group
       | None => [addr stop]
       end)
    groupedRoute.

(** ** Route storage: the [RouteStorageService] class *)

(** The service keeps the saved routes in one JSON file. The embedding
    threads the state of that file through the methods. The clock
    ([new Date().toISOString()]) and the id generator ([generateId], built
    from the clock and [Math.random]) are read by the caller and passed in.
    A method that throws returns [None]. *)
Module RouteStorage.

Inductive Status : Type := pending | completed | skipped.

(** The [Address] interface of the service. *)
Record Address : Type := mkAddress {
  id : string;
  address : string;
  latitude : option Q;
  longitude : option Q;
  name : option string;
  notes : option string;
  status : option Status;
  completedAt : option string;
  skippedAt : option string
}.

(** The [SavedRoute] interface; [routeId] and [routeName] are its [id] and
    [name]. *)
Record SavedRoute : Type := mkSavedRoute {
  routeId : string;
  routeName : string;
  addresses : list Address;
  totalDistance : Q;
  estimatedTime : Q;
  createdAt : string;
  lastModified : string;
  isActive : option bool;
  currentStepIndex : Z
}.

(** [Omit<SavedRoute, 'id' | 'createdAt' | 'lastModified'>] *)
Record RouteDraft : Type := mkRouteDraft {
  draftName : string;
  draftAddresses : list Address;
  draftTotalDistance : Q;
  draftEstimatedTime : Q;
  draftIsActive : option bool;
  draftCurrentStepIndex : Z
}.

(** [Partial<SavedRoute>]: a field that is absent is [None]. *)
Record Updates : Type := mkUpdates {
  newId : option string;
  newName : option string;
  newAddresses : option (list Address);
  newTotalDistance : option Q;
  newEstimatedTime : option Q;
  newCreatedAt : option string;
  newLastModified : option string;
  newIsActive : option bool;
  newCurrentStepIndex : option Z
}.

(** What the routes file holds: the routes of a JSON array, or something
    [readRoutes] cannot read (no file, no JSON). A file that holds JSON other
    than an array of routes is outside the embedding. *)
Inductive File : Type :=
| Unreadable
| Routes (routes : list SavedRoute).

(** The file and whether [fs.writeFileSync] on it succeeds. *)
Record Disk : Type := mkDisk {
  file : File;
  writable : bool
}.

Definition readRoutes (disk : Disk) : list SavedRoute :=
  match file disk with
  | Routes routes => routes
  | Unreadable => []                                   (* [catch] *)
  end.

(** [None]: [throw new Error('Failed to save routes')]. *)
Definition writeRoutes (disk : Disk) (routes : list SavedRoute) : option Disk :=
  if writable disk then Some (mkDisk (Routes routes) true) else None.

Definition saveRoute (disk : Disk) (generatedId now later : string)
  (route : RouteDraft) : option (SavedRoute * Disk) :=
  let routes := readRoutes disk in
  let newRoute :=
    mkSavedRoute generatedId (draftName route) (draftAddresses route)
      (draftTotalDistance route) (draftEstimatedTime route) now later
      (draftIsActive route) (draftCurrentStepIndex route) in
  match writeRoutes disk (routes ++ [newRoute]) with
  | Some disk' => Some (newRoute, disk')
  | None => None
  end.

Definition or_else {A : Type} (update : option A) (old : A) : A :=
  match update with
  | Some v => v
  | None => old
  end.

(** [{ ...route, ...updates, lastModified: now }] *)
Definition merge (route : SavedRoute) (updates : Updates) (now : string)
  : SavedRoute :=
  mkSavedRoute
    (or_else (newId updates) (routeId route))
    (or_else (newName updates) (routeName route))
    (or_else (newAddresses updates) (addresses route))
    (or_else (newTotalDistance updates) (totalDistance route))
    (or_else (newEstimatedTime updates) (estimatedTime route))
    (or_else (newCreatedAt updates) (createdAt route))
    now
    (match newIsActive updates with
     | Some b => Some b
     | None => isActive route
     end)
    (or_else (newCurrentStepIndex updates) (currentStepIndex route)).

Definition hasId (wanted : string) (route : SavedRoute) : bool :=
  String.eqb (routeId route) wanted.

(** The returned route ([None] is [null]) and the disk afterwards. *)
Definition updateRoute (disk : Disk) (now : string) (wanted : string)
  (updates : Updates) : option (option SavedRoute * Disk) :=
  let routes := readRoutes disk in
  match findIndex (hasId wanted) routes with
  | None => Some (None, disk)
  | Some routeIndex =>
      match nth_error routes routeIndex with
      | None => Some (None, disk)
      | Some old =>
          let updated := merge old updates now in
          match writeRoutes disk (set_at routeIndex updated routes) with
          | Some disk' => Some (Some updated, disk')
          | None => None
          end
      end
  end.

Definition getRoute (disk : Disk) (wanted : string) : option SavedRoute :=
  find (hasId wanted) (readRoutes disk).

Definition deleteRoute (disk : Disk) (wanted : string) : option (bool * Disk) :=
  let routes := readRoutes disk in
  let filteredRoutes := filter (fun r => negb (hasId wanted r)) routes in
  if List.length filteredRoutes <? List.length routes then
    match writeRoutes disk filteredRoutes with
    | Some disk' => Some (true, disk')
    | None => None
    end
  else Some (false, disk).

(** A whole route passed as [updates]. *)
Definition asUpdates (route : SavedRoute) : Updates :=
  mkUpdates (Some (routeId route)) (Some (routeName route))
    (Some (addresses route)) (Some (totalDistance route))
    (Some (estimatedTime route)) (Some (createdAt route))
    (Some (lastModified route)) (isActive route)
    (Some (currentStepIndex route)).

Definition withAddresses (route : SavedRoute) (stops : list Address) : SavedRoute :=
  mkSavedRoute (routeId route) (routeName route) stops (totalDistance route)
    (estimatedTime route) (createdAt route) (lastModified route)
    (isActive route) (currentStepIndex route).

(** [{ ...address, id: address.id || this.generateId(), status: 'pending' }] *)
Definition asPending (generatedId : string) (a : Address) : Address :=
  mkAddress (if String.eqb (id a) "" then generatedId else id a)
    (address a) (latitude a) (longitude a) (name a) (notes a)
    (Some pending) (completedAt a) (skippedAt a).

(** [stops.splice(insertIndex, 0, a)] for an index that is not negative. *)
Definition splice_in (insertIndex : nat) (a : Address) (stops : list Address)
  : list Address :=
  firstn insertIndex stops ++ a :: skipn insertIndex stops.

Definition addStopToRoute (disk : Disk) (generatedId now : string)
  (wanted : string) (a : Address) (insertIndex : option Z)
  : option (option SavedRoute * Disk) :=
  match getRoute disk wanted with
  | None => Some (None, disk)
  | Some route =>
      let newAddress := asPending generatedId a in
      let stops :=
        match insertIndex with
        | Some k =>
            if (0 <=? k)%Z then splice_in (Z.to_nat k) newAddress (addresses route)
            else addresses route ++ [newAddress]
        | None => addresses route ++ [newAddress]
        end in
      updateRoute disk now wanted (asUpdates (withAddresses route stops))
  end.

Definition removeStopFromRoute (disk : Disk) (now : string)
  (wanted addressId : string) : option (option SavedRoute * Disk) :=
  match getRoute disk wanted with
  | None => Some (None, disk)
  | Some route =>
      let stops :=
        filter (fun a => negb (String.eqb (id a) addressId)) (addresses route) in
      updateRoute disk now wanted (asUpdates (withAddresses route stops))
  end.

(** [{ ...stop, status, completedAt: now }] for [completed],
    [{ ...stop, status, skippedAt: now }] for [skipped]. *)
Definition withStatus (now : string) (newStatus : Status) (a : Address) : Address :=
  mkAddress (id a) (address a) (latitude a) (longitude a) (name a) (notes a)
    (Some newStatus)
    (match newStatus with completed => Some now | _ => completedAt a end)
    (match newStatus with skipped => Some now | _ => skippedAt a end).

Definition updateStopStatus (disk : Disk) (now later : string)
  (wanted addressId : string) (newStatus : Status)
  : option (option SavedRoute * Disk) :=
  match getRoute disk wanted with
  | None => Some (None, disk)
  | Some route =>
      match findIndex (fun a => String.eqb (id a) addressId) (addresses route) with
      | None => Some (None, disk)
      | Some addressIndex =>
          match nth_error (addresses route) addressIndex with
          | None => Some (None, disk)
          | Some old =>
              let stops :=
                set_at addressIndex (withStatus now newStatus old) (addresses route) in
              updateRoute disk later wanted (asUpdates (withAddresses route stops))
          end
      end
  end.

(** [r.isActive] as a condition. *)
Definition active (route : SavedRoute) : bool :=
  match isActive route with
  | Some b => b
  | None => false
  end.

Definition getActiveRoute (disk : Disk) : option SavedRoute :=
  find active (readRoutes disk).

Definition withActive (flag : bool) (route : SavedRoute) : SavedRoute :=
  mkSavedRoute (routeId route) (routeName route) (addresses route)
    (totalDistance route) (estimatedTime route) (createdAt route)
    (lastModified route) (Some flag) (currentStepIndex route).

Definition setActiveRoute (disk : Disk) (wanted : string)
  : option (option SavedRoute * Disk) :=
  let routes := map (withActive false) (readRoutes disk) in
  match findIndex (hasId wanted) routes with
  | None => Some (None, disk)
  | Some targetIndex =>
      match nth_error routes targetIndex with
      | None => Some (None, disk)
      | Some targetRoute =>
          let routes' := set_at targetIndex (withActive true targetRoute) routes in
          match writeRoutes disk routes' with
          | Some disk' => Some (Some (withActive true targetRoute), disk')
          | None => None
          end
      end
  end.

End RouteStorage.

(** ** Data for the concrete runs *)

(** A computable distance on which the optimizer can be run: the taxicab
    distance on the coordinate grid, at 111 km per degree. Like the haversine
    distance it is zero between equal points, positive between different
    points and symmetric; the concrete runs use nothing else of it. *)
Definition gridDistance (lat1 lon1 lat2 lon2 : Q) : Q :=
  (111 * (Qabs (lat2 - lat1) + Qabs (lon2 - lon1)))%Q.

(** A Distance Matrix service whose every request fails. *)
Definition unreachableApi (origins destinations : list Stop) : option response :=
  None.

(** A service that reports 5000 metres for every pair, a point and itself
    included. *)
Definition fiveKmApi (origins destinations : list Stop) : option response :=
  Some (map (fun _ => map (fun _ => ElementOK 5000) destinations) origins).

(** A service whose rows lack the element of the last destination. *)
Definition shortRowApi (origins destinations : list Stop) : option response :=
  Some (map (fun _ => map (fun _ => ElementOK 5000) (tl destinations)) origins).

(** A fresh instance without an API key, and one with a key. *)
Definition withoutKey : RouteOptimizer := mkRouteOptimizer "" None.
Definition withKey : RouteOptimizer := mkRouteOptimizer "KEY" None.

(** An instance in the middle of a call on [grouped]. *)
Definition during (grouped : list Stop) : RouteOptimizer :=
  mkRouteOptimizer "" (Some grouped).

Definition plain (i a : string) (lat lon : Q) : Address :=
  mkAddress i a lat lon None None.

Definition single (a : Address) : Stop := mkStop a None.

(** The ids along a route. *)
Definition ids (route : list Stop) : list string :=
  map (fun s : Stop => id s) route.

(** A matrix whose every cell is defined. *)
Definition table (rows : list (list Q)) : Matrix := map (map Some) rows.

Definition three_stops : list Stop :=
  [ single (plain "1" "123 Main St" (407128 # 10000) (-740060 # 10000));
    single (plain "2" "456 Oak Ave" (407589 # 10000) (-739851 # 10000));
    single (plain "3" "789 Pine Rd" (407282 # 10000) (-737949 # 10000)) ].

Definition apartments : list Address :=
  [ mkAddress "a" "1 Main St Apt 1" 40 (-74) (Some "A") None;
    mkAddress "b" "2 Oak Ave" 41 (-74) (Some "B") None;
    mkAddress "c" "1 Main St Apt 2" 40 (-74) None None ].

(** Stop [k] of 101 stops at distinct addresses: stop 0 on a corner, the
    others about five metres to the east of it. *)
Definition numbered (k : nat) : Address :=
  plain (string_of_nat k) (string_of_nat k ++ " Main St")%string 40
    (if k =? 0 then -74 else -74 + (1 # 20000))%Q.

Definition hundred_and_one : list Address := map numbered (seq 0 101).

Definition corner : Stop := single (plain "corner" "1 Main St" 40 (-74)).
Definition next_door : Stop :=
  single (plain "next door" "3 Main St" 40 (-74 - (5 # 10000))).
Definition at_corner : Location := mkLocation 40 (-74).

(** The provider reports 0 km from the corner to the depot and 1 km from the
    corner to next door. *)
Definition depot : Stop := single (plain "depot" "500 Dock Rd" 41 (-74)).
Definition zero_to_depot : Matrix :=
  table [ [ 0; 0; 1 ]; [ 0; 0; 1 ]; [ 1; 1; 0 ] ]%Q.

Definition stop_of (k : nat) : Stop :=
  single (plain (string_of_nat k) (string_of_nat k ++ " Main St")%string
            (inject_Z (Z.of_nat k)) 0).

Definition four : list Stop := map stop_of (seq 0 4).

(** Going from stop 2 to stop 1 costs 100, going from stop 1 to stop 2
    costs 1. *)
Definition one_way : Matrix :=
  table [ [ 0;       1; (1 # 2);  10 ];
          [ 10;      0;       1;   1 ];
          [ 10;    100;       0;   1 ];
          [ 10;     10;      10;   0 ] ]%Q.

Definition six : list Stop := map stop_of (seq 0 6).

Definition six_costs : Matrix :=
  table [ [ 0; 4; 4; 7; 5; 9 ];
          [ 4; 0; 1; 5; 9; 5 ];
          [ 4; 1; 0; 9; 5; 8 ];
          [ 7; 5; 9; 0; 3; 7 ];
          [ 5; 9; 5; 3; 0; 2 ];
          [ 9; 5; 8; 7; 2; 0 ] ]%Q.

Definition two_towns : list Address :=
  [ plain "1" "1 Main St" 40 (-74); plain "2" "9 Main St" 41 (-74) ].

(** The road between the two towns is 150 km long. *)
Definition road : Matrix := table [ [ 0; 150 ]; [ 150; 0 ] ]%Q.

(** Eleven stops, which take four batches. *)
Definition eleven : list Stop := map stop_of (seq 0 11).

(** A service that answers the requests whose destinations begin with stop
    "0" with 5000 metres for every pair, and is over its quota for the
    others: their bodies carry no rows. *)
Definition overQuotaApi (origins destinations : list Stop) : option response :=
  match destinations with
  | d :: _ =>
      if String.eqb (id d) "0" then fiveKmApi origins destinations else Some []
  | [] => Some []
  end.

(** The eight stops of the optimization test script of the repository. *)
Definition testAddresses : list Address :=
  [ mkAddress "1" "123 Main St" (407128 # 10000) (-740060 # 10000) (Some "Stop 1") None;
    mkAddress "2" "456 Oak Ave" (407589 # 10000) (-739851 # 10000) (Some "Stop 2") None;
    mkAddress "3" "789 Pine Rd" (407282 # 10000) (-737949 # 10000) (Some "Stop 3") None;
    mkAddress "4" "321 Elm St" (406892 # 10000) (-740445 # 10000) (Some "Stop 4") None;
    mkAddress "5" "654 Maple Dr" (407505 # 10000) (-739934 # 10000) (Some "Stop 5") None;
    mkAddress "6" "987 Cedar Ln" (407614 # 10000) (-739776 # 10000) (Some "Stop 6") None;
    mkAddress "7" "147 Birch Way" (407549 # 10000) (-739840 # 10000) (Some "Stop 7") None;
    mkAddress "8" "258 Walnut Ct" (407462 # 10000) (-739863 # 10000) (Some "Stop 8") None ].

(** 101 stops at 101 addresses along a meridian, about 1.1 km apart. *)
Definition on_a_line : list Address :=
  map
    (fun k =>
       plain (string_of_nat k) (string_of_nat k ++ " Main St")%string
         (40 + (Z.of_nat k # 100))%Q (-74))
    (seq 0 101).

(** A routes file with two routes, the first of two stops. *)
Definition stored_stop (i a : string) : RouteStorage.Address :=
  RouteStorage.mkAddress i a None None None None (Some RouteStorage.pending)
    None None.

Definition morning : RouteStorage.SavedRoute :=
  RouteStorage.mkSavedRoute "r1" "Morning"
    [ stored_stop "s1" "123 Main St"; stored_stop "s2" "456 Oak Ave" ]
    (21 # 2) 30 "2024-01-01T08:00:00.000Z" "2024-01-01T08:00:00.000Z"
    (Some true) 0.

Definition evening : RouteStorage.SavedRoute :=
  RouteStorage.mkSavedRoute "r2" "Evening" [ stored_stop "s3" "789 Pine Rd" ]
    5 15 "2024-01-01T17:00:00.000Z" "2024-01-01T17:00:00.000Z" None 0.

Definition two_routes : RouteStorage.Disk :=
  RouteStorage.mkDisk (RouteStorage.Routes [ morning; evening ]) true.

Definition night : RouteStorage.RouteDraft :=
  RouteStorage.mkRouteDraft "Night" [ stored_stop "s4" "321 Elm St" ] 3 10 None 0.

(** An update that renames a route. *)
Definition rename : RouteStorage.Updates :=
  RouteStorage.mkUpdates None (Some "Late") None None None None
    (Some "1999-01-01T00:00:00.000Z") None None.

(** ** The optimizer *)

Section Optimizer.

(** [calculateDistance(lat1, lon1, lat2, lon2)]: the haversine distance in
    kilometres. *)
Variable calculateDistance : Q -> Q -> Q -> Q -> Q.

(** [axios.get] on the Distance Matrix URL built from the origins and the
    destinations: [None] when the request or the reading of [data.rows]
    throws (network, an error status, a body that cannot be read), else the
    rows of the response; a body that reports an error under HTTP 200, such
    as an exceeded quota, carries no rows. *)
Variable distanceMatrixApi : list Stop -> list Stop -> option response.

Definition distanceBetween (a b : Address) : Q :=
  calculateDistance (latitude a) (longitude a) (latitude b) (longitude b).

Definition indexed {A : Type} (l : list A) : list (nat * A) :=
  combine (seq 0 (List.length l)) l.

(** [l.slice(i, j)] *)
Definition slice {A : Type} (i j : nat) (l : list A) : list A :=
  firstn (j - i) (skipn i l).

(** A loop body that may throw, run over a list. *)
Fixpoint traverse {A B : Type} (f : A -> option B) (l : list A)
  : option (list B) :=
  match l with
  | [] => Some []
  | x :: l' =>
      match f x with
      | None => None
      | Some y =>
          match traverse f l' with
          | None => None
          | Some ys => Some (y :: ys)
          end
      end
  end.

(** *** Distance matrix *)

Definition buildHaversineMatrix (addresses : list Stop) : Matrix :=
  map
    (fun ia : nat * Stop =>
       map
         (fun jb : nat * Stop =>
            if fst ia =? fst jb then Some 0%Q
            else Some (distanceBetween (snd ia) (snd jb)))
         (indexed addresses))
    (indexed addresses).

(** One cell of a chunk. Reading the coordinates of a missing origin or
    destination throws. *)
Definition chunk_cell (origins destinations : list Stop) (i : nat)
  (je : nat * element) : option Q :=
  match snd je with
  | ElementOK meters => Some (meters / 1000)%Q
  | ElementNotOK =>
      match nth_error origins i, nth_error destinations (fst je) with
      | Some o, Some d => Some (distanceBetween o d)
      | _, _ => None
      end
  end.

(** [None] when the request or the reading of the response throws. *)
Definition getDistanceMatrixChunk (origins destinations : list Stop)
  : option (list (list Q)) :=
  match distanceMatrixApi origins destinations with
  | None => None
  | Some rows =>
      traverse
        (fun ir : nat * list element =>
           traverse (chunk_cell origins destinations (fst ir)) (indexed (snd ir)))
        (indexed rows)
  end.

(** [matrix[i + oi][j + dj] = chunk[oi][dj]]; reading [chunk[oi][dj]] throws
    when the chunk has no row [oi], and is [undefined] when the row is too
    short. *)
Definition fill_cell (chunk : list (list Q)) (i j oi : nat)
  (acc : option Matrix) (dj : nat) : option Matrix :=
  match acc with
  | None => None
  | Some matrix =>
      match nth_error chunk oi with
      | None => None
      | Some row => Some (set_cell matrix (i + oi) (j + dj) (nth_error row dj))
      end
  end.

Definition fill_chunk (chunk : list (list Q)) (i j n_origins n_destinations : nat)
  (matrix : Matrix) : option Matrix :=
  fold_left
    (fun acc oi => fold_left (fill_cell chunk i j oi) (seq 0 n_destinations) acc)
    (seq 0 n_origins) (Some matrix).

Definition chunkSize : nat := 10.

(** The values of [i] in [for (let i = 0; i < n; i += chunkSize)]. *)
Definition chunk_starts (n : nat) : list nat :=
  map (fun k => k * chunkSize) (seq 0 ((n + (chunkSize - 1)) / chunkSize)).

Definition batch (addresses : list Stop) (acc : option Matrix) (ij : nat * nat)
  : option Matrix :=
  match acc with
  | None => None
  | Some matrix =>
      let n := List.length addresses in
      let origins := slice (fst ij) (Nat.min (fst ij + chunkSize) n) addresses in
      let destinations := slice (snd ij) (Nat.min (snd ij + chunkSize) n) addresses in
      match getDistanceMatrixChunk origins destinations with
      | None => None
      | Some chunk =>
          fill_chunk chunk (fst ij) (snd ij)
            (List.length origins) (List.length destinations) matrix
      end
  end.

(** The [(i, j)] of the two nested batch loops, in the order they run. *)
Definition batches (n : nat) : list (nat * nat) :=
  flat_map (fun i => map (fun j => (i, j)) (chunk_starts n)) (chunk_starts n).

(** The body of the [try] block: [None] when something in it throws. *)
Definition provider_matrix (addresses : list Stop) : option Matrix :=
  let n := List.length addresses in
  fold_left (batch addresses) (batches n) (Some (repeat (repeat (Some 0%Q) n) n)).

Definition buildDistanceMatrix (this : RouteOptimizer) (addresses : list Stop)
  : Matrix :=
  if String.eqb (googleMapsApiKey this) "" then buildHaversineMatrix addresses
  else
    match provider_matrix addresses with
    | Some matrix => matrix
    | None => buildHaversineMatrix addresses
    end.

(** *** Distance lookups *)

Definition findAddressIndex (this : RouteOptimizer) (a : Stop) : option nat :=
  match originalAddresses this with
  | None => None
  | Some original => findIndex (fun o : Stop => String.eqb (id o) (id a)) original
  end.

(** The matrix cell when both indices resolve and the cell is not
    [undefined], else the haversine distance. *)
Definition getMatrixDistance (this : RouteOptimizer) (from to : Stop)
  (matrix : Matrix) : Q :=
  match findAddressIndex this from, findAddressIndex this to with
  | Some fromIdx, Some toIdx =>
      match cell matrix fromIdx toIdx with
      | Some d => d
      | None => distanceBetween from to
      end
  | _, _ => distanceBetween from to
  end.

(** The lookup of the two greedy constructions: the matrix cell when both
    indices resolve and the cell is truthy (defined and not zero), else the
    haversine distance. *)
Definition truthyMatrixDistance (this : RouteOptimizer) (matrix : Matrix)
  (current candidate : Stop) : Q :=
  match findAddressIndex this current, findAddressIndex this candidate with
  | Some currentIdx, Some candidateIdx =>
      match cell matrix currentIdx candidateIdx with
      | Some d => if Qeq_bool d 0 then distanceBetween current candidate else d
      | None => distanceBetween current candidate
      end
  | _, _ => distanceBetween current candidate
  end.

(** The loop of [calculateTotalDistanceWithMatrix], from a running total. *)
Fixpoint total_from (this : RouteOptimizer) (distanceMatrix : Matrix)
  (total : Q) (route : list Stop) : Q :=
  match route with
  | a :: (b :: _) as rest =>
      total_from this distanceMatrix
        (total + getMatrixDistance this a b distanceMatrix)%Q rest
  | _ => total
  end.

Definition calculateTotalDistanceWithMatrix (this : RouteOptimizer)
  (route : list Stop) (distanceMatrix : Matrix) : Q :=
  total_from this distanceMatrix 0%Q route.

(** [x && y] on two coordinates: a zero coordinate is falsy. *)
Definition truthy (x : Q) : bool := negb (Qeq_bool x 0).

Fixpoint haversine_total_from (total : Q) (route : list Stop) : Q :=
  match route with
  | a :: (b :: _) as rest =>
      haversine_total_from
        (if truthy (latitude a) && truthy (longitude a)
            && truthy (latitude b) && truthy (longitude b)
         then (total + distanceBetween a b)%Q else total)
        rest
  | _ => total
  end.

Definition calculateTotalDistance (this : RouteOptimizer) (route : list Stop)
  (distanceMatrix : option Matrix) : Q :=
  match distanceMatrix with
  | Some m => calculateTotalDistanceWithMatrix this route m
  | None => haversine_total_from 0%Q route
  end.

(** *** Construction heuristics *)

(** [Math.abs(a.latitude - start.latitude) < 0.001 &&
     Math.abs(a.longitude - start.longitude) < 0.001] *)
Definition near_start (start : Location) (a : Stop) : bool :=
  Qltb (Qabs (latitude a - loc_latitude start)) (1 # 1000)
  && Qltb (Qabs (longitude a - loc_longitude start)) (1 # 1000).

(** The position of the starting point:
    [start ? addresses.find(...) || addresses[0] : addresses[0]]. *)
Definition start_position (addresses : list Stop) (start : option Location)
  : nat :=
  match start with
  | Some s =>
      match findIndex (near_start s) addresses with
      | Some p => p
      | None => 0
      end
  | None => 0
  end.

(** The scan [for (const candidate of unvisited)] of
    [nearestNeighborWithMatrix] (the other running minima of the class have
    the same shape): [best] is the position of [nearest] (it
    starts at [unvisited[0]]), [shortest] is [shortestDistance] (it starts at
    [Infinity]), [pos] is the position of the head of [candidates]. The
    object [nearest] is removed afterwards with [indexOf], which finds it at
    [best]. *)
Fixpoint nearest_scan {A : Type} (dist : A -> Q) (candidates : list A)
  (pos best : nat) (shortest : option Q) : nat :=
  match candidates with
  | [] => best
  | candidate :: rest =>
      if below (dist candidate) shortest
      then nearest_scan dist rest (S pos) pos (Some (dist candidate))
      else nearest_scan dist rest (S pos) best shortest
  end.

(** The loop [while (unvisited.length > 0)]; [fuel] is the number of stops
    still unvisited. The route is accumulated in reverse. *)
Fixpoint nearest_loop (this : RouteOptimizer) (matrix : Matrix) (fuel : nat)
  (current : Stop) (unvisited route : list Stop) : list Stop :=
  match fuel with
  | O => rev route
  | S fuel' =>
      let p :=
        nearest_scan (truthyMatrixDistance this matrix current) unvisited 0 0 None in
      match nth_error unvisited p with
      | None => rev route
      | Some nearest =>
          nearest_loop this matrix fuel' nearest (remove_at p unvisited)
            (nearest :: route)
      end
  end.

Definition nearestNeighborWithMatrix (this : RouteOptimizer)
  (addresses : list Stop) (matrix : Matrix) (start : option Location)
  : list Stop :=
  match addresses with
  | [] => []
  | [_] => addresses
  | _ =>
      let p := start_position addresses start in
      match nth_error addresses p with
      | None => []
      | Some current =>
          let unvisited := remove_at p addresses in
          nearest_loop this matrix (List.length unvisited) current unvisited
            [current]
      end
  end.

(** The scan of [greedyTSP]: [nextAddress] starts at [null]. *)
Fixpoint greedy_scan (dist : Stop -> Q) (candidates : list Stop)
  (pos : nat) (best : option nat) (minCost : option Q) : option nat :=
  match candidates with
  | [] => best
  | candidate :: rest =>
      if below (dist candidate) minCost
      then greedy_scan dist rest (S pos) (Some pos) (Some (dist candidate))
      else greedy_scan dist rest (S pos) best minCost
  end.

(** The loop [while (unvisited.size > 0)] of [greedyTSP]; the [Set] is the
    list of its elements in insertion order. *)
Fixpoint greedy_loop (this : RouteOptimizer) (matrix : Matrix) (fuel : nat)
  (current : Stop) (unvisited route : list Stop) : list Stop :=
  match fuel with
  | O => rev route
  | S fuel' =>
      match greedy_scan (truthyMatrixDistance this matrix current) unvisited 0 None None with
      | None => rev route                         (* [break] *)
      | Some p =>
          match nth_error unvisited p with
          | None => rev route
          | Some nextAddress =>
              greedy_loop this matrix fuel' nextAddress (remove_at p unvisited)
                (nextAddress :: route)
          end
      end
  end.

Definition greedyTSP (this : RouteOptimizer) (addresses : list Stop)
  (matrix : Matrix) (start : option Location) : list Stop :=
  if List.length addresses <=? 3
  then nearestNeighborWithMatrix this addresses matrix start
  else
    let p := start_position addresses start in
    match nth_error addresses p with
    | None => []
    | Some current =>
        let unvisited := remove_at p addresses in
        greedy_loop this matrix (List.length unvisited) current unvisited [current]
    end.

(** *** Local search *)

(** [[...improved.slice(0, i), ...improved.slice(i, j + 1).reverse(),
      ...improved.slice(j + 1)]] *)
Definition reverse_segment (improved : list Stop) (i j : nat) : list Stop :=
  slice 0 i improved ++ rev (slice i (j + 1) improved) ++ skipn (j + 1) improved.

(** [improved[k]], for an index inside the route. *)
Definition item (improved : list Stop) (k : nat) : option Stop :=
  nth_error improved k.

(** The body of the two nested loops of [apply2OptImprovement] at [(i, j)];
    the state is [(improved, improvementFound)]. *)
Definition two_opt_step (this : RouteOptimizer) (matrix : Matrix)
  (state : list Stop * bool) (ij : nat * nat) : list Stop * bool :=
  let (improved, improvementFound) := state in
  let (i, j) := ij in
  match item improved (i - 1), item improved i,
        item improved j, item improved (j + 1) with
  | Some a, Some b, Some c, Some d =>
      let currentDist :=
        (getMatrixDistance this a b matrix + getMatrixDistance this c d matrix)%Q in
      let newDist :=
        (getMatrixDistance this a c matrix + getMatrixDistance this b d matrix)%Q in
      if Qltb newDist currentDist
      then (reverse_segment improved i j, true)
      else state
  | _, _, _, _ => state
  end.

(** The [(i, j)] of one pass:
    [for (i = 1; i < length - 2; i++) for (j = i + 1; j < length - 1; j++)]. *)
Definition two_opt_pairs (length : nat) : list (nat * nat) :=
  flat_map
    (fun i => map (fun j => (i, j)) (seq (i + 1) (length - 1 - (i + 1))))
    (seq 1 (length - 2 - 1)).

(** One full pass over the pairs, starting with [improvementFound = false]. *)
Definition two_opt_pass (this : RouteOptimizer) (matrix : Matrix)
  (improved : list Stop) : list Stop * bool :=
  fold_left (two_opt_step this matrix) (two_opt_pairs (List.length improved))
    (improved, false).

(** [while (improvementFound && iterations < maxIterations)]; [fuel] is
    [maxIterations - iterations]. *)
Fixpoint two_opt_loop (this : RouteOptimizer) (matrix : Matrix) (fuel : nat)
  (improved : list Stop) : list Stop :=
  match fuel with
  | O => improved
  | S fuel' =>
      let (improved', improvementFound) := two_opt_pass this matrix improved in
      if improvementFound then two_opt_loop this matrix fuel' improved'
      else improved'
  end.

Definition apply2OptImprovement (this : RouteOptimizer) (route : list Stop)
  (matrix : Matrix) : list Stop :=
  if List.length route <? 4 then route
  else two_opt_loop this matrix (Nat.min 20 (List.length route)) route.

(** The routes one sweep of [applyOrOptImprovement] tries, in order: for each
    interior [i], the element at [i] taken out and put back at each [j]. *)
Definition or_opt_candidates (improved : list Stop) : list (list Stop) :=
  flat_map
    (fun i =>
       match item improved i with
       | None => []
       | Some a =>
           let withoutAddress := remove_at i improved in
           map
             (fun j => slice 0 j withoutAddress ++ a :: skipn j withoutAddress)
             (seq 0 (List.length withoutAddress))
       end)
    (seq 1 (List.length improved - 1 - 1)).

(** One sweep: the first candidate that costs less than [improved], if any
    (the two [break]s). *)
Definition or_opt_sweep (this : RouteOptimizer) (matrix : Matrix)
  (improved : list Stop) : option (list Stop) :=
  find
    (fun newRoute =>
       Qltb (calculateTotalDistance this newRoute (Some matrix))
            (calculateTotalDistance this improved (Some matrix)))
    (or_opt_candidates improved).

Fixpoint or_opt_loop (this : RouteOptimizer) (matrix : Matrix) (fuel : nat)
  (improved : list Stop) : list Stop :=
  match fuel with
  | O => improved
  | S fuel' =>
      match or_opt_sweep this matrix improved with
      | Some newRoute => or_opt_loop this matrix fuel' newRoute
      | None => improved
      end
  end.

Definition applyOrOptImprovement (this : RouteOptimizer) (route : list Stop)
  (matrix : Matrix) : list Stop :=
  if List.length route <? 4 then route
  else or_opt_loop this matrix 10 route.

Definition christofidesApproximation (this : RouteOptimizer)
  (addresses : list Stop) (matrix : Matrix) (start : option Location)
  : list Stop :=
  if List.length addresses <=? 5 then greedyTSP this addresses matrix start
  else
    apply2OptImprovement this
      (nearestNeighborWithMatrix this addresses matrix start) matrix.

(** [while (keepImproving && iterations < maxIterations)] of
    [applyLocalSearchImprovements]; [fuel] is [maxIterations - iterations]. *)
Fixpoint local_search_loop (this : RouteOptimizer) (distanceMatrix : Matrix)
  (fuel : nat) (improved : list Stop) : list Stop :=
  match fuel with
  | O => improved
  | S fuel' =>
      let before := calculateTotalDistance this improved (Some distanceMatrix) in
      let improved' :=
        applyOrOptImprovement this
          (apply2OptImprovement this improved distanceMatrix) distanceMatrix in
      let after := calculateTotalDistance this improved' (Some distanceMatrix) in
      if Qltb after before
      then local_search_loop this distanceMatrix fuel' improved'
      else improved'
  end.

Definition applyLocalSearchImprovements (this : RouteOptimizer)
  (route : list Stop) (distanceMatrix : Matrix) : list Stop :=
  local_search_loop this distanceMatrix 50 route.

(** *** The three tiers *)

(** [for (const route of results)] keeping the first strictly shorter route. *)
Fixpoint pick_best (this : RouteOptimizer) (distanceMatrix : Matrix)
  (results : list (list Stop)) (bestRoute : list Stop) (bestDistance : Q)
  : list Stop :=
  match results with
  | [] => bestRoute
  | route :: rest =>
      let distance := calculateTotalDistance this route (Some distanceMatrix) in
      if Qltb distance bestDistance
      then pick_best this distanceMatrix rest route distance
      else pick_best this distanceMatrix rest bestRoute bestDistance
  end.

Definition advancedTSPOptimization (this : RouteOptimizer)
  (addresses : list Stop) (distanceMatrix : Matrix) (startLocation : option Location)
  : list Stop :=
  let r0 := nearestNeighborWithMatrix this addresses distanceMatrix startLocation in
  let results :=
    [ r0;
      greedyTSP this addresses distanceMatrix startLocation;
      christofidesApproximation this addresses distanceMatrix startLocation ] in
  pick_best this distanceMatrix results r0
    (calculateTotalDistance this r0 (Some distanceMatrix)).

Definition hybridOptimization (this : RouteOptimizer)
  (addresses : list Stop) (distanceMatrix : Matrix) (startLocation : option Location)
  : list Stop :=
  let route := nearestNeighborWithMatrix this addresses distanceMatrix startLocation in
  let route := apply2OptImprovement this route distanceMatrix in
  applyOrOptImprovement this route distanceMatrix.

(** *** The cluster tier *)

(** [x || 0] on a number *)
Definition or_zero (x : Q) : Q := if Qeq_bool x 0 then 0%Q else x.

(** [clusters[k].push(a)] *)
Definition push_at {A : Type} (k : nat) (a : A) (clusters : list (list A))
  : list (list A) :=
  match nth_error clusters k with
  | Some c => set_at k (c ++ [a]) clusters
  | None => clusters
  end.

(** The cluster centers: the coordinates of
    [addresses[Math.floor(i * addresses.length / count)]] for [i < count]. *)
Definition initial_centers (addresses : list Stop) (count : nat) : list (Q * Q) :=
  flat_map
    (fun i =>
       match nth_error addresses (i * List.length addresses / count) with
       | Some a => [(latitude a, longitude a)]
       | None => []                       (* the index is inside the array *)
       end)
    (seq 0 count).

Definition nearestCluster (centers : list (Q * Q)) (a : Stop) : nat :=
  nearest_scan
    (fun c : Q * Q => calculateDistance (latitude a) (longitude a) (fst c) (snd c))
    centers 0 0 None.

Definition createSmartClusters (addresses : list Stop) (count : nat)
  : list (list Stop) :=
  if List.length addresses <=? count then map (fun a => [a]) addresses
  else
    let centers := initial_centers addresses count in
    let clusters :=
      fold_left
        (fun clusters a => push_at (nearestCluster centers a) a clusters)
        addresses (repeat [] (List.length centers)) in
    filter (fun cluster => 0 <? List.length cluster) clusters.

Definition Q_same (x y : Q) : bool :=
  Z.eqb (Qnum x) (Qnum y) && Pos.eqb (Qden x) (Qden y).

Definition option_same {A : Type} (same : A -> A -> bool) (x y : option A) : bool :=
  match x, y with
  | Some a, Some b => same a b
  | None, None => true
  | _, _ => false
  end.

Fixpoint list_same {A : Type} (same : A -> A -> bool) (x y : list A) : bool :=
  match x, y with
  | [], [] => true
  | a :: x', b :: y' => same a b && list_same same x' y'
  | _, _ => false
  end.

Definition Address_same (a b : Address) : bool :=
  String.eqb (id a) (id b) && String.eqb (address a) (address b)
  && Q_same (latitude a) (latitude b) && Q_same (longitude a) (longitude b)
  && option_same String.eqb (name a) (name b)
  && option_same String.eqb (notes a) (notes b).

(** [a === b] on two elements of the grouped list. The objects of that list
    differ pairwise in their content (the keys of the groups differ), so they
    are identical exactly when their contents are equal. *)
Definition Stop_same (a b : Stop) : bool :=
  Address_same a b
  && option_same (list_same Address_same) (groupedAddresses a) (groupedAddresses b).

(** [addresses.indexOf(a)]; [None] is [-1]. *)
Definition indexOf (addresses : list Stop) (a : Stop) : option nat :=
  findIndex (Stop_same a) addresses.

(** [(matrix[i] && matrix[i][j] !== undefined) ? matrix[i][j] : 0] over the
    indices; an index [-1] resolves to no row. *)
Definition extractSubMatrix (matrix : Matrix) (indices : list (option nat))
  : Matrix :=
  map
    (fun i =>
       map
         (fun j =>
            match i, j with
            | Some i', Some j' =>
                match cell matrix i' j' with
                | Some d => Some d
                | None => Some 0%Q
                end
            | _, _ => Some 0%Q
            end)
         indices)
    indices.

(** [findNearestAddress(addresses, location)], as a position in
    [addresses]. *)
Definition findNearestAddress (addresses : list Stop) (location : Location) : nat :=
  let dist (a : Stop) :=
    calculateDistance (loc_latitude location) (loc_longitude location)
      (latitude a) (longitude a) in
  match addresses with
  | [] => 0
  | first :: _ => nearest_scan dist addresses 0 0 (Some (dist first))
  end.

Fixpoint nearestNeighborTSP_loop (fuel : nat) (current : Stop)
  (unvisited route : list Stop) : list Stop :=
  match fuel with
  | O => rev route
  | S fuel' =>
      let p :=
        findNearestAddress unvisited
          (mkLocation (latitude current) (longitude current)) in
      match nth_error unvisited p with
      | None => rev route
      | Some nearest =>
          nearestNeighborTSP_loop fuel' nearest (remove_at p unvisited)
            (nearest :: route)
      end
  end.

Definition nearestNeighborTSP (addresses : list Stop)
  (startLocation : option Location) : list Stop :=
  match addresses with
  | [] => []
  | _ =>
      let p :=
        match startLocation with
        | Some s => findNearestAddress addresses s
        | None => 0
        end in
      match nth_error addresses p with
      | None => []
      | Some current =>
          let unvisited := remove_at p addresses in
          nearestNeighborTSP_loop (List.length unvisited) current unvisited [current]
      end
  end.

(** The centroid object of a cluster. *)
Definition clusterCenter (cluster : list Stop) : Stop :=
  let size := inject_Z (Z.of_nat (List.length cluster)) in
  let avgLat :=
    (fold_left (fun sum (a : Stop) => sum + or_zero (latitude a)) cluster 0 / size)%Q in
  let avgLng :=
    (fold_left (fun sum (a : Stop) => sum + or_zero (longitude a)) cluster 0 / size)%Q in
  mkStop
    (mkAddress ("cluster-" ++ string_of_nat (List.length cluster))%string
       "cluster-center" avgLat avgLng None None)
    None.

(** The predicate of [clusterCenters.findIndex] for one ordered center. *)
Definition same_center (center c : Stop) : bool :=
  Qltb (Qabs (latitude c - or_zero (latitude center))) (1 # 10000)
  && Qltb (Qabs (longitude c - or_zero (longitude center))) (1 # 10000).

Definition optimizeClusterOrder (clusters : list (list Stop)) (matrix : Matrix)
  (allAddresses : list Stop) (start : option Location) : list (list Stop) :=
  if List.length clusters <=? 1 then clusters
  else
    let clusterCenters := map clusterCenter clusters in
    let orderedCenters := nearestNeighborTSP clusterCenters start in
    flat_map
      (fun center =>
         match findIndex (same_center center) clusterCenters with
         | Some clusterIndex =>
             match nth_error clusters clusterIndex with
             | Some cluster => [cluster]
             | None => []
             end
         | None => []
         end)
      orderedCenters.

Definition clusterBasedOptimization (this : RouteOptimizer)
  (addresses : list Stop) (distanceMatrix : Matrix) (startLocation : option Location)
  : list Stop :=
  let clusterCount := (List.length addresses + 29) / 30 in   (* Math.ceil(n / 30) *)
  let clusters := createSmartClusters addresses clusterCount in
  let optimizedClusters :=
    map
      (fun cluster =>
         let clusterIndices := map (indexOf addresses) cluster in
         let clusterMatrix := extractSubMatrix distanceMatrix clusterIndices in
         nearestNeighborWithMatrix this cluster clusterMatrix None)
      clusters in
  let clusterRoute :=
    optimizeClusterOrder optimizedClusters distanceMatrix addresses startLocation in
  List.concat clusterRoute.

(** *** [optimizeRoute] and [calculateRouteMetrics] *)

(** The tier-specific construction of step 3. *)
Definition construct (this : RouteOptimizer) (groupedAddresses : list Stop)
  (distanceMatrix : Matrix) (startLocation : option Location) : list Stop :=
  if List.length groupedAddresses <=? 25 then
    advancedTSPOptimization this groupedAddresses distanceMatrix startLocation
  else if List.length groupedAddresses <=? 100 then
    hybridOptimization this groupedAddresses distanceMatrix startLocation
  else
    clusterBasedOptimization this groupedAddresses distanceMatrix startLocation.

(** The instance after the call and the returned route. *)
Definition optimizeRoute (this : RouteOptimizer) (addresses : list Address)
  (startLocation : option Location) : RouteOptimizer * list Address :=
  if List.length addresses <=? 2 then (this, addresses)
  else
    let groupedAddresses := groupSameLocationAddresses addresses in
    let this :=
      mkRouteOptimizer (googleMapsApiKey this) (Some groupedAddresses) in
    let distanceMatrix := buildDistanceMatrix this groupedAddresses in
    let optimizedRoute :=
      construct this groupedAddresses distanceMatrix startLocation in
    let optimizedRoute :=
      applyLocalSearchImprovements this optimizedRoute distanceMatrix in
    (this, expandGroupedRoute optimizedRoute).

(** The loop of [calculateRouteMetrics], from the two running totals. *)
Fixpoint metrics_from (totalDistance estimatedTime : Q) (route : list Address)
  : RouteMetrics :=
  match route with
  | a :: (b :: _) as rest =>
      let distance := distanceBetween a b in
      metrics_from (totalDistance + distance)%Q
        (estimatedTime + (distance / 40 * 60 + 5))%Q rest
  | _ => mkRouteMetrics totalDistance estimatedTime
  end.

Definition calculateRouteMetrics (route : list Address) : RouteMetrics :=
  metrics_from 0%Q 0%Q route.

(** ** Geocoding *)

(** An [Address] object as it is uploaded: the coordinates are optional. *)
Record RawAddress : Type := mkRawAddress {
  raw_id : string;
  raw_address : string;
  raw_latitude : option Q;
  raw_longitude : option Q;
  raw_name : option string;
  raw_notes : option string
}.

(** [ToInt32]: the integer modulo 2^32 that lies in [-2^31, 2^31). *)
Definition toInt32 (x : Z) : Z := ((x + 2 ^ 31) mod 2 ^ 32 - 2 ^ 31)%Z.

(** [str.charCodeAt(i)] *)
Definition charCode (c : ascii) : Z := Z.of_nat (nat_of_ascii c).

(** One turn of the loop of [hashCode]:
    [hash = ((hash << 5) - hash) + char; hash = hash & hash]. The shift and
    the [&] work on 32-bit integers, the subtraction and the addition on
    numbers. *)
Definition hash_step (hash : Z) (c : ascii) : Z :=
  toInt32 (toInt32 (Z.shiftl (toInt32 hash) 5) - hash + charCode c)%Z.

Definition hashCode (str : string) : Z :=
  Z.abs (fold_left hash_step (list_ascii_of_string str) 0%Z).

Definition mockGeocode (address : string) : Location :=
  let hash := hashCode address in
  mkLocation
    ((407128 # 10000) + inject_Z (hash mod 100) / 1000)%Q
    (-(740060 # 10000) + inject_Z (hash mod 100) / 1000)%Q.

(** The body of a Geocoding response: [status] and the locations of
    [results]. *)
Record GeocodeResponse : Type := mkGeocodeResponse {
  geo_status : string;
  geo_results : list Location
}.

Section Geocoding.

(** [axios.get] on the Geocoding URL for an address: [None] when the request
    fails. *)
Variable geocodeApi : string -> option GeocodeResponse.

(** The [try] block of [geocodeAddress]; [None] when something in it
    throws, the error for a status that is not OK or an empty list of
    results included. *)
Definition geocodeRequest (address : string) : option Location :=
  match geocodeApi address with
  | None => None
  | Some response =>
      if String.eqb (geo_status response) "OK"
         && (0 <? List.length (geo_results response))
      then hd_error (geo_results response)
      else None
  end.

(** [geocodeAddress]; [None] is a rejected promise. *)
Definition geocodeAddress (this : RouteOptimizer) (address : string)
  : option Location :=
  if String.eqb (googleMapsApiKey this) "" then Some (mockGeocode address)
  else
    match geocodeRequest address with
    | Some location => Some location
    | None => Some (mockGeocode address)               (* [catch] *)
    end.

(** [address.latitude && address.longitude] *)
Definition hasCoordinates (a : RawAddress) : bool :=
  match raw_latitude a, raw_longitude a with
  | Some lat, Some lon => truthy lat && truthy lon
  | _, _ => false
  end.

(** [{ ...address, latitude, longitude }] *)
Definition withCoordinates (a : RawAddress) (location : Location) : RawAddress :=
  mkRawAddress (raw_id a) (raw_address a)
    (Some (loc_latitude location)) (Some (loc_longitude location))
    (raw_name a) (raw_notes a).

Fixpoint geocodeAddresses (this : RouteOptimizer) (addresses : list RawAddress)
  : list RawAddress :=
  match addresses with
  | [] => []
  | a :: rest =>
      if hasCoordinates a then a :: geocodeAddresses this rest
      else
        match geocodeAddress this (raw_address a) with
        | Some geocoded => withCoordinates a geocoded :: geocodeAddresses this rest
        | None => geocodeAddresses this rest             (* [catch]: skipped *)
        end
  end.

End Geocoding.

(** ** The earlier optimizer for large data sets *)

(** The loop [while (i < j)] of [twoOptSwap], which exchanges [newRoute[i]]
    and [newRoute[j]] and moves the two indices towards each other; [fuel]
    bounds the number of turns. The callers keep [i] and [j] inside the
    array; an exchange outside it would leave holes in the array and is not
    modelled: the loop stops there. *)
Fixpoint twoOptSwap_loop (fuel : nat) (newRoute : list Stop) (i j : nat)
  : list Stop :=
  match fuel with
  | O => newRoute
  | S fuel' =>
      if i <? j then
        match nth_error newRoute i, nth_error newRoute j with
        | Some x, Some y =>
            twoOptSwap_loop fuel' (set_at i y (set_at j x newRoute)) (S i) (j - 1)
        | _, _ => newRoute
        end
      else newRoute
  end.

Definition twoOptSwap (route : list Stop) (i j : nat) : list Stop :=
  twoOptSwap_loop (List.length route) route i j.

(** The body of the two nested loops of [twoOptImprovement] at [(i, j)]; the
    state is [(currentRoute, improved)]. *)
Definition twoOptImprovement_step (this : RouteOptimizer)
  (state : list Stop * bool) (ij : nat * nat) : list Stop * bool :=
  let (currentRoute, improved) := state in
  let newRoute := twoOptSwap currentRoute (fst ij) (snd ij) in
  if Qltb (calculateTotalDistance this newRoute None)
          (calculateTotalDistance this currentRoute None)
  then (newRoute, true)
  else state.

(** The [(i, j)] of one pass:
    [for (i = 1; i < length - 2; i++) for (j = i + 1; j < length; j++)],
    without the adjacent pairs, which are skipped. *)
Definition twoOptImprovement_pairs (length : nat) : list (nat * nat) :=
  flat_map
    (fun i => map (fun j => (i, j)) (seq (i + 2) (length - (i + 2))))
    (seq 1 (length - 2 - 1)).

(** [while (improved && iterations < maxIterations)]; [fuel] is
    [maxIterations - iterations]. *)
Fixpoint twoOptImprovement_loop (this : RouteOptimizer) (fuel : nat)
  (currentRoute : list Stop) : list Stop :=
  match fuel with
  | O => currentRoute
  | S fuel' =>
      let (currentRoute', improved) :=
        fold_left (twoOptImprovement_step this)
          (twoOptImprovement_pairs (List.length currentRoute))
          (currentRoute, false) in
      if improved then twoOptImprovement_loop this fuel' currentRoute'
      else currentRoute'
  end.

Definition twoOptImprovement (this : RouteOptimizer) (route : list Stop)
  (maxIterations : nat) : list Stop :=
  twoOptImprovement_loop this maxIterations route.

Definition enhancedNearestNeighbor (this : RouteOptimizer)
  (addresses : list Stop) (startLocation : option Location) : list Stop :=
  let route := nearestNeighborTSP addresses startLocation in
  twoOptImprovement this route (Nat.min 50 (List.length addresses)).

(** The cluster centers of [createGeographicClusters]: the coordinates, or 0
    in place of a zero or missing one, of
    [addresses[Math.floor(i * addresses.length / clusterCount)]]. *)
Definition geographic_centers (addresses : list Stop) (clusterCount : nat)
  : list (Q * Q) :=
  flat_map
    (fun i =>
       match nth_error addresses (i * List.length addresses / clusterCount) with
       | Some a => [(or_zero (latitude a), or_zero (longitude a))]
       | None => []                       (* the index is inside the array *)
       end)
    (seq 0 clusterCount).

(** One turn of [for (const address of addresses)]: an address with a zero
    coordinate is passed over; [clusters[nearestCluster].push(address)]
    throws when there is no such cluster. *)
Definition assign_cluster (centers : list (Q * Q))
  (acc : option (list (list Stop))) (a : Stop) : option (list (list Stop)) :=
  match acc with
  | None => None
  | Some clusters =>
      if truthy (latitude a) && truthy (longitude a) then
        match nth_error clusters (nearestCluster centers a) with
        | Some _ => Some (push_at (nearestCluster centers a) a clusters)
        | None => None
        end
      else Some clusters
  end.

(** [None] when the function throws. *)
Definition createGeographicClusters (addresses : list Stop) (clusterCount : nat)
  : option (list (list Stop)) :=
  if List.length addresses <=? clusterCount then
    Some (map (fun a => [a]) addresses)
  else
    let centers := geographic_centers addresses clusterCount in
    option_map
      (filter (fun cluster : list Stop => 0 <? List.length cluster))
      (fold_left (assign_cluster centers) addresses
         (Some (repeat [] clusterCount))).

(** One turn of [for (const cluster of clusters)] in [clusterAndOptimize];
    the state is [(optimizedRoute, currentLocation)]. Reading the
    coordinates of the last stop of an empty cluster throws. *)
Definition visit_cluster (acc : option (list Stop * option Location))
  (cluster : list Stop) : option (list Stop * option Location) :=
  match acc with
  | None => None
  | Some (optimizedRoute, currentLocation) =>
      let optimizedCluster := nearestNeighborTSP cluster currentLocation in
      match nth_error optimizedCluster (List.length optimizedCluster - 1) with
      | None => None
      | Some lastStop =>
          Some
            (optimizedRoute ++ optimizedCluster,
             if truthy (latitude lastStop) && truthy (longitude lastStop)
             then Some (mkLocation (latitude lastStop) (longitude lastStop))
             else currentLocation)
      end
  end.

Definition clusterAndOptimize (addresses : list Stop)
  (startLocation : option Location) : option (list Stop) :=
  let clusterCount := (List.length addresses + 49) / 50 in   (* Math.ceil(n / 50) *)
  match createGeographicClusters addresses clusterCount with
  | None => None
  | Some clusters =>
      option_map fst (fold_left visit_cluster clusters (Some ([], startLocation)))
  end.

Definition optimizeRouteForLargeDataset (this : RouteOptimizer)
  (addresses : list Stop) (startLocation : option Location)
  : option (list Stop) :=
  if 300 <? List.length addresses then clusterAndOptimize addresses startLocation
  else Some (enhancedNearestNeighbor this addresses startLocation).

(** ** Definitions used by the statements and the proofs *)

(** The origins and the destinations of the batch at [(i, j)]. *)
Definition batch_origins (addresses : list Stop) (ij : nat * nat) : list Stop :=
  slice (fst ij) (Nat.min (fst ij + chunkSize) (List.length addresses)) addresses.

Definition batch_destinations (addresses : list Stop) (ij : nat * nat) : list Stop :=
  slice (snd ij) (Nat.min (snd ij + chunkSize) (List.length addresses)) addresses.

(** A batch request that fails: [axios.get] or the reading of the body
    throws, or the body carries fewer rows than there are origins, as the
    bodies that report an error do ([rows: []] under a status other than
    [OK]). *)
Definition request_failed (origins destinations : list Stop) : Prop :=
  match distanceMatrixApi origins destinations with
  | None => True
  | Some rows => List.length rows < List.length origins
  end.

(** Every cell of the [n] by [n] table holds a number. *)
Definition populated (n : nat) (m : Matrix) : Prop :=
  forall i j, i < n -> j < n -> exists d, cell m i j = Some d.

(** The responses carry at least a row per origin and at least an element
    per destination. *)
Definition well_shaped : Prop :=
  forall origins destinations rows,
    distanceMatrixApi origins destinations = Some rows ->
    List.length origins <= List.length rows
    /\ Forall (fun elements => List.length destinations <= List.length elements) rows.

(** The state of the fill loops: nothing thrown so far and the table still
    populated, or something thrown. *)
Definition populated_or_thrown (n : nat) (acc : option Matrix) : Prop :=
  match acc with
  | Some m => populated n m
  | None => True
  end.

(** An [n] by [n] table. *)
Definition shaped (n : nat) (m : Matrix) : Prop :=
  List.length m = n /\ Forall (fun row => List.length row = n) m.

(** [chunk[oi][dj]], [None] when it is [undefined]. *)
Definition chunk_value (chunk : list (list Q)) (oi dj : nat) : option Q :=
  match nth_error chunk oi with
  | Some row => nth_error row dj
  | None => None
  end.

(** The state after a loop that may have thrown. *)
Definition unless_thrown (acc : option Matrix) (P : Matrix -> Prop) : Prop :=
  match acc with
  | Some m => P m
  | None => True
  end.

(** The batch that covers the cell [(i, j)]. *)
Definition block_of (i j : nat) : nat * nat :=
  (i / chunkSize * chunkSize, j / chunkSize * chunkSize).

(** What the chunk of its batch holds for the cell [(i, j)]. *)
Definition expected (addresses : list Stop) (i j : nat) : option Q :=
  match getDistanceMatrixChunk (batch_origins addresses (block_of i j))
          (batch_destinations addresses (block_of i j)) with
  | Some chunk => chunk_value chunk (i - fst (block_of i j)) (j - snd (block_of i j))
  | None => None
  end.

(** The table is whole and the cells of the batches in [done] hold the
    values of their chunks. *)
Definition filled (addresses : list Stop) (done : nat * nat -> Prop) (m : Matrix)
  : Prop :=
  shaped (List.length addresses) m
  /\ forall i j, i < List.length addresses -> j < List.length addresses ->
       done (block_of i j) -> cell m i j = expected addresses i j.

(** A batch of the loops: its offsets are multiples of the chunk size, inside
    the table. *)
Definition batch_start (n b : nat) : Prop :=
  exists k, b = k * chunkSize /\ b < n.

(** What the service reported for a pair: the road distance in kilometres,
    or the haversine distance when the element is not OK. *)
Definition reported_value (a b : Stop) (e : element) : Q :=
  match e with
  | ElementOK meters => (meters / 1000)%Q
  | ElementNotOK => distanceBetween a b
  end.

(** The element for the cell [(i, j)] in the response to its batch. *)
Definition element_for (addresses : list Stop) (i j : nat) : option element :=
  match distanceMatrixApi (batch_origins addresses (block_of i j))
          (batch_destinations addresses (block_of i j)) with
  | Some rows =>
      match nth_error rows (i - fst (block_of i j)) with
      | Some elements => nth_error elements (j - snd (block_of i j))
      | None => None
      end
  | None => None
  end.

(** The consecutive pairs of a route. *)
Definition edges {A : Type} (route : list A) : list (A * A) :=
  combine route (tl route).

Definition edgeDistance (e : Address * Address) : Q :=
  distanceBetween (fst e) (snd e).

(** Minutes for one edge: 40 km/h, plus 5 minutes. *)
Definition edgeTime (e : Address * Address) : Q :=
  (edgeDistance e / 40 * 60 + 5)%Q.

(** The calculator as the specification words it: an edge costs the matrix
    cell when its two ends map to matrix indices, and the haversine distance
    otherwise. *)
Definition matrixEdgeDistance (this : RouteOptimizer) (matrix : Matrix)
  (e : Address * Address) : Q :=
  getMatrixDistance this (mkStop (fst e) None) (mkStop (snd e) None) matrix.

Definition matrixRouteMetrics (this : RouteOptimizer) (matrix : Matrix)
  (route : list Address) : RouteMetrics :=
  mkRouteMetrics
    (fold_left Qplus (map (matrixEdgeDistance this matrix) (edges route)) 0%Q)
    (fold_left Qplus
       (map (fun e => (matrixEdgeDistance this matrix e / 40 * 60 + 5)%Q) (edges route))
       0%Q).

(** The cost of a route, edge by edge from its head. *)
Fixpoint path_cost (this : RouteOptimizer) (matrix : Matrix) (route : list Stop)
  : Q :=
  match route with
  | a :: (b :: _) as rest => (getMatrixDistance this a b matrix + path_cost this matrix rest)%Q
  | _ => 0%Q
  end.

(** The lookups between the stops of a route do not depend on the
    direction. *)
Definition symmetric_on (this : RouteOptimizer) (matrix : Matrix)
  (route : list Stop) : Prop :=
  forall a b, In a route -> In b route ->
    (getMatrixDistance this a b matrix == getMatrixDistance this b a matrix)%Q.

(** [p] is the position of [nearest] in [candidates], no candidate is closer
    than [nearest], and every candidate before [p] is strictly farther: the
    earliest candidate of least distance. *)
Definition earliest_nearest {A : Type} (dist : A -> Q) (candidates : list A)
  (p : nat) (nearest : A) : Prop :=
  nth_error candidates p = Some nearest
  /\ (forall q c, nth_error candidates q = Some c -> (dist nearest <= dist c)%Q)
  /\ (forall q c, q < p -> nth_error candidates q = Some c ->
        (dist nearest < dist c)%Q).

(** What the scan knows after the candidates in [scanned]. *)
Definition scan_state {A : Type} (dist : A -> Q) (scanned : list A)
  (best : nat) (shortest : option Q) : Prop :=
  match shortest with
  | None => scanned = []
  | Some s => exists b, s = dist b /\ earliest_nearest dist scanned best b
  end.

(** The route from [current] on: each next stop is the earliest unvisited
    stop of least lookup distance from the stop before it. *)
Inductive nearest_chain (this : RouteOptimizer) (matrix : Matrix)
  : Stop -> list Stop -> list Stop -> Prop :=
| chain_done (current : Stop) : nearest_chain this matrix current [] []
| chain_step (current : Stop) (unvisited : list Stop) (p : nat) (nearest : Stop)
    (rest : list Stop) :
    earliest_nearest (truthyMatrixDistance this matrix current) unvisited p nearest ->
    nearest_chain this matrix nearest (remove_at p unvisited) rest ->
    nearest_chain this matrix current unvisited (nearest :: rest).

(** The position where the route starts: the first address whose two
    coordinates are both within 0.001 of the start location, or the first
    address when none is, or when no start location is given. *)
Definition starts_at (addresses : list Stop) (start : option Location) (p : nat)
  : Prop :=
  match start with
  | None => p = 0
  | Some s =>
      (exists a, nth_error addresses p = Some a /\ near_start s a = true
                 /\ forall q b, q < p -> nth_error addresses q = Some b ->
                                near_start s b = false)
      \/ (p = 0 /\ forall b, In b addresses -> near_start s b = false)
  end.

(** The heuristic as the specification words it: for more than 5 groups, the
    nearest-neighbour route followed by exactly one full 2-opt pass. *)
Definition approximateHeuristic (this : RouteOptimizer) (matrix : Matrix)
  (addresses : list Stop) (start : option Location)
  : list Stop :=
  if List.length addresses <=? 5 then greedyTSP this addresses matrix start
  else
    fst (two_opt_pass this matrix
           (nearestNeighborWithMatrix this addresses matrix start)).

(** The three construction heuristics of the small tier. *)
Definition heuristics (this : RouteOptimizer) (addresses : list Stop)
  (distanceMatrix : Matrix) (startLocation : option Location) : list (list Stop) :=
  [ nearestNeighborWithMatrix this addresses distanceMatrix startLocation;
    greedyTSP this addresses distanceMatrix startLocation;
    christofidesApproximation this addresses distanceMatrix startLocation ].

(** The four pipelines. *)
Inductive Tier : Type := Trivial | ExactIsh | Hybrid | Cluster.

(** The tier [optimizeRoute] takes: the first test is on the number of
    stops, the others on the number of groups. *)
Definition tier_of (stops groups : nat) : Tier :=
  if stops <=? 2 then Trivial
  else if groups <=? 25 then ExactIsh
  else if groups <=? 100 then Hybrid
  else Cluster.

(** The members of a group have the key of the group. *)
Definition keyed (entry : string * list Address) : Prop :=
  snd entry <> []
  /\ Forall (fun a => normalizeAddressForGrouping (address a) = fst entry)
       (snd entry).

(** The key of the group behind a grouped stop. *)
Definition key_of (s : Stop) : string :=
  match groupedAddresses s with
  | Some _ => String.substring 6 (String.length (id s) - 6) (id s)
  | None => normalizeAddressForGrouping (address s)
  end.

(** No center matches the center of a cluster that comes later. *)
Definition distinct_centers (centers : list Stop) : Prop :=
  forall p q cp cq,
    p < q -> nth_error centers p = Some cp -> nth_error centers q = Some cq ->
    same_center cq cp = false.

(** The clusters of the cluster tier, each in its internal order. *)
Definition optimizedClusters (this : RouteOptimizer) (addresses : list Stop)
  (distanceMatrix : Matrix) : list (list Stop) :=
  map
    (fun cluster =>
       nearestNeighborWithMatrix this cluster
         (extractSubMatrix distanceMatrix (map (indexOf addresses) cluster)) None)
    (createSmartClusters addresses ((List.length addresses + 29) / 30)).

(** ** Definitions used by the further properties *)

(** The key under which [groupSameLocationAddresses] files a stop. *)
Definition locationKey (a : Address) : string :=
  normalizeAddressForGrouping (address a).

(** The input stops filed under [key], in input order. *)
Definition at_key (key : string) (addresses : list Address) : list Address :=
  filter (fun a => String.eqb (locationKey a) key) addresses.

(** What the grouping loop has built after the stops in [seen]: one entry per
    key met so far, holding the stops of that key in input order. *)
Definition grouped_so_far (seen : list Address)
  (groups : list (string * list Address)) : Prop :=
  NoDup (map fst groups)
  /\ Forall (fun entry => snd entry = at_key (fst entry) seen /\ snd entry <> [])
       groups
  /\ forall a, In a seen -> In (locationKey a) (map fst groups).

(** A check of [distinct_centers]: no center matches an earlier one. *)
Fixpoint distinct_centersb (centers : list Stop) : bool :=
  match centers with
  | [] => true
  | c :: rest =>
      forallb (fun later => negb (same_center later c)) rest
      && distinct_centersb rest
  end.

(** Two routes with the same first stop and the same last stop. *)
Definition same_ends (l l' : list Stop) : Prop :=
  hd_error l' = hd_error l /\ forall x, last l' x = last l x.

(** [calculateDistance] does not depend on the direction, as the haversine
    formula does not. *)
Definition symmetric_distance : Prop :=
  forall lat1 lon1 lat2 lon2,
    (calculateDistance lat1 lon1 lat2 lon2 == calculateDistance lat2 lon2 lat1 lon1)%Q.


(** The polynomial of base 31 over the character codes of a string. *)
Definition polynomial31 (acc : Z) (s : list ascii) : Z :=
  fold_left (fun h c => (31 * h + charCode c)%Z) s acc.

(** What [geocodeAddresses] does to one address: the fields other than the
    coordinates are kept, an address that has its two coordinates is not
    touched, and the result has two coordinates. *)
Definition geocoded_from (a b : RawAddress) : Prop :=
  raw_id b = raw_id a /\ raw_address b = raw_address a
  /\ raw_name b = raw_name a /\ raw_notes b = raw_notes a
  /\ (hasCoordinates a = true -> b = a)
  /\ raw_latitude b <> None /\ raw_longitude b <> None.

(** [current] holds the stops of [route], begins with the same stop, and is
    not longer by the straight-line measure of [calculateTotalDistance]. *)
Definition improves (this : RouteOptimizer) (route current : list Stop) : Prop :=
  Permutation current route
  /\ hd_error current = hd_error route
  /\ (calculateTotalDistance this current None
      <= calculateTotalDistance this route None)%Q.

(** [address.latitude && address.longitude] on a stop of the optimizer. *)
Definition bothCoordinates (a : Stop) : bool :=
  truthy (latitude a) && truthy (longitude a).

(** ** Facts about the helpers *)

Lemma Qltb_lt (x y : Q) : Qltb x y = true <-> (x < y)%Q.
Proof.
  unfold Qltb. rewrite negb_true_iff.
  split; intro H.
  - apply Qnot_le_lt. intro Hle. apply Qle_bool_iff in Hle. congruence.
  - destruct (Qle_bool y x) eqn:E; [|reflexivity].
    apply Qle_bool_iff in E. exfalso. apply (Qlt_not_le _ _ H E).
Qed.

Lemma Qltb_ge (x y : Q) : Qltb x y = false <-> (y <= x)%Q.
Proof.
  unfold Qltb. rewrite negb_false_iff. apply Qle_bool_iff.
Qed.

Lemma Qltb_irrefl (x : Q) : Qltb x x = false.
Proof. apply Qltb_ge. apply Qle_refl. Qed.

(** The fuel of [Str.replace] is enough: any larger amount gives the same
    string. *)
Lemma replace_from_enough (fuel1 fuel2 : nat) (r : Str.regex) (rep s : Str.chars) :
  List.length s < fuel1 -> List.length s < fuel2 ->
  Str.replace_from fuel1 r rep s = Str.replace_from fuel2 r rep s.
Proof.
  revert fuel2 s. induction fuel1 as [|fuel1 IH]; intros fuel2 s H1 H2; [lia|].
  destruct fuel2 as [|fuel2]; [lia|]. cbn [Str.replace_from].
  assert (Hskip : match s with
                  | [] => []
                  | c :: s' => c :: Str.replace_from fuel1 r rep s'
                  end
                  = match s with
                    | [] => []
                    | c :: s' => c :: Str.replace_from fuel2 r rep s'
                    end).
  { destruct s as [|c s']; [reflexivity|]. simpl in H1, H2.
    f_equal. apply IH; lia. }
  rewrite Hskip.
  destruct (Str.match_here r s) as [rest|]; [|reflexivity].
  destruct (Nat.ltb_spec (List.length rest) (List.length s)); [|reflexivity].
  f_equal. apply IH; lia.
Qed.

Lemma fold_left_none {A B : Type} (f : option A -> B -> option A) (l : list B) :
  (forall b, f None b = None) -> fold_left f l None = None.
Proof.
  intro Hf. induction l as [|b l IH]; simpl; [reflexivity|].
  rewrite Hf. exact IH.
Qed.

(** ** The distance matrix builder *)

Lemma batch_throws (addresses : list Stop) (acc : option Matrix) (ij : nat * nat) :
  getDistanceMatrixChunk (batch_origins addresses ij) (batch_destinations addresses ij)
    = None ->
  batch addresses acc ij = None.
Proof.
  intro H. unfold batch. destruct acc as [m|]; [|reflexivity].
  unfold batch_origins, batch_destinations in H. cbv zeta. rewrite H. reflexivity.
Qed.

Lemma batches_throw (addresses : list Stop) (l : list (nat * nat))
  (acc : option Matrix) (ij : nat * nat) :
  In ij l ->
  getDistanceMatrixChunk (batch_origins addresses ij) (batch_destinations addresses ij)
    = None ->
  fold_left (batch addresses) l acc = None.
Proof.
  intros Hin H. apply in_split in Hin. destruct Hin as [l1 [l2 ->]].
  rewrite fold_left_app. simpl.
  rewrite (batch_throws addresses _ ij H).
  apply fold_left_none. reflexivity.
Qed.

Lemma request_failure_throws (origins destinations : list Stop) :
  distanceMatrixApi origins destinations = None ->
  getDistanceMatrixChunk origins destinations = None.
Proof.
  intro H. unfold getDistanceMatrixChunk. rewrite H. reflexivity.
Qed.

(** *** Every cell is populated *)

Lemma nth_error_set_at {A : Type} (p : nat) (v : A) (l : list A) (q : nat) :
  nth_error (set_at p v l) q
  = if q =? p then option_map (fun _ => v) (nth_error l p) else nth_error l q.
Proof.
  revert p q. induction l as [|x l IH]; intros p q.
  - destruct p, q; simpl; try reflexivity; destruct (q =? p); reflexivity.
  - destruct p as [|p], q as [|q]; simpl; try reflexivity.
    rewrite IH. reflexivity.
Qed.

(** A write changes at most the cell it names. *)
Lemma cell_set_cell (m : Matrix) (r c : nat) (v : option Q) (i j : nat) :
  cell (set_cell m r c v) i j = cell m i j
  \/ (i = r /\ j = c /\ cell (set_cell m r c v) i j = v).
Proof.
  unfold set_cell, cell.
  destruct (nth_error m r) as [row|] eqn:Hr; [|left; reflexivity].
  rewrite nth_error_set_at.
  destruct (i =? r) eqn:Ei.
  - apply Nat.eqb_eq in Ei. subst i. rewrite Hr. simpl.
    rewrite nth_error_set_at.
    destruct (j =? c) eqn:Ej.
    + apply Nat.eqb_eq in Ej. subst j.
      destruct (nth_error row c) as [old|]; simpl.
      * right. auto.
      * left. reflexivity.
    + left. reflexivity.
  - left. reflexivity.
Qed.

Lemma populated_set_cell (n : nat) (m : Matrix) (r c : nat) (d : Q) :
  populated n m -> populated n (set_cell m r c (Some d)).
Proof.
  intros H i j Hi Hj.
  destruct (cell_set_cell m r c (Some d) i j) as [E | [_ [_ E]]]; rewrite E.
  - apply H; assumption.
  - exists d. reflexivity.
Qed.

Lemma populated_zeros (n : nat) : populated n (repeat (repeat (Some 0%Q) n) n).
Proof.
  intros i j Hi Hj. exists 0%Q. unfold cell.
  rewrite (nth_error_repeat _ Hi), (nth_error_repeat _ Hj). reflexivity.
Qed.

Lemma nth_error_indexed {A : Type} (l : list A) (i : nat) (a : A) :
  nth_error l i = Some a -> nth_error (indexed l) i = Some (i, a).
Proof.
  unfold indexed. intro H.
  enough (G : forall start,
             nth_error (combine (seq start (List.length l)) l) i = Some (start + i, a))
    by apply (G 0).
  revert i H. induction l as [|x l IH]; intros i H start.
  - destruct i; discriminate.
  - destruct i as [|i]; simpl in *.
    + inversion H. subst. f_equal. f_equal. lia.
    + rewrite (IH i H (S start)). f_equal. f_equal. lia.
Qed.

Lemma length_indexed {A : Type} (l : list A) : List.length (indexed l) = List.length l.
Proof.
  unfold indexed. rewrite length_combine, length_seq. apply Nat.min_id.
Qed.

Lemma traverse_length {A B : Type} (f : A -> option B) (l : list A) (ys : list B) :
  traverse f l = Some ys -> List.length ys = List.length l.
Proof.
  revert ys. induction l as [|x l IH]; intros ys H; simpl in H.
  - inversion H. reflexivity.
  - destruct (f x) as [y|]; [|discriminate].
    destruct (traverse f l) as [ys'|]; [|discriminate].
    inversion H. subst. simpl. f_equal. apply IH. reflexivity.
Qed.

Lemma traverse_nth_error {A B : Type} (f : A -> option B) (l : list A)
  (ys : list B) (i : nat) (y : B) :
  traverse f l = Some ys -> nth_error ys i = Some y ->
  exists x, nth_error l i = Some x /\ f x = Some y.
Proof.
  revert ys i. induction l as [|x l IH]; intros ys i H Hy; simpl in H.
  - inversion H. subst. destruct i; discriminate.
  - destruct (f x) as [y'|] eqn:Hx; [|discriminate].
    destruct (traverse f l) as [ys'|] eqn:Hl; [|discriminate].
    inversion H. subst. destruct i as [|i]; simpl in *.
    + inversion Hy. subst. exists x. auto.
    + apply (IH ys' i eq_refl Hy).
Qed.

Lemma chunk_rows (origins destinations : list Stop) (chunk : list (list Q)) :
  well_shaped ->
  getDistanceMatrixChunk origins destinations = Some chunk ->
  List.length origins <= List.length chunk
  /\ Forall (fun row => List.length destinations <= List.length row) chunk.
Proof.
  intros Hws H. unfold getDistanceMatrixChunk in H.
  destruct (distanceMatrixApi origins destinations) as [rows|] eqn:Hapi; [|discriminate].
  destruct (Hws _ _ _ Hapi) as [Hrows Hall].
  split.
  - rewrite (traverse_length _ _ _ H), length_indexed. exact Hrows.
  - apply Forall_forall. intros row Hin.
    apply In_nth_error in Hin. destruct Hin as [i Hi].
    destruct (traverse_nth_error _ _ _ i _ H Hi) as [[k elements] [Hk Hrow]].
    simpl in Hrow. rewrite (traverse_length _ _ _ Hrow), length_indexed.
    rewrite Forall_forall in Hall. apply Hall.
    unfold indexed in Hk. apply nth_error_In in Hk.
    apply in_combine_r in Hk. exact Hk.
Qed.

Lemma fill_chunk_populated (n : nat) (chunk : list (list Q))
  (i j n_origins n_destinations : nat) (m : Matrix) :
  Forall (fun row => n_destinations <= List.length row) chunk ->
  populated n m ->
  populated_or_thrown n (fill_chunk chunk i j n_origins n_destinations m).
Proof.
  intros Hrows Hm. unfold fill_chunk.
  assert (Hacc : populated_or_thrown n (Some m)) by exact Hm.
  revert Hacc. generalize (Some m) as acc.
  induction (seq 0 n_origins) as [|oi ois IH]; intros acc Hacc; simpl; [exact Hacc|].
  apply IH. clear IH.
  assert (Hdj : forall dj, In dj (seq 0 n_destinations) -> dj < n_destinations).
  { intros dj Hin. apply in_seq in Hin. lia. }
  revert acc Hacc Hdj.
  induction (seq 0 n_destinations) as [|dj djs IH]; intros acc Hacc Hdj; simpl;
    [exact Hacc|].
  apply IH; [|intros; apply Hdj; right; assumption].
  unfold fill_cell. destruct acc as [m'|]; [|exact I].
  destruct (nth_error chunk oi) as [row|] eqn:Hrow; [|exact I].
  assert (Hlen : n_destinations <= List.length row).
  { rewrite Forall_forall in Hrows. apply Hrows. apply (nth_error_In _ _ Hrow). }
  destruct (nth_error row dj) as [d|] eqn:Hd.
  - apply populated_set_cell. exact Hacc.
  - apply nth_error_None in Hd. specialize (Hdj dj (or_introl eq_refl)). lia.
Qed.

Lemma provider_matrix_populated (addresses : list Stop) :
  well_shaped ->
  populated_or_thrown (List.length addresses) (provider_matrix addresses).
Proof.
  intro Hws. unfold provider_matrix. cbv zeta.
  assert (Hacc : populated_or_thrown (List.length addresses)
                   (Some (repeat (repeat (Some 0%Q) (List.length addresses))
                                 (List.length addresses))))
    by apply populated_zeros.
  revert Hacc. generalize (Some (repeat (repeat (Some 0%Q) (List.length addresses))
                                        (List.length addresses))) as acc.
  induction (batches (List.length addresses)) as [|ij ijs IH]; intros acc Hacc; simpl;
    [exact Hacc|].
  apply IH. clear IH. unfold batch. destruct acc as [m|]; [|exact I].
  cbv zeta.
  destruct (getDistanceMatrixChunk _ _) as [chunk|] eqn:Hchunk; [|exact I].
  destruct (chunk_rows _ _ _ Hws Hchunk) as [_ Hrows].
  apply fill_chunk_populated; assumption.
Qed.

Lemma cell_buildHaversineMatrix (addresses : list Stop) (i j : nat) (a b : Stop) :
  nth_error addresses i = Some a -> nth_error addresses j = Some b ->
  cell (buildHaversineMatrix addresses) i j
  = Some (if i =? j then 0%Q else distanceBetween a b).
Proof.
  intros Ha Hb. unfold cell, buildHaversineMatrix.
  rewrite nth_error_map, (nth_error_indexed _ _ _ Ha). simpl.
  rewrite nth_error_map, (nth_error_indexed _ _ _ Hb). simpl.
  destruct (i =? j); reflexivity.
Qed.

Lemma buildHaversineMatrix_populated (addresses : list Stop) :
  populated (List.length addresses) (buildHaversineMatrix addresses).
Proof.
  intros i j Hi Hj.
  destruct (nth_error addresses i) as [a|] eqn:Ha;
    [|apply nth_error_None in Ha; lia].
  destruct (nth_error addresses j) as [b|] eqn:Hb;
    [|apply nth_error_None in Hb; lia].
  rewrite (cell_buildHaversineMatrix addresses i j a b Ha Hb). eexists. reflexivity.
Qed.

(** *** What a provider-backed matrix holds *)

Lemma length_set_at {A : Type} (p : nat) (v : A) (l : list A) :
  List.length (set_at p v l) = List.length l.
Proof.
  revert p. induction l as [|x l IH]; intro p; destruct p; simpl; auto.
Qed.

Lemma shaped_set_cell (n : nat) (m : Matrix) (r c : nat) (v : option Q) :
  shaped n m -> shaped n (set_cell m r c v).
Proof.
  intros [Hlen Hrows]. unfold set_cell.
  destruct (nth_error m r) as [row|] eqn:Hr; [|split; assumption].
  split; [rewrite length_set_at; exact Hlen|].
  apply Forall_forall. intros row' Hin.
  apply In_nth_error in Hin. destruct Hin as [q Hq].
  rewrite nth_error_set_at in Hq. rewrite Forall_forall in Hrows.
  destruct (q =? r).
  - rewrite Hr in Hq. simpl in Hq. inversion Hq. subst row'.
    rewrite length_set_at. apply Hrows. apply (nth_error_In _ _ Hr).
  - apply Hrows. apply (nth_error_In _ _ Hq).
Qed.

Lemma cell_set_cell_same (n : nat) (m : Matrix) (r c : nat) (v : option Q) :
  shaped n m -> r < n -> c < n -> cell (set_cell m r c v) r c = v.
Proof.
  intros [Hlen Hrows] Hr Hc. unfold set_cell, cell.
  destruct (nth_error m r) as [row|] eqn:Er;
    [|apply nth_error_None in Er; lia].
  rewrite nth_error_set_at, Nat.eqb_refl, Er. simpl.
  rewrite nth_error_set_at, Nat.eqb_refl.
  rewrite Forall_forall in Hrows.
  pose proof (Hrows row (nth_error_In _ _ Er)) as Hrow.
  destruct (nth_error row c) as [old|] eqn:Ec;
    [|apply nth_error_None in Ec; lia].
  destruct v; reflexivity.
Qed.

Lemma cell_set_cell_other (m : Matrix) (r c : nat) (v : option Q) (i j : nat) :
  i <> r \/ j <> c -> cell (set_cell m r c v) i j = cell m i j.
Proof.
  intro H. destruct (cell_set_cell m r c v i j) as [E | [Hi [Hj _]]];
    [exact E|lia].
Qed.

Lemma shaped_zeros (n : nat) : shaped n (repeat (repeat (Some 0%Q) n) n).
Proof.
  split; [apply repeat_length|].
  apply Forall_forall. intros row Hin. apply repeat_spec in Hin. subst row.
  apply repeat_length.
Qed.

Lemma fill_cell_thrown (chunk : list (list Q)) (i j oi : nat) (djs : list nat) :
  fold_left (fill_cell chunk i j oi) djs None = None.
Proof. apply fold_left_none. reflexivity. Qed.

(** Case analysis on the comparisons of a goal. *)
Ltac split_comparisons :=
  repeat match goal with
         | |- context [?a <=? ?b] => destruct (Nat.leb_spec a b)
         | |- context [?a <? ?b] => destruct (Nat.ltb_spec a b)
         | |- context [?a =? ?b] => destruct (Nat.eqb_spec a b)
         end;
  cbn [andb]; first [reflexivity | exfalso; lia | idtac].

(** The inner loop over [dj < k]: it writes the cells of row [i + oi] in the
    columns [j .. j + k - 1]. *)
Lemma fill_row_cells (n : nat) (chunk : list (list Q)) (i j oi k : nat)
  (m : Matrix) :
  shaped n m -> i + oi < n -> j + k <= n ->
  unless_thrown (fold_left (fill_cell chunk i j oi) (seq 0 k) (Some m))
    (fun m' =>
       shaped n m'
       /\ forall r c,
            cell m' r c
            = if (r =? i + oi) && (j <=? c) && (c <? j + k)
              then chunk_value chunk oi (c - j)
              else cell m r c).
Proof.
  intros Hm Hoi. induction k as [|k IH]; intro Hk.
  - simpl. split; [exact Hm|]. intros r c. split_comparisons.
  - rewrite seq_S, fold_left_app. simpl.
    specialize (IH ltac:(lia)).
    destruct (fold_left (fill_cell chunk i j oi) (seq 0 k) (Some m)) as [m1|];
      [|exact I].
    destruct IH as [Hm1 Hcells]. unfold fill_cell.
    destruct (nth_error chunk oi) as [row|] eqn:Hrow; [|exact I].
    simpl. split; [apply shaped_set_cell; exact Hm1|].
    intros r c.
    destruct (Nat.eq_dec r (i + oi)) as [Er|Er];
      [destruct (Nat.eq_dec c (j + k)) as [Ec|Ec]|].
    + subst r c.
      rewrite (cell_set_cell_same n) by (assumption || lia).
      unfold chunk_value. rewrite Hrow.
      replace (j + k - j) with k by lia. split_comparisons.
    + rewrite cell_set_cell_other by (right; exact Ec).
      rewrite Hcells. split_comparisons.
    + rewrite cell_set_cell_other by (left; exact Er).
      rewrite Hcells. split_comparisons.
Qed.

(** The two loops over a chunk: they write the block of the batch. *)
Lemma fill_chunk_cells (n : nat) (chunk : list (list Q))
  (i j n_origins n_destinations : nat) (m : Matrix) :
  shaped n m -> i + n_origins <= n -> j + n_destinations <= n ->
  unless_thrown (fill_chunk chunk i j n_origins n_destinations m)
    (fun m' =>
       shaped n m'
       /\ forall r c,
            cell m' r c
            = if (i <=? r) && (r <? i + n_origins)
                 && (j <=? c) && (c <? j + n_destinations)
              then chunk_value chunk (r - i) (c - j)
              else cell m r c).
Proof.
  intros Hm Hno Hnd. unfold fill_chunk. revert Hno.
  induction n_origins as [|k IH]; intro Hno.
  - simpl. split; [exact Hm|]. intros r c. split_comparisons.
  - rewrite seq_S, fold_left_app. simpl.
    specialize (IH ltac:(lia)).
    destruct (fold_left _ (seq 0 k) (Some m)) as [m1|];
      [|rewrite fill_cell_thrown; exact I].
    destruct IH as [Hm1 Hcells].
    pose proof (fill_row_cells n chunk i j k n_destinations m1 Hm1
                  ltac:(lia) Hnd) as Hrow.
    destruct (fold_left (fill_cell chunk i j k) (seq 0 n_destinations) (Some m1))
      as [m2|]; [|exact I].
    destruct Hrow as [Hm2 Hcells2]. split; [exact Hm2|].
    intros r c. rewrite Hcells2, Hcells.
    split_comparisons; subst; replace (i + k - i) with k by lia; reflexivity.
Qed.

Lemma block_start (k i : nat) :
  k * chunkSize <= i < k * chunkSize + chunkSize ->
  i / chunkSize * chunkSize = k * chunkSize.
Proof.
  intro H. f_equal. symmetry.
  apply (Nat.div_unique i chunkSize k (i - k * chunkSize)); unfold chunkSize in *; lia.
Qed.

Lemma block_bounds (i : nat) :
  i / chunkSize * chunkSize <= i < i / chunkSize * chunkSize + chunkSize.
Proof.
  pose proof (Nat.div_mod_eq i chunkSize) as E.
  pose proof (Nat.mod_upper_bound i chunkSize ltac:(discriminate)) as U.
  unfold chunkSize in *. lia.
Qed.

Lemma length_batch_slice (addresses : list Stop) (b : nat) :
  b < List.length addresses ->
  List.length (slice b (Nat.min (b + chunkSize) (List.length addresses)) addresses)
  = Nat.min chunkSize (List.length addresses - b).
Proof.
  intro H. unfold slice. rewrite length_firstn, length_skipn. lia.
Qed.

Lemma batch_filled (addresses : list Stop) (done : nat * nat -> Prop)
  (m : Matrix) (b : nat * nat) :
  batch_start (List.length addresses) (fst b) ->
  batch_start (List.length addresses) (snd b) ->
  filled addresses done m ->
  unless_thrown (batch addresses (Some m) b)
    (filled addresses (fun x => x = b \/ done x)).
Proof.
  intros [ki [Ebi Hbi]] [kj [Ebj Hbj]] [Hm Hcells].
  destruct b as [bi bj]. cbn [fst snd] in *. unfold batch. cbv zeta. cbn [fst snd].
  set (n := List.length addresses) in *.
  destruct (getDistanceMatrixChunk _ _) as [chunk|] eqn:Hchunk; [|exact I].
  pose proof (length_batch_slice addresses bi Hbi) as Lo.
  pose proof (length_batch_slice addresses bj Hbj) as Ld.
  fold n in Lo, Ld.
  pose proof (fill_chunk_cells n chunk bi bj
                (List.length (slice bi (Nat.min (bi + chunkSize) n) addresses))
                (List.length (slice bj (Nat.min (bj + chunkSize) n) addresses))
                m Hm ltac:(lia) ltac:(lia)) as Hfill.
  destruct (fill_chunk _ _ _ _ _ _) as [m'|]; [|exact I].
  destruct Hfill as [Hm' Hcells']. split; [exact Hm'|].
  intros i j Hi Hj Hdone. rewrite Hcells'. rewrite Lo, Ld.
  pose proof (block_bounds i) as Bi. pose proof (block_bounds j) as Bj.
  destruct (Nat.leb_spec bi i) as [H1|H1];
    [destruct (Nat.ltb_spec i (bi + Nat.min chunkSize (n - bi))) as [H2|H2];
     [destruct (Nat.leb_spec bj j) as [H3|H3];
      [destruct (Nat.ltb_spec j (bj + Nat.min chunkSize (n - bj))) as [H4|H4]|]|]|];
    cbn [andb].
  1:{ assert (Eb : block_of i j = (bi, bj)).
      { unfold block_of. subst bi bj.
        rewrite (block_start ki i), (block_start kj j) by lia. reflexivity. }
      unfold expected. rewrite Eb. cbn [fst snd].
      unfold batch_origins, batch_destinations. cbn [fst snd]. fold n.
      rewrite Hchunk. reflexivity. }
  all: apply Hcells; try assumption;
    destruct Hdone as [Eb|Hdone]; [|exact Hdone];
    exfalso; unfold block_of in Eb; apply pair_equal_spec in Eb;
    destruct Eb as [E1 E2]; unfold chunkSize, n in *; lia.
Qed.

Lemma batches_filled (addresses : list Stop) (bs : list (nat * nat))
  (done : nat * nat -> Prop) (acc : option Matrix) :
  (forall b, In b bs ->
     batch_start (List.length addresses) (fst b)
     /\ batch_start (List.length addresses) (snd b)) ->
  unless_thrown acc (filled addresses done) ->
  unless_thrown (fold_left (batch addresses) bs acc)
    (filled addresses (fun x => In x bs \/ done x)).
Proof.
  revert done acc. induction bs as [|b bs IH]; intros done acc Hvalid Hacc.
  - simpl. destruct acc as [m|]; [|exact I]. destruct Hacc as [Hm Hcells].
    split; [exact Hm|]. intros i j Hi Hj [[]|Hd]. apply Hcells; assumption.
  - simpl fold_left.
    assert (Hstep : unless_thrown (batch addresses acc b)
                      (filled addresses (fun x => x = b \/ done x))).
    { destruct acc as [m|]; [|exact I].
      destruct (Hvalid b (or_introl eq_refl)) as [V1 V2].
      apply batch_filled; assumption. }
    specialize (IH (fun x => x = b \/ done x) (batch addresses acc b)
                  (fun b' Hb' => Hvalid b' (or_intror Hb')) Hstep).
    destruct (fold_left (batch addresses) bs (batch addresses acc b)) as [m'|];
      [|exact I].
    destruct IH as [Hm Hcells]. split; [exact Hm|].
    intros i j Hi Hj Hd. apply Hcells; try assumption.
    destruct Hd as [[E|Hin]|Hd]; auto.
Qed.

Lemma chunk_starts_spec (n b : nat) :
  In b (chunk_starts n) <-> batch_start n b.
Proof.
  unfold chunk_starts, batch_start. rewrite in_map_iff.
  pose proof (Nat.div_mod_eq (n + (chunkSize - 1)) chunkSize) as E.
  pose proof (Nat.mod_upper_bound (n + (chunkSize - 1)) chunkSize ltac:(discriminate)) as U.
  split.
  - intros [k [<- Hk]]. apply in_seq in Hk. exists k. split; [reflexivity|].
    unfold chunkSize in *. lia.
  - intros [k [-> Hk]]. exists k. split; [reflexivity|].
    apply in_seq. unfold chunkSize in *. lia.
Qed.

Lemma batches_spec (n : nat) (b : nat * nat) :
  In b (batches n) <-> batch_start n (fst b) /\ batch_start n (snd b).
Proof.
  unfold batches. rewrite in_flat_map. split.
  - intros [i [Hi Hb]]. apply in_map_iff in Hb. destruct Hb as [j [<- Hj]].
    cbn [fst snd]. split; apply chunk_starts_spec; assumption.
  - intros [Hi Hj]. exists (fst b). split; [apply chunk_starts_spec; exact Hi|].
    apply in_map_iff. exists (snd b). split; [destruct b; reflexivity|].
    apply chunk_starts_spec. exact Hj.
Qed.

Lemma block_of_batches (n i j : nat) :
  i < n -> j < n -> In (block_of i j) (batches n).
Proof.
  intros Hi Hj. apply batches_spec. unfold block_of. cbn [fst snd].
  pose proof (block_bounds i). pose proof (block_bounds j).
  split; eexists; (split; [reflexivity|lia]).
Qed.

(** Every cell of a provider-backed matrix holds the value of its chunk. *)
Lemma provider_matrix_expected (addresses : list Stop) (m : Matrix) :
  provider_matrix addresses = Some m ->
  forall i j, i < List.length addresses -> j < List.length addresses ->
    cell m i j = expected addresses i j.
Proof.
  intros H i j Hi Hj. unfold provider_matrix in H. cbv zeta in H.
  pose proof (batches_filled addresses (batches (List.length addresses))
                (fun _ => False)
                (Some (repeat (repeat (Some 0%Q) (List.length addresses))
                              (List.length addresses)))) as F.
  rewrite H in F. destruct F as [_ Hcells].
  - intros b Hb. apply batches_spec. exact Hb.
  - split; [apply shaped_zeros|]. intros ? ? _ _ [].
  - apply Hcells; try assumption. left. apply block_of_batches; assumption.
Qed.

Lemma traverse_nth {A B : Type} (f : A -> option B) (l : list A) (ys : list B)
  (i : nat) :
  traverse f l = Some ys ->
  nth_error ys i = match nth_error l i with
                   | Some x => f x
                   | None => None
                   end.
Proof.
  revert ys i. induction l as [|x l IH]; intros ys i H; simpl in H.
  - inversion H. destruct i; reflexivity.
  - destruct (f x) as [y|] eqn:Hx; [|discriminate].
    destruct (traverse f l) as [ys'|] eqn:Hl; [|discriminate].
    inversion H. subst. destruct i as [|i]; simpl.
    + symmetry. exact Hx.
    + apply IH. reflexivity.
Qed.

Lemma nth_error_indexed_map {A : Type} (l : list A) (i : nat) :
  nth_error (indexed l) i = option_map (pair i) (nth_error l i).
Proof.
  destruct (nth_error l i) as [a|] eqn:H.
  - apply nth_error_indexed. exact H.
  - simpl. apply nth_error_None. rewrite length_indexed.
    apply nth_error_None. exact H.
Qed.

Lemma nth_error_batch_slice (addresses : list Stop) (i : nat) :
  i < List.length addresses ->
  nth_error
    (slice (i / chunkSize * chunkSize)
       (Nat.min (i / chunkSize * chunkSize + chunkSize) (List.length addresses))
       addresses)
    (i - i / chunkSize * chunkSize)
  = nth_error addresses i.
Proof.
  intro Hi. pose proof (block_bounds i) as B. unfold slice.
  rewrite nth_error_firstn, nth_error_skipn.
  replace (i / chunkSize * chunkSize + (i - i / chunkSize * chunkSize)) with i by lia.
  destruct (Nat.ltb_spec (i - i / chunkSize * chunkSize)
              (Nat.min (i / chunkSize * chunkSize + chunkSize) (List.length addresses)
               - i / chunkSize * chunkSize)); [reflexivity|lia].
Qed.

Lemma chunk_value_reported (origins destinations : list Stop)
  (rows : response) (chunk : list (list Q)) (oi dj : nat) (a b : Stop) :
  distanceMatrixApi origins destinations = Some rows ->
  getDistanceMatrixChunk origins destinations = Some chunk ->
  nth_error origins oi = Some a -> nth_error destinations dj = Some b ->
  chunk_value chunk oi dj
  = option_map (reported_value a b)
      match nth_error rows oi with
      | Some elements => nth_error elements dj
      | None => None
      end.
Proof.
  intros Hapi Hchunk Ha Hb. unfold getDistanceMatrixChunk in Hchunk.
  rewrite Hapi in Hchunk. unfold chunk_value.
  pose proof (traverse_nth _ _ _ oi Hchunk) as Hoi.
  rewrite nth_error_indexed_map in Hoi. rewrite Hoi.
  destruct (nth_error rows oi) as [elements|] eqn:Hrows; [|reflexivity].
  cbn [option_map fst snd] in *.
  destruct (traverse _ (indexed elements)) as [row|] eqn:Hrow.
  2:{ exfalso. apply nth_error_None in Hoi.
      rewrite (traverse_length _ _ _ Hchunk), length_indexed in Hoi.
      assert (oi < List.length rows) by (apply nth_error_Some; rewrite Hrows; discriminate).
      lia. }
  rewrite (traverse_nth _ _ _ dj Hrow), nth_error_indexed_map.
  destruct (nth_error elements dj) as [e|]; [|reflexivity].
  cbn [option_map]. unfold chunk_cell. cbn [fst snd].
  destruct e; [reflexivity|]. rewrite Ha, Hb. reflexivity.
Qed.

(** When nothing throws, the matrix holds in each cell what the service
    reported for the pair, and [undefined] where the response has no
    element. *)
Lemma provider_matrix_reported (addresses : list Stop) (m : Matrix)
  (i j : nat) (a b : Stop) :
  provider_matrix addresses = Some m ->
  nth_error addresses i = Some a -> nth_error addresses j = Some b ->
  cell m i j = option_map (reported_value a b) (element_for addresses i j).
Proof.
  intros Hm Ha Hb.
  assert (Hi : i < List.length addresses)
    by (apply nth_error_Some; rewrite Ha; discriminate).
  assert (Hj : j < List.length addresses)
    by (apply nth_error_Some; rewrite Hb; discriminate).
  rewrite (provider_matrix_expected addresses m Hm i j Hi Hj).
  unfold expected, element_for.
  destruct (getDistanceMatrixChunk _ _) as [chunk|] eqn:Hchunk.
  - pose proof Hchunk as Hchunk'. unfold getDistanceMatrixChunk in Hchunk'.
    destruct (distanceMatrixApi _ _) as [rows|] eqn:Hapi; [|discriminate].
    apply (chunk_value_reported _ _ rows chunk _ _ a b Hapi Hchunk).
    + unfold batch_origins, block_of. cbn [fst snd].
      rewrite nth_error_batch_slice by exact Hi. exact Ha.
    + unfold batch_destinations, block_of. cbn [fst snd].
      rewrite nth_error_batch_slice by exact Hj. exact Hb.
  - exfalso. unfold provider_matrix in Hm. cbv zeta in Hm.
    rewrite (batches_throw addresses _ _ (block_of i j)
               (block_of_batches _ i j Hi Hj) Hchunk) in Hm.
    discriminate.
Qed.

(** C3 (amended). A matrix built geometrically -- no API key, or something
    thrown while the provider was used -- is [buildHaversineMatrix], whose
    cell [(i, j)] is 0 on the diagonal and the haversine distance elsewhere.
    A provider-backed matrix holds in each cell, the diagonal included, what
    the provider reported for the pair (the geometric distance when the
    element is not OK), and [undefined] where the response has no element.
    When every response carries a row per origin and an element per
    destination, every cell of every built matrix holds a number. *)
Theorem buildDistanceMatrix_cells (this : RouteOptimizer) (addresses : list Stop) :
  (forall i j a b,
      nth_error addresses i = Some a -> nth_error addresses j = Some b ->
      cell (buildHaversineMatrix addresses) i j
      = Some (if i =? j then 0%Q else distanceBetween a b))
  /\ (googleMapsApiKey this = "" \/ provider_matrix addresses = None ->
      buildDistanceMatrix this addresses = buildHaversineMatrix addresses)
  /\ (forall m i j a b,
      googleMapsApiKey this <> "" -> provider_matrix addresses = Some m ->
      nth_error addresses i = Some a -> nth_error addresses j = Some b ->
      cell (buildDistanceMatrix this addresses) i j
      = option_map (reported_value a b) (element_for addresses i j))
  /\ (well_shaped ->
      populated (List.length addresses) (buildDistanceMatrix this addresses)).
Proof.
  split; [|split; [|split]].
  - intros i j a b. apply cell_buildHaversineMatrix.
  - intros [Hkey | Hthrown]; unfold buildDistanceMatrix.
    + rewrite Hkey. reflexivity.
    + rewrite Hthrown. destruct (String.eqb _ _); reflexivity.
  - intros m i j a b Hkey Hm Ha Hb. unfold buildDistanceMatrix.
    apply String.eqb_neq in Hkey. rewrite Hkey, Hm.
    apply provider_matrix_reported; assumption.
  - intro Hws. unfold buildDistanceMatrix.
    destruct (String.eqb _ _); [apply buildHaversineMatrix_populated|].
    pose proof (provider_matrix_populated addresses Hws) as H.
    destruct (provider_matrix addresses) as [m|].
    + exact H.
    + apply buildHaversineMatrix_populated.
Qed.

(** *** A failing request *)

Lemma fill_chunk_missing_row (chunk : list (list Q))
  (i j n_origins n_destinations : nat) (m : Matrix) :
  List.length chunk < n_origins -> 0 < n_destinations ->
  fill_chunk chunk i j n_origins n_destinations m = None.
Proof.
  intros Hrows Hd. unfold fill_chunk.
  assert (Hin : In (List.length chunk) (seq 0 n_origins)) by (apply in_seq; lia).
  apply in_split in Hin. destruct Hin as [l1 [l2 Hs]]. rewrite Hs.
  rewrite fold_left_app. cbn [fold_left].
  generalize (fold_left
                (fun acc oi => fold_left (fill_cell chunk i j oi) (seq 0 n_destinations) acc)
                l1 (Some m)) as acc.
  intro acc.
  assert (Hthrow : fold_left (fill_cell chunk i j (List.length chunk))
                     (seq 0 n_destinations) acc = None).
  { destruct n_destinations as [|n]; [lia|]. cbn [seq fold_left].
    assert (E : fill_cell chunk i j (List.length chunk) acc 0 = None).
    { unfold fill_cell. destruct acc as [m'|]; [|reflexivity].
      assert (Hnone : nth_error chunk (List.length chunk) = None)
        by (apply nth_error_None; apply Nat.le_refl).
      rewrite Hnone. reflexivity. }
    rewrite E. apply fill_cell_thrown. }
  rewrite Hthrow. apply fold_left_none. intro oi. apply fill_cell_thrown.
Qed.

Lemma length_getDistanceMatrixChunk (origins destinations : list Stop)
  (rows : response) (chunk : list (list Q)) :
  distanceMatrixApi origins destinations = Some rows ->
  getDistanceMatrixChunk origins destinations = Some chunk ->
  List.length chunk = List.length rows.
Proof.
  intros Hapi H. unfold getDistanceMatrixChunk in H. rewrite Hapi in H.
  rewrite (traverse_length _ _ _ H). apply length_indexed.
Qed.

Lemma batch_request_failed (addresses : list Stop) (acc : option Matrix)
  (ij : nat * nat) :
  In ij (batches (List.length addresses)) ->
  request_failed (batch_origins addresses ij) (batch_destinations addresses ij) ->
  batch addresses acc ij = None.
Proof.
  intros Hin Hfail. unfold request_failed in Hfail.
  destruct (distanceMatrixApi (batch_origins addresses ij)
              (batch_destinations addresses ij)) as [rows|] eqn:Hapi.
  2:{ apply batch_throws. apply request_failure_throws. exact Hapi. }
  destruct (getDistanceMatrixChunk (batch_origins addresses ij)
              (batch_destinations addresses ij)) as [chunk|] eqn:Hchunk.
  2:{ apply batch_throws. exact Hchunk. }
  pose proof (length_getDistanceMatrixChunk _ _ _ _ Hapi Hchunk) as Hlen.
  unfold batch. destruct acc as [m|]; [|reflexivity]. cbv zeta.
  unfold batch_origins, batch_destinations in Hchunk, Hfail.
  rewrite Hchunk. apply fill_chunk_missing_row; [lia|].
  apply batches_spec in Hin. destruct Hin as [_ [k [Hk Hlt]]].
  rewrite length_batch_slice by exact Hlt. unfold chunkSize. lia.
Qed.

Lemma batches_request_failed (addresses : list Stop) (l : list (nat * nat))
  (acc : option Matrix) (ij : nat * nat) :
  In ij l ->
  (forall acc', batch addresses acc' ij = None) ->
  fold_left (batch addresses) l acc = None.
Proof.
  intros Hin H. apply in_split in Hin. destruct Hin as [l1 [l2 ->]].
  rewrite fold_left_app. cbn [fold_left]. rewrite H.
  apply fold_left_none. reflexivity.
Qed.

(** C4. When the request of any batch fails ([axios.get] or the reading of
    the body throws, or the body carries fewer rows than origins were sent),
    [buildDistanceMatrix] returns the matrix [buildHaversineMatrix] builds
    from the addresses alone, and every cell of what it returns is geometric:
    [0] on the diagonal and the [calculateDistance] of the two stops
    elsewhere, also in the cells that earlier batches had filled with the
    provider's values. The failure is absorbed: the builder returns a matrix
    in every case. *)
Theorem buildDistanceMatrix_request_failure
  (this : RouteOptimizer) (addresses : list Stop) (ij : nat * nat) :
  In ij (batches (List.length addresses)) ->
  request_failed (batch_origins addresses ij) (batch_destinations addresses ij) ->
  buildDistanceMatrix this addresses = buildHaversineMatrix addresses
  /\ forall i j a b,
       nth_error addresses i = Some a -> nth_error addresses j = Some b ->
       cell (buildDistanceMatrix this addresses) i j
       = Some (if i =? j then 0%Q else distanceBetween a b).
Proof.
  intros Hin Hfail.
  assert (E : buildDistanceMatrix this addresses = buildHaversineMatrix addresses).
  { unfold buildDistanceMatrix.
    destruct (String.eqb (googleMapsApiKey this) ""); [reflexivity|].
    unfold provider_matrix. cbv zeta.
    rewrite (batches_request_failed addresses _ _ ij Hin); [reflexivity|].
    intro acc'. apply batch_request_failed; assumption. }
  split; [exact E|].
  intros i j a b Ha Hb. rewrite E. apply cell_buildHaversineMatrix; assumption.
Qed.

(** ** Route metrics *)

Lemma metrics_from_fold (total time : Q) (route : list Address) :
  metrics_from total time route
  = mkRouteMetrics
      (fold_left Qplus (map edgeDistance (edges route)) total)
      (fold_left Qplus (map edgeTime (edges route)) time).
Proof.
  revert total time. induction route as [|a route IH]; intros total time.
  - reflexivity.
  - destruct route as [|b route]; [reflexivity|].
    change (metrics_from total time (a :: b :: route))
      with (metrics_from (total + distanceBetween a b)%Q
              (time + (distanceBetween a b / 40 * 60 + 5))%Q (b :: route)).
    rewrite IH. reflexivity.
Qed.

Lemma fold_left_Qplus_acc (l : list Q) (acc : Q) :
  (fold_left Qplus l acc == acc + sumQ l)%Q.
Proof.
  unfold sumQ. revert acc. induction l as [|x l IH]; intro acc; simpl.
  - lra.
  - rewrite (IH (acc + x)%Q), (IH (0 + x)%Q).
    generalize (fold_left Qplus l 0%Q). intro s. lra.
Qed.

Lemma sumQ_cons (x : Q) (l : list Q) : (sumQ (x :: l) == x + sumQ l)%Q.
Proof.
  unfold sumQ at 1. simpl. rewrite fold_left_Qplus_acc. lra.
Qed.

Lemma sumQ_edgeTime (es : list (Address * Address)) :
  (sumQ (map edgeTime es)
   == sumQ (map edgeDistance es) / 40 * 60
      + 5 * inject_Z (Z.of_nat (List.length es)))%Q.
Proof.
  induction es as [|e es IH].
  - unfold sumQ. simpl. field.
  - cbn [map List.length]. rewrite !sumQ_cons, IH.
    rewrite Nat2Z.inj_succ, <- Z.add_1_r, inject_Z_plus.
    unfold edgeTime. simpl (inject_Z 1). field.
Qed.

(** C8 (amended). [calculateRouteMetrics] never consults a distance matrix:
    [totalDistance] is the sum of the haversine distances of the consecutive
    pairs of the route, and [estimatedTime] is the sum over the same pairs of
    [distance / 40 * 60 + 5] minutes, that is the travel time at 40 km/h plus
    5 minutes for each edge. *)
Theorem calculateRouteMetrics_geometric (route : list Address) :
  totalDistance (calculateRouteMetrics route)
    = fold_left Qplus (map edgeDistance (edges route)) 0%Q
  /\ estimatedTime (calculateRouteMetrics route)
    = fold_left Qplus (map edgeTime (edges route)) 0%Q
  /\ (estimatedTime (calculateRouteMetrics route)
      == totalDistance (calculateRouteMetrics route) / 40 * 60
         + 5 * inject_Z (Z.of_nat (List.length route - 1)))%Q.
Proof.
  unfold calculateRouteMetrics. rewrite metrics_from_fold. simpl.
  split; [reflexivity|]. split; [reflexivity|].
  fold (sumQ (map edgeTime (edges route))).
  fold (sumQ (map edgeDistance (edges route))).
  rewrite sumQ_edgeTime.
  replace (List.length (edges route)) with (List.length route - 1); [reflexivity|].
  unfold edges. rewrite length_combine. destruct route; cbn [tl List.length]; lia.
Qed.

(** ** Local search *)

Section LocalSearch.

Variable this : RouteOptimizer.
Variable matrix : Matrix.

Lemma total_from_path_cost (total : Q) (route : list Stop) :
  (total_from this matrix total route == total + path_cost this matrix route)%Q.
Proof.
  revert total. induction route as [|a route IH]; intro total.
  - simpl. lra.
  - destruct route as [|b route]; [simpl; lra|].
    change (total_from this matrix total (a :: b :: route))
      with (total_from this matrix
              (total + getMatrixDistance this a b matrix)%Q (b :: route)).
    rewrite IH.
    change (path_cost this matrix (a :: b :: route))
      with (getMatrixDistance this a b matrix + path_cost this matrix (b :: route))%Q.
    lra.
Qed.

Lemma calculateTotalDistance_path_cost (route : list Stop) :
  (calculateTotalDistance this route (Some matrix) == path_cost this matrix route)%Q.
Proof.
  unfold calculateTotalDistance, calculateTotalDistanceWithMatrix.
  rewrite total_from_path_cost. lra.
Qed.

Lemma path_cost_cons2 (a b : Stop) (l : list Stop) :
  path_cost this matrix (a :: b :: l)
  = (getMatrixDistance this a b matrix + path_cost this matrix (b :: l))%Q.
Proof. reflexivity. Qed.

Lemma path_cost_app (l1 : list Stop) (a : Stop) (l2 : list Stop) :
  (path_cost this matrix (l1 ++ a :: l2) == path_cost this matrix (l1 ++ [a]) + path_cost this matrix (a :: l2))%Q.
Proof.
  induction l1 as [|x l1 IH].
  - simpl app. change (path_cost this matrix [a]) with 0%Q. lra.
  - destruct l1 as [|y l1].
    + simpl app. rewrite !path_cost_cons2. change (path_cost this matrix [a]) with 0%Q. lra.
    + simpl app in *. rewrite !path_cost_cons2. rewrite IH. lra.
Qed.

Lemma symmetric_on_incl (l l' : list Stop) :
  (forall x, In x l' -> In x l) -> symmetric_on this matrix l -> symmetric_on this matrix l'.
Proof.
  intros Hincl Hsym a b Ha Hb. apply Hsym; apply Hincl; assumption.
Qed.

Lemma path_cost_rev (l : list Stop) :
  symmetric_on this matrix l -> (path_cost this matrix (rev l) == path_cost this matrix l)%Q.
Proof.
  induction l as [|a l IH]; intro Hsym.
  - reflexivity.
  - destruct l as [|b l].
    + reflexivity.
    + assert (Hsym' : symmetric_on this matrix (b :: l)).
      { apply (symmetric_on_incl (a :: b :: l)); [|exact Hsym].
        intros x Hx. right. exact Hx. }
      specialize (IH Hsym').
      change (rev (a :: b :: l)) with ((rev l ++ [b]) ++ [a]).
      rewrite <- app_assoc. simpl app.
      rewrite path_cost_app.
      change (rev l ++ [b]) with (rev (b :: l)).
      rewrite IH, !path_cost_cons2.
      change (path_cost this matrix [a]) with 0%Q.
      pose proof (Hsym a b (or_introl eq_refl) (or_intror (or_introl eq_refl))).
      lra.
Qed.

(** The route around a segment [b .. c] that sits between [a] and [d]. *)
Lemma path_cost_segment (pre : list Stop) (a : Stop) (seg : list Stop)
  (b c d : Stop) (mid post : list Stop) :
  seg = b :: mid ++ [c] ->
  (path_cost this matrix (pre ++ a :: seg ++ d :: post)
   == path_cost this matrix (pre ++ [a]) + getMatrixDistance this a b matrix
      + path_cost this matrix seg + getMatrixDistance this c d matrix
      + path_cost this matrix (d :: post))%Q.
Proof.
  intros ->.
  pose proof (path_cost_app pre a ((b :: mid ++ [c]) ++ d :: post)) as H1.
  assert (H2 : path_cost this matrix (a :: (b :: mid ++ [c]) ++ d :: post)
               = (getMatrixDistance this a b matrix
                  + path_cost this matrix ((b :: mid ++ [c]) ++ d :: post))%Q) by reflexivity.
  assert (E : (b :: mid ++ [c]) ++ d :: post = (b :: mid) ++ c :: d :: post)
    by (simpl; rewrite <- app_assoc; reflexivity).
  pose proof (path_cost_app (b :: mid) c (d :: post)) as H3.
  rewrite <- E in H3.
  assert (H4 : path_cost this matrix (c :: d :: post)
               = (getMatrixDistance this c d matrix + path_cost this matrix (d :: post))%Q)
    by reflexivity.
  change ((b :: mid) ++ [c]) with (b :: mid ++ [c]) in H3.
  rewrite H2 in H1. rewrite H4 in H3. lra.
Qed.

Lemma firstn_exact {A : Type} (l1 l2 : list A) :
  firstn (List.length l1) (l1 ++ l2) = l1.
Proof.
  induction l1 as [|x l1 IH]; simpl; [destruct l2; reflexivity|].
  rewrite IH. reflexivity.
Qed.

Lemma skipn_exact {A : Type} (l1 l2 : list A) :
  skipn (List.length l1) (l1 ++ l2) = l2.
Proof.
  induction l1 as [|x l1 IH]; simpl; [reflexivity|exact IH].
Qed.

Lemma nth_error_exact {A : Type} (l1 : list A) (x : A) (l2 : list A) :
  nth_error (l1 ++ x :: l2) (List.length l1) = Some x.
Proof.
  induction l1 as [|y l1 IH]; simpl; [reflexivity|exact IH].
Qed.

(** A route cut around the segment from position [i] to position [j]. *)
Lemma split_route (l : list Stop) (i j : nat) :
  1 <= i -> i < j -> j + 1 < List.length l ->
  exists pre a b mid c d post,
    l = pre ++ a :: (b :: mid ++ [c]) ++ d :: post
    /\ List.length pre = i - 1 /\ List.length mid = j - i - 1.
Proof.
  intros Hi Hij Hj.
  pose proof (firstn_skipn (i - 1) l) as E1.
  pose proof (length_firstn (i - 1) l) as L1.
  pose proof (length_skipn (i - 1) l) as L1'.
  destruct (skipn (i - 1) l) as [|a [|b r2]]; simpl in L1'; try lia.
  pose proof (firstn_skipn (j - i - 1) r2) as E2.
  pose proof (length_firstn (j - i - 1) r2) as L2.
  pose proof (length_skipn (j - i - 1) r2) as L2'.
  destruct (skipn (j - i - 1) r2) as [|c [|d post]]; simpl in L2'; try lia.
  exists (firstn (i - 1) l), a, b, (firstn (j - i - 1) r2), c, d, post.
  split; [|split; lia].
  rewrite <- E1 at 1. rewrite <- E2 at 1.
  simpl. rewrite <- app_assoc. reflexivity.
Qed.

Lemma split_route_items (pre : list Stop) (a b : Stop) (mid : list Stop)
  (c d : Stop) (post : list Stop) (i j : nat) :
  1 <= i -> i < j ->
  List.length pre = i - 1 -> List.length mid = j - i - 1 ->
  let l := pre ++ a :: (b :: mid ++ [c]) ++ d :: post in
  item l (i - 1) = Some a /\ item l i = Some b
  /\ item l j = Some c /\ item l (j + 1) = Some d
  /\ reverse_segment l i j = pre ++ a :: rev (b :: mid ++ [c]) ++ d :: post.
Proof.
  intros Hi Hij Lpre Lmid l. unfold item.
  assert (Ea : l = pre ++ a :: ((b :: mid ++ [c]) ++ d :: post)) by reflexivity.
  assert (Eb : l = (pre ++ [a]) ++ b :: ((mid ++ [c]) ++ d :: post)).
  { unfold l. rewrite <- app_assoc. reflexivity. }
  assert (Ec : l = (pre ++ a :: b :: mid) ++ c :: d :: post).
  { unfold l. simpl. rewrite <- !app_assoc. reflexivity. }
  assert (Ed : l = (pre ++ a :: b :: mid ++ [c]) ++ d :: post).
  { unfold l. simpl. rewrite <- !app_assoc. simpl. rewrite <- !app_assoc. reflexivity. }
  assert (Es : l = (pre ++ [a]) ++ (b :: mid ++ [c]) ++ d :: post).
  { unfold l. rewrite <- app_assoc. reflexivity. }
  assert (La : i - 1 = List.length pre) by lia.
  assert (Lb : i = List.length (pre ++ [a])) by (rewrite length_app; simpl; lia).
  assert (Lc : j = List.length (pre ++ a :: b :: mid))
    by (rewrite length_app; simpl; lia).
  assert (Ld : j + 1 = List.length (pre ++ a :: b :: mid ++ [c]))
    by (rewrite length_app; simpl; rewrite length_app; simpl; lia).
  assert (Ls : j + 1 - i = List.length (b :: mid ++ [c]))
    by (simpl; rewrite length_app; simpl; lia).
  repeat split.
  - rewrite Ea, La. apply nth_error_exact.
  - rewrite Eb, Lb. apply nth_error_exact.
  - rewrite Ec, Lc. apply nth_error_exact.
  - rewrite Ed, Ld. apply nth_error_exact.
  - unfold reverse_segment, slice. rewrite Nat.sub_0_r. simpl (skipn 0 l).
    rewrite Ls. rewrite Es at 1 2. rewrite Lb at 1 2.
    rewrite firstn_exact, skipn_exact, firstn_exact.
    rewrite Ed, Ld, skipn_exact.
    rewrite <- app_assoc. reflexivity.
Qed.

Lemma rev_segment (b : Stop) (mid : list Stop) (c : Stop) :
  rev (b :: mid ++ [c]) = c :: rev mid ++ [b].
Proof.
  simpl. rewrite rev_app_distr. reflexivity.
Qed.

(** One step of the 2-opt scan keeps the stops of the route, and does not
    lengthen the route when the lookups between its stops are symmetric. *)
Lemma two_opt_step_sound (state : list Stop * bool) (i j : nat) :
  1 <= i -> i < j ->
  Permutation (fst (two_opt_step this matrix state (i, j))) (fst state)
  /\ (symmetric_on this matrix (fst state) ->
      (path_cost this matrix (fst (two_opt_step this matrix state (i, j)))
       <= path_cost this matrix (fst state))%Q).
Proof.
  intros Hi Hij. destruct state as [improved found]. unfold two_opt_step.
  assert (Hsame : Permutation improved improved
                  /\ (symmetric_on this matrix improved ->
                      (path_cost this matrix improved <= path_cost this matrix improved)%Q)).
  { split; [reflexivity|intros _; apply Qle_refl]. }
  destruct (item improved (i - 1)) as [a|] eqn:Ia; [|exact Hsame].
  destruct (item improved i) as [b|] eqn:Ib; [|exact Hsame].
  destruct (item improved j) as [c|] eqn:Ic; [|exact Hsame].
  destruct (item improved (j + 1)) as [d|] eqn:Id; [|exact Hsame].
  destruct (Qltb _ _) eqn:Hlt; [|exact Hsame].
  apply Qltb_lt in Hlt. cbn [fst].
  assert (Hlen : j + 1 < List.length improved).
  { apply nth_error_Some. unfold item in Id. rewrite Id. discriminate. }
  destruct (split_route improved i j Hi Hij Hlen)
    as [pre [a' [b' [mid [c' [d' [post [E [Lpre Lmid]]]]]]]]].
  destruct (split_route_items pre a' b' mid c' d' post i j Hi Hij Lpre Lmid)
    as [Ia' [Ib' [Ic' [Id' Erev]]]].
  rewrite <- E in Ia', Ib', Ic', Id', Erev.
  assert (a' = a) by congruence. assert (b' = b) by congruence.
  assert (c' = c) by congruence. assert (d' = d) by congruence.
  subst a' b' c' d'. rewrite Erev. clear Ia' Ib' Ic' Id' Erev.
  split.
  - rewrite E. apply Permutation_app_head. apply perm_skip.
    apply Permutation_app_tail. symmetry. apply Permutation_rev.
  - intro Hsym.
    assert (Hseg : symmetric_on this matrix (b :: mid ++ [c])).
    { apply (symmetric_on_incl improved); [|exact Hsym].
      intros x Hx. rewrite E. apply in_or_app. right. right.
      apply in_or_app. left. exact Hx. }
    rewrite (path_cost_segment pre a (rev (b :: mid ++ [c])) c b d (rev mid) post
               (rev_segment b mid c)).
    rewrite E.
    rewrite (path_cost_segment pre a (b :: mid ++ [c]) b c d mid post eq_refl).
    rewrite (path_cost_rev _ Hseg). lra.
Qed.

Lemma two_opt_pairs_valid (n i j : nat) :
  In (i, j) (two_opt_pairs n) -> 1 <= i /\ i < j.
Proof.
  unfold two_opt_pairs. intro H.
  apply in_flat_map in H. destruct H as [i' [Hi' H]].
  apply in_map_iff in H. destruct H as [j' [E Hj']].
  inversion E. subst. apply in_seq in Hi'. apply in_seq in Hj'. lia.
Qed.

Lemma symmetric_on_perm (l l' : list Stop) :
  Permutation l' l -> symmetric_on this matrix l -> symmetric_on this matrix l'.
Proof.
  intros Hp. apply symmetric_on_incl. intros x Hx.
  apply (Permutation_in _ Hp Hx).
Qed.

Lemma two_opt_fold_sound (pairs : list (nat * nat)) (state : list Stop * bool) :
  (forall i j, In (i, j) pairs -> 1 <= i /\ i < j) ->
  Permutation (fst (fold_left (two_opt_step this matrix) pairs state)) (fst state)
  /\ (symmetric_on this matrix (fst state) ->
      (path_cost this matrix (fst (fold_left (two_opt_step this matrix) pairs state))
       <= path_cost this matrix (fst state))%Q).
Proof.
  revert state. induction pairs as [|[i j] pairs IH]; intros state Hvalid.
  - simpl. split; [reflexivity|intros _; apply Qle_refl].
  - simpl fold_left.
    destruct (Hvalid i j (or_introl eq_refl)) as [Hi Hij].
    destruct (two_opt_step_sound state i j Hi Hij) as [Hp Hc].
    destruct (IH (two_opt_step this matrix state (i, j))) as [Hp' Hc'].
    { intros i' j' Hin. apply Hvalid. right. exact Hin. }
    split.
    + rewrite Hp'. exact Hp.
    + intro Hsym. eapply Qle_trans; [apply Hc'|apply Hc; exact Hsym].
      apply (symmetric_on_perm (fst state)); assumption.
Qed.

Lemma two_opt_pass_sound (improved : list Stop) :
  Permutation (fst (two_opt_pass this matrix improved)) improved
  /\ (symmetric_on this matrix improved ->
      (path_cost this matrix (fst (two_opt_pass this matrix improved)) <= path_cost this matrix improved)%Q).
Proof.
  unfold two_opt_pass.
  apply (two_opt_fold_sound (two_opt_pairs (List.length improved)) (improved, false)).
  intros i j. apply two_opt_pairs_valid.
Qed.

Lemma two_opt_loop_sound (fuel : nat) (improved : list Stop) :
  Permutation (two_opt_loop this matrix fuel improved) improved
  /\ (symmetric_on this matrix improved ->
      (path_cost this matrix (two_opt_loop this matrix fuel improved) <= path_cost this matrix improved)%Q).
Proof.
  revert improved. induction fuel as [|fuel IH]; intro improved; simpl.
  - split; [reflexivity|intros _; apply Qle_refl].
  - destruct (two_opt_pass_sound improved) as [Hp Hc].
    destruct (two_opt_pass this matrix improved) as [improved' found].
    cbn [fst] in *. destruct found.
    + destruct (IH improved') as [Hp' Hc']. split.
      * rewrite Hp'. exact Hp.
      * intro Hsym. eapply Qle_trans; [apply Hc'|apply Hc; exact Hsym].
        apply (symmetric_on_perm improved); assumption.
    + split; assumption.
Qed.

Lemma apply2OptImprovement_sound (route : list Stop) :
  Permutation (apply2OptImprovement this route matrix) route
  /\ (symmetric_on this matrix route ->
      (path_cost this matrix (apply2OptImprovement this route matrix) <= path_cost this matrix route)%Q).
Proof.
  unfold apply2OptImprovement. destruct (List.length route <? 4).
  - split; [reflexivity|intros _; apply Qle_refl].
  - apply two_opt_loop_sound.
Qed.

Lemma remove_at_perm {A : Type} (l : list A) (p : nat) (a : A) :
  nth_error l p = Some a -> Permutation (a :: remove_at p l) l.
Proof.
  intro H. unfold remove_at.
  rewrite <- (firstn_skipn p l) at 3.
  assert (E : skipn p l = a :: skipn (S p) l).
  { revert p H. induction l as [|x l IH]; intros p H.
    - destruct p; discriminate.
    - destruct p as [|p]; simpl in *.
      + inversion H. reflexivity.
      + apply IH. exact H. }
  rewrite E. apply Permutation_middle.
Qed.

Lemma or_opt_candidates_perm (improved newRoute : list Stop) :
  In newRoute (or_opt_candidates improved) -> Permutation newRoute improved.
Proof.
  unfold or_opt_candidates. intro H.
  apply in_flat_map in H. destruct H as [i [_ H]].
  destruct (item improved i) as [a|] eqn:Ia; [|destruct H].
  apply in_map_iff in H. destruct H as [j [<- _]].
  unfold slice. rewrite Nat.sub_0_r. simpl (skipn 0 _).
  rewrite <- Permutation_middle, firstn_skipn.
  apply remove_at_perm. exact Ia.
Qed.

Lemma or_opt_sweep_sound (improved newRoute : list Stop) :
  or_opt_sweep this matrix improved = Some newRoute ->
  Permutation newRoute improved
  /\ (path_cost this matrix newRoute < path_cost this matrix improved)%Q.
Proof.
  unfold or_opt_sweep. intro H. apply find_some in H. destruct H as [Hin Hlt].
  split.
  - apply or_opt_candidates_perm. exact Hin.
  - apply Qltb_lt in Hlt. rewrite !calculateTotalDistance_path_cost in Hlt. exact Hlt.
Qed.

Lemma or_opt_loop_sound (fuel : nat) (improved : list Stop) :
  Permutation (or_opt_loop this matrix fuel improved) improved
  /\ (path_cost this matrix (or_opt_loop this matrix fuel improved) <= path_cost this matrix improved)%Q.
Proof.
  revert improved. induction fuel as [|fuel IH]; intro improved; simpl.
  - split; [reflexivity|apply Qle_refl].
  - destruct (or_opt_sweep this matrix improved) as [newRoute|] eqn:Hs.
    + destruct (or_opt_sweep_sound _ _ Hs) as [Hp Hc].
      destruct (IH newRoute) as [Hp' Hc']. split.
      * rewrite Hp'. exact Hp.
      * apply Qlt_le_weak in Hc. eapply Qle_trans; eassumption.
    + split; [reflexivity|apply Qle_refl].
Qed.

Lemma applyOrOptImprovement_sound (route : list Stop) :
  Permutation (applyOrOptImprovement this route matrix) route
  /\ (path_cost this matrix (applyOrOptImprovement this route matrix) <= path_cost this matrix route)%Q.
Proof.
  unfold applyOrOptImprovement. destruct (List.length route <? 4).
  - split; [reflexivity|apply Qle_refl].
  - apply or_opt_loop_sound.
Qed.

(** What holds of the two passes: [applyOrOptImprovement] never increases the
    total distance of a route, whatever the matrix, since it compares whole
    routes. [apply2OptImprovement] never increases it when the lookups between
    the stops of the route are symmetric (the cost from [a] to [b] is the cost
    from [b] to [a]): it compares only the two edges at the ends of the
    reversed segment. *)
Lemma local_search_monotonic (route : list Stop) :
  (calculateTotalDistance this (applyOrOptImprovement this route matrix) (Some matrix)
   <= calculateTotalDistance this route (Some matrix))%Q
  /\ (symmetric_on this matrix route ->
      (calculateTotalDistance this (apply2OptImprovement this route matrix) (Some matrix)
       <= calculateTotalDistance this route (Some matrix))%Q).
Proof.
  rewrite !calculateTotalDistance_path_cost. split.
  - apply applyOrOptImprovement_sound.
  - apply apply2OptImprovement_sound.
Qed.

End LocalSearch.

(** ** Nearest-neighbour construction *)

Lemma nearest_scan_spec {A : Type} (dist : A -> Q) (candidates scanned : list A)
  (best : nat) (shortest : option Q) :
  scan_state dist scanned best shortest ->
  scanned ++ candidates <> [] ->
  exists nearest,
    earliest_nearest dist (scanned ++ candidates)
      (nearest_scan dist candidates (List.length scanned) best shortest) nearest.
Proof.
  revert scanned best shortest.
  induction candidates as [|c rest IH]; intros scanned best shortest Hst Hne.
  - rewrite app_nil_r in *. simpl. destruct shortest as [s|].
    + destruct Hst as [b [_ Hb]]. exists b. exact Hb.
    + simpl in Hst. congruence.
  - assert (E : scanned ++ c :: rest = (scanned ++ [c]) ++ rest)
      by (rewrite <- app_assoc; reflexivity).
    assert (L : S (List.length scanned) = List.length (scanned ++ [c]))
      by (rewrite length_app; simpl; lia).
    simpl nearest_scan. rewrite E, L.
    assert (Hne' : (scanned ++ [c]) ++ rest <> []) by (destruct scanned; discriminate).
    destruct (below (dist c) shortest) eqn:Hb.
    + apply IH; [|exact Hne'].
      exists c. split; [reflexivity|].
      assert (Hall : forall q x, nth_error scanned q = Some x -> (dist c < dist x)%Q).
      { intros q x Hq. destruct shortest as [s|].
        - destruct Hst as [b [-> [_ [Hle _]]]]. apply Qltb_lt in Hb.
          eapply Qlt_le_trans; [exact Hb|]. apply (Hle q x Hq).
        - simpl in Hst. subst scanned. destruct q; discriminate. }
      split; [apply nth_error_exact|]. split.
      * intros q x Hq.
        destruct (Nat.lt_ge_cases q (List.length scanned)) as [Hlt|Hge].
        -- rewrite nth_error_app1 in Hq by exact Hlt.
           apply Qlt_le_weak. apply (Hall q x Hq).
        -- rewrite nth_error_app2 in Hq by exact Hge.
           destruct (q - List.length scanned) as [|k]; simpl in Hq.
           ++ inversion Hq. apply Qle_refl.
           ++ destruct k; discriminate.
      * intros q x Hlt Hq. rewrite nth_error_app1 in Hq by exact Hlt.
        apply (Hall q x Hq).
    + apply IH; [|exact Hne'].
      destruct shortest as [s|]; [|discriminate].
      destruct Hst as [b [-> [Hnth [Hle Hlt]]]].
      simpl in Hb. apply Qltb_ge in Hb.
      assert (Hbest : best < List.length scanned).
      { apply nth_error_Some. rewrite Hnth. discriminate. }
      exists b. split; [reflexivity|]. split; [|split].
      * rewrite nth_error_app1 by exact Hbest. exact Hnth.
      * intros q x Hq.
        destruct (Nat.lt_ge_cases q (List.length scanned)) as [Hq'|Hge].
        -- rewrite nth_error_app1 in Hq by exact Hq'. apply (Hle q x Hq).
        -- rewrite nth_error_app2 in Hq by exact Hge.
           destruct (q - List.length scanned) as [|k]; simpl in Hq.
           ++ inversion Hq. subst. exact Hb.
           ++ destruct k; discriminate.
      * intros q x Hq' Hq. rewrite nth_error_app1 in Hq by lia.
        apply (Hlt q x Hq' Hq).
Qed.

Lemma nearest_scan_earliest {A : Type} (dist : A -> Q) (candidates : list A) :
  candidates <> [] ->
  exists nearest,
    earliest_nearest dist candidates (nearest_scan dist candidates 0 0 None) nearest.
Proof.
  intro Hne.
  apply (nearest_scan_spec dist candidates [] 0 None eq_refl Hne).
Qed.

(** The scan of [greedyTSP] finds the same position. *)
Lemma greedy_scan_nearest_scan (dist : Stop -> Q) (candidates : list Stop)
  (pos best : nat) (minCost : option Q) :
  greedy_scan dist candidates pos (Some best) minCost
  = Some (nearest_scan dist candidates pos best minCost).
Proof.
  revert pos best minCost.
  induction candidates as [|c rest IH]; intros pos best minCost; simpl.
  - reflexivity.
  - destruct (below (dist c) minCost); apply IH.
Qed.

Lemma greedy_scan_from_null (dist : Stop -> Q) (candidates : list Stop) :
  candidates <> [] ->
  greedy_scan dist candidates 0 None None
  = Some (nearest_scan dist candidates 0 0 None).
Proof.
  destruct candidates as [|c rest]; [congruence|]. intros _.
  simpl. apply greedy_scan_nearest_scan.
Qed.

Section Construction.

Variable this : RouteOptimizer.
Variable matrix : Matrix.

Lemma length_remove_at {A : Type} (l : list A) (p : nat) :
  p < List.length l -> List.length l = S (List.length (remove_at p l)).
Proof.
  intro H. unfold remove_at. rewrite length_app, length_firstn, length_skipn. lia.
Qed.

Lemma nearest_loop_chain (fuel : nat) (current : Stop) (unvisited route : list Stop) :
  fuel = List.length unvisited ->
  exists rest,
    nearest_loop this matrix fuel current unvisited route = rev route ++ rest
    /\ nearest_chain this matrix current unvisited rest.
Proof.
  revert current unvisited route.
  induction fuel as [|fuel IH]; intros current unvisited route Hfuel.
  - destruct unvisited; [|discriminate]. exists []. simpl.
    rewrite app_nil_r. split; [reflexivity|constructor].
  - assert (Hne : unvisited <> []) by (destruct unvisited; discriminate).
    destruct (nearest_scan_earliest (truthyMatrixDistance this matrix current)
                unvisited Hne) as [nearest Hn].
    simpl nearest_loop.
    set (p := nearest_scan (truthyMatrixDistance this matrix current) unvisited 0 0 None)
      in *.
    pose proof Hn as [Hnth _]. rewrite Hnth.
    assert (Hp : p < List.length unvisited).
    { apply nth_error_Some. rewrite Hnth. discriminate. }
    destruct (IH nearest (remove_at p unvisited) (nearest :: route)) as [rest [E Hc]].
    { pose proof (length_remove_at unvisited p Hp). lia. }
    exists (nearest :: rest). split.
    + rewrite E. simpl. rewrite <- app_assoc. reflexivity.
    + econstructor; eassumption.
Qed.

Lemma nearest_chain_perm (current : Stop) (unvisited rest : list Stop) :
  nearest_chain this matrix current unvisited rest -> Permutation rest unvisited.
Proof.
  induction 1 as [|current unvisited p nearest rest [Hnth _] _ IH].
  - constructor.
  - rewrite IH. apply remove_at_perm. exact Hnth.
Qed.

(** The loop of [greedyTSP] is the loop of [nearestNeighborWithMatrix]. *)
Lemma greedy_loop_nearest_loop (fuel : nat) (current : Stop)
  (unvisited route : list Stop) :
  fuel = List.length unvisited ->
  greedy_loop this matrix fuel current unvisited route
  = nearest_loop this matrix fuel current unvisited route.
Proof.
  revert current unvisited route.
  induction fuel as [|fuel IH]; intros current unvisited route Hfuel; simpl.
  - reflexivity.
  - assert (Hne : unvisited <> []) by (destruct unvisited; discriminate).
    rewrite (greedy_scan_from_null _ unvisited Hne).
    destruct (nth_error unvisited _) as [nearest|] eqn:Hnth; [|reflexivity].
    apply IH.
    assert (Hp : nearest_scan (truthyMatrixDistance this matrix current) unvisited 0 0 None
                 < List.length unvisited).
    { apply nth_error_Some. rewrite Hnth. discriminate. }
    pose proof (length_remove_at unvisited _ Hp). lia.
Qed.

Lemma findIndex_some {A : Type} (f : A -> bool) (l : list A) (p : nat) :
  findIndex f l = Some p ->
  exists a, nth_error l p = Some a /\ f a = true
            /\ forall q b, q < p -> nth_error l q = Some b -> f b = false.
Proof.
  revert p. induction l as [|x l IH]; intros p H; simpl in H; [discriminate|].
  destruct (f x) eqn:Hx.
  - inversion H. subst. exists x. repeat split; [exact Hx|]. intros q b Hq. lia.
  - destruct (findIndex f l) as [p'|]; [|discriminate]. inversion H. subst.
    destruct (IH p' eq_refl) as [a [Hn [Ha Hbefore]]].
    exists a. repeat split; [exact Hn|exact Ha|].
    intros q b Hq Hb. destruct q as [|q]; simpl in Hb.
    + inversion Hb. subst. exact Hx.
    + apply (Hbefore q b); [lia|exact Hb].
Qed.

Lemma findIndex_none {A : Type} (f : A -> bool) (l : list A) :
  findIndex f l = None -> forall b, In b l -> f b = false.
Proof.
  induction l as [|x l IH]; intros H b Hb; simpl in *; [contradiction|].
  destruct (f x) eqn:Hx; [discriminate|].
  destruct (findIndex f l); [discriminate|].
  destruct Hb as [<-|Hb]; [exact Hx|apply IH; [reflexivity|exact Hb]].
Qed.

Lemma start_position_starts_at (addresses : list Stop) (start : option Location) :
  starts_at addresses start (start_position addresses start).
Proof.
  unfold starts_at, start_position. destruct start as [s|]; [|reflexivity].
  destruct (findIndex (near_start s) addresses) as [p|] eqn:Hf.
  - left. apply findIndex_some. exact Hf.
  - right. split; [reflexivity|]. apply findIndex_none. exact Hf.
Qed.

Lemma start_position_lt (addresses : list Stop) (start : option Location) :
  addresses <> [] -> start_position addresses start < List.length addresses.
Proof.
  intro Hne. pose proof (start_position_starts_at addresses start) as H.
  unfold starts_at in H.
  assert (H0 : 0 < List.length addresses) by (destruct addresses; simpl; [congruence|lia]).
  destruct start as [s|]; [|lia].
  destruct H as [[a [Hn _]]|[-> _]]; [|exact H0].
  apply nth_error_Some. rewrite Hn. discriminate.
Qed.

(** The route of [nearestNeighborWithMatrix] on two groups or more: it
    starts at [start_position] and goes on as a nearest-neighbour chain. *)
Lemma nearestNeighborWithMatrix_route (addresses : list Stop)
  (start : option Location) :
  2 <= List.length addresses ->
  exists first rest,
    nearestNeighborWithMatrix this addresses matrix start = first :: rest
    /\ nth_error addresses (start_position addresses start) = Some first
    /\ nearest_chain this matrix first (remove_at (start_position addresses start) addresses)
         rest.
Proof.
  intro Hlen. unfold nearestNeighborWithMatrix.
  destruct addresses as [|a0 [|a1 more]]; simpl in Hlen; try lia.
  set (addresses := a0 :: a1 :: more) in *.
  assert (Hne : addresses <> []) by discriminate.
  pose proof (start_position_lt addresses start Hne) as Hp.
  set (p := start_position addresses start) in *.
  destruct (nth_error addresses p) as [first|] eqn:Hfirst;
    [|apply nth_error_None in Hfirst; lia].
  destruct (nearest_loop_chain (List.length (remove_at p addresses)) first
              (remove_at p addresses) [first] eq_refl) as [rest [E Hc]].
  exists first, rest. rewrite E. simpl. auto.
Qed.

(** C5 (amended). [nearestNeighborWithMatrix] starts from the first group (in
    input order) whose latitude and longitude are both within 0.001 of the
    start coordinate, and from the first group when there is none or no start
    is given -- not from the group nearest to the start. It then repeatedly
    appends the unvisited group of least lookup distance from the current
    tour end (the matrix cell when both indices resolve and the cell is
    defined and not zero, else the haversine distance), the earliest in input
    order among equals. *)
Theorem nearestNeighborWithMatrix_chain (addresses : list Stop)
  (start : option Location) :
  2 <= List.length addresses ->
  exists p first rest,
    nearestNeighborWithMatrix this addresses matrix start = first :: rest
    /\ nth_error addresses p = Some first
    /\ starts_at addresses start p
    /\ nearest_chain this matrix first (remove_at p addresses) rest.
Proof.
  intro Hlen.
  destruct (nearestNeighborWithMatrix_route addresses start Hlen)
    as [first [rest [E [Hfirst Hchain]]]].
  exists (start_position addresses start), first, rest.
  split; [exact E|]. split; [exact Hfirst|]. split; [|exact Hchain].
  apply start_position_starts_at.
Qed.

Lemma nearestNeighborWithMatrix_perm (addresses : list Stop)
  (start : option Location) :
  Permutation (nearestNeighborWithMatrix this addresses matrix start) addresses.
Proof.
  destruct (le_lt_dec 2 (List.length addresses)) as [Hlen|Hlen].
  - destruct (nearestNeighborWithMatrix_route addresses start Hlen)
      as [first [rest [-> [Hn Hc]]]].
    rewrite (nearest_chain_perm _ _ _ Hc). apply remove_at_perm. exact Hn.
  - destruct addresses as [|a0 [|a1 more]]; simpl in Hlen; try lia; reflexivity.
Qed.

(** In this model, where every cost is a finite number, [greedyTSP] builds
    the route of [nearestNeighborWithMatrix]. *)
Lemma greedyTSP_nearestNeighbor (addresses : list Stop) (start : option Location) :
  greedyTSP this addresses matrix start
  = nearestNeighborWithMatrix this addresses matrix start.
Proof.
  unfold greedyTSP. destruct (List.length addresses <=? 3) eqn:Hlen; [reflexivity|].
  apply Nat.leb_gt in Hlen. unfold nearestNeighborWithMatrix.
  destruct addresses as [|a0 [|a1 more]]; simpl in Hlen; try lia.
  destruct (nth_error _ _) as [current|]; [|reflexivity].
  apply greedy_loop_nearest_loop. reflexivity.
Qed.

(** C7 (amended). [christofidesApproximation] is [greedyTSP] for at most 5
    groups. For more than 5 groups it is [nearestNeighborWithMatrix] followed
    by one call of [apply2OptImprovement], which is not a single pass: it
    repeats full passes while the last pass found an improvement, up to
    [min(20, n)] passes. *)
Theorem christofidesApproximation_cases (addresses : list Stop)
  (start : option Location) :
  christofidesApproximation this addresses matrix start
  = if List.length addresses <=? 5
    then greedyTSP this addresses matrix start
    else two_opt_loop this matrix (Nat.min 20 (List.length addresses))
           (nearestNeighborWithMatrix this addresses matrix start).
Proof.
  unfold christofidesApproximation.
  destruct (List.length addresses <=? 5) eqn:Hlen; [reflexivity|].
  apply Nat.leb_gt in Hlen. unfold apply2OptImprovement.
  rewrite (Permutation_length (nearestNeighborWithMatrix_perm addresses start)).
  destruct (List.length addresses <? 4) eqn:H4; [|reflexivity].
  apply Nat.ltb_lt in H4. lia.
Qed.

End Construction.

(** ** Grouping, expansion and the tiers *)

Lemma push_group_perm (key : string) (a : Address)
  (groups : list (string * list Address)) :
  Permutation (List.concat (map snd (push_group key a groups)))
    (a :: List.concat (map snd groups)).
Proof.
  induction groups as [|[k g] groups IH]; simpl.
  - reflexivity.
  - destruct (String.eqb k key); simpl.
    + rewrite <- app_assoc. simpl.
      symmetry. apply Permutation_middle.
    + rewrite IH. symmetry. apply Permutation_middle.
Qed.

Lemma locationGroups_perm (addresses : list Address) :
  Permutation (List.concat (map snd (locationGroups addresses))) addresses.
Proof.
  unfold locationGroups.
  enough (G : forall groups,
             Permutation
               (List.concat (map snd
                  (fold_left
                     (fun groups a =>
                        push_group (normalizeAddressForGrouping (address a)) a groups)
                     addresses groups)))
               (List.concat (map snd groups) ++ addresses)).
  { apply (G []). }
  induction addresses as [|a addresses IH]; intro groups; simpl.
  - rewrite app_nil_r. reflexivity.
  - rewrite IH, push_group_perm. simpl. apply Permutation_middle.
Qed.

(** Expanding the grouped list gives back the members of the groups, group
    after group. *)
Lemma expand_groupSameLocationAddresses (addresses : list Address) :
  expandGroupedRoute (groupSameLocationAddresses addresses)
  = List.concat (map snd (locationGroups addresses)).
Proof.
  unfold groupSameLocationAddresses, expandGroupedRoute.
  induction (locationGroups addresses) as [|[k g] groups IH]; simpl.
  - reflexivity.
  - rewrite flat_map_app, IH. f_equal.
    destruct g as [|a [|b g]]; simpl; try reflexivity.
    rewrite app_nil_r. reflexivity.
Qed.

Lemma expandGroupedRoute_perm (r1 r2 : list Stop) :
  Permutation r1 r2 -> Permutation (expandGroupedRoute r1) (expandGroupedRoute r2).
Proof.
  intro H. unfold expandGroupedRoute.
  induction H; simpl.
  - constructor.
  - apply Permutation_app_head. assumption.
  - rewrite !app_assoc. apply Permutation_app_tail. apply Permutation_app_comm.
  - etransitivity; eassumption.
Qed.

Lemma local_search_loop_perm (this : RouteOptimizer) (distanceMatrix : Matrix)
  (fuel : nat) (route : list Stop) :
  Permutation (local_search_loop this distanceMatrix fuel route) route.
Proof.
  revert route. induction fuel as [|fuel IH]; intro route; simpl.
  - reflexivity.
  - assert (Hstep : Permutation
                      (applyOrOptImprovement this
                         (apply2OptImprovement this route distanceMatrix) distanceMatrix)
                      route).
    { rewrite (proj1 (applyOrOptImprovement_sound this distanceMatrix _)).
      apply apply2OptImprovement_sound. }
    destruct (Qltb _ _); [rewrite IH|]; exact Hstep.
Qed.

Lemma pick_best_least (this : RouteOptimizer) (distanceMatrix : Matrix)
  (results : list (list Stop)) (bestRoute : list Stop) :
  In (pick_best this distanceMatrix results bestRoute
        (calculateTotalDistance this bestRoute (Some distanceMatrix)))
     (bestRoute :: results)
  /\ forall r, In r (bestRoute :: results) ->
       (calculateTotalDistance this
          (pick_best this distanceMatrix results bestRoute
             (calculateTotalDistance this bestRoute (Some distanceMatrix)))
          (Some distanceMatrix)
        <= calculateTotalDistance this r (Some distanceMatrix))%Q.
Proof.
  revert bestRoute.
  induction results as [|route rest IH]; intros bestRoute.
  - cbn [pick_best]. split; [left; reflexivity|].
    intros r [<-|[]]. apply Qle_refl.
  - cbn [pick_best].
    destruct (Qltb _ _) eqn:Hlt.
    + destruct (IH route) as [Hin Hmin]. apply Qltb_lt in Hlt. split.
      * destruct Hin as [E|Hin]; [right; left; exact E|right; right; exact Hin].
      * intros r [<-|[<-|Hr]].
        -- eapply Qle_trans; [apply (Hmin route); left; reflexivity|].
           apply Qlt_le_weak. exact Hlt.
        -- apply Hmin. left. reflexivity.
        -- apply Hmin. right. exact Hr.
    + destruct (IH bestRoute) as [Hin Hmin]. apply Qltb_ge in Hlt. split.
      * destruct Hin as [E|Hin]; [left; exact E|right; right; exact Hin].
      * intros r [<-|[<-|Hr]].
        -- apply Hmin. left. reflexivity.
        -- eapply Qle_trans; [apply (Hmin bestRoute); left; reflexivity|exact Hlt].
        -- apply Hmin. right. exact Hr.
Qed.

Lemma advancedTSPOptimization_least (this : RouteOptimizer) (addresses : list Stop)
  (distanceMatrix : Matrix) (startLocation : option Location) :
  let kept := advancedTSPOptimization this addresses distanceMatrix startLocation in
  In kept (heuristics this addresses distanceMatrix startLocation)
  /\ forall r, In r (heuristics this addresses distanceMatrix startLocation) ->
       (calculateTotalDistance this kept (Some distanceMatrix)
        <= calculateTotalDistance this r (Some distanceMatrix))%Q.
Proof.
  unfold advancedTSPOptimization, heuristics. cbv zeta.
  set (r0 := nearestNeighborWithMatrix this addresses distanceMatrix startLocation).
  set (results := [r0; greedyTSP this addresses distanceMatrix startLocation;
                   christofidesApproximation this addresses distanceMatrix startLocation]).
  destruct (pick_best_least this distanceMatrix results r0) as [Hin Hmin].
  split.
  - destruct Hin as [E|Hin]; [left; exact E|exact Hin].
  - intros r Hr. apply Hmin. right. exact Hr.
Qed.

(** The dispatch of [optimizeRoute] on the number of stops and the number of
    groups. *)
Lemma optimizeRoute_dispatch (this : RouteOptimizer) (addresses : list Address)
  (startLocation : option Location) :
  let grouped := groupSameLocationAddresses addresses in
  let this' := mkRouteOptimizer (googleMapsApiKey this) (Some grouped) in
  let distanceMatrix := buildDistanceMatrix this' grouped in
  let finish route :=
    expandGroupedRoute (applyLocalSearchImprovements this' route distanceMatrix) in
  snd (optimizeRoute this addresses startLocation)
  = match tier_of (List.length addresses) (List.length grouped) with
    | Trivial => addresses
    | ExactIsh =>
        finish (advancedTSPOptimization this' grouped distanceMatrix startLocation)
    | Hybrid =>
        finish
          (applyOrOptImprovement this'
             (apply2OptImprovement this'
                (nearestNeighborWithMatrix this' grouped distanceMatrix startLocation)
                distanceMatrix)
             distanceMatrix)
    | Cluster =>
        finish (clusterBasedOptimization this' grouped distanceMatrix startLocation)
    end.
Proof.
  intros grouped this' distanceMatrix finish.
  unfold optimizeRoute, tier_of, construct.
  destruct (List.length addresses <=? 2); [reflexivity|].
  fold grouped. fold this'. fold distanceMatrix. cbn [snd].
  destruct (List.length grouped <=? 25); [reflexivity|].
  destruct (List.length grouped <=? 100); reflexivity.
Qed.

(** The routes of the three tiers below the cluster tier keep every stop. *)
Lemma construct_perm (this : RouteOptimizer) (addresses : list Stop)
  (distanceMatrix : Matrix) (startLocation : option Location) :
  List.length addresses <= 100 ->
  Permutation (construct this addresses distanceMatrix startLocation) addresses.
Proof.
  intro Hlen. unfold construct.
  destruct (List.length addresses <=? 25).
  - destruct (advancedTSPOptimization_least this addresses distanceMatrix startLocation)
      as [Hin _].
    destruct Hin as [<-|[<-|[<-|[]]]].
    + apply nearestNeighborWithMatrix_perm.
    + rewrite greedyTSP_nearestNeighbor. apply nearestNeighborWithMatrix_perm.
    + unfold christofidesApproximation. destruct (List.length addresses <=? 5).
      * rewrite greedyTSP_nearestNeighbor. apply nearestNeighborWithMatrix_perm.
      * rewrite (proj1 (apply2OptImprovement_sound this distanceMatrix _)).
        apply nearestNeighborWithMatrix_perm.
  - destruct (List.length addresses <=? 100) eqn:H100;
      [|apply Nat.leb_gt in H100; lia].
    unfold hybridOptimization.
    rewrite (proj1 (applyOrOptImprovement_sound this distanceMatrix _)).
    rewrite (proj1 (apply2OptImprovement_sound this distanceMatrix _)).
    apply nearestNeighborWithMatrix_perm.
Qed.

(** Up to 100 groups, the output of [optimizeRoute] is a permutation of its
    input. *)
Lemma optimizeRoute_perm (this : RouteOptimizer) (addresses : list Address)
  (startLocation : option Location) :
  List.length (groupSameLocationAddresses addresses) <= 100 ->
  Permutation (snd (optimizeRoute this addresses startLocation)) addresses.
Proof.
  intro Hlen. unfold optimizeRoute.
  destruct (List.length addresses <=? 2); [reflexivity|]. cbn [snd].
  apply Permutation_trans
    with (expandGroupedRoute (groupSameLocationAddresses addresses)).
  2:{ rewrite expand_groupSameLocationAddresses. apply locationGroups_perm. }
  apply expandGroupedRoute_perm.
  unfold applyLocalSearchImprovements. rewrite local_search_loop_perm.
  apply construct_perm. exact Hlen.
Qed.

(** ** The order of the clusters *)

Lemma within_tolerance (x y : Q) :
  (x == y)%Q -> Qltb (Qabs (x - y)) (1 # 10000) = true.
Proof.
  intro H. apply Qltb_lt.
  assert (E : (x - y == 0)%Q) by lra.
  rewrite E. reflexivity.
Qed.

Lemma or_zero_eq (x : Q) : (x == or_zero x)%Q.
Proof.
  unfold or_zero. destruct (Qeq_bool x 0) eqn:E; [|reflexivity].
  apply Qeq_bool_iff. exact E.
Qed.

Lemma same_center_refl (c : Stop) : same_center c c = true.
Proof.
  unfold same_center. rewrite !within_tolerance by apply or_zero_eq. reflexivity.
Qed.

Lemma nearestNeighborTSP_two (x y : Stop) (startLocation : option Location) :
  nearestNeighborTSP [x; y] startLocation = [x; y]
  \/ nearestNeighborTSP [x; y] startLocation = [y; x].
Proof.
  unfold nearestNeighborTSP.
  assert (Hp : forall s, findNearestAddress [x; y] s = 0
                         \/ findNearestAddress [x; y] s = 1).
  { intro s. unfold findNearestAddress. cbn [nearest_scan below].
    rewrite Qltb_irrefl. destruct (Qltb _ _); auto. }
  assert (H1 : forall z s, findNearestAddress [z] s = 0).
  { intros z s. unfold findNearestAddress. cbn [nearest_scan below].
    rewrite Qltb_irrefl. reflexivity. }
  assert (Hrun : forall p, p = 0 \/ p = 1 ->
            match nth_error [x; y] p with
            | Some current =>
                nearestNeighborTSP_loop (List.length (remove_at p [x; y])) current
                  (remove_at p [x; y]) [current]
            | None => []
            end = [x; y]
            \/ match nth_error [x; y] p with
               | Some current =>
                   nearestNeighborTSP_loop (List.length (remove_at p [x; y])) current
                     (remove_at p [x; y]) [current]
               | None => []
               end = [y; x]).
  { intros p [-> | ->];
      cbn [nth_error remove_at firstn skipn app List.length nearestNeighborTSP_loop];
      rewrite H1;
      cbn [nth_error remove_at firstn skipn app List.length nearestNeighborTSP_loop rev];
      auto. }
  destruct startLocation as [s|].
  - apply Hrun. apply Hp.
  - apply Hrun. left. reflexivity.
Qed.

(** When the centroid of the second of two clusters lies within 0.0001 of
    the centroid of the first in both coordinates, both ordered centers are
    matched to the first cluster: it is returned twice and the second cluster
    is lost, whatever the distances. *)
Lemma optimizeClusterOrder_collision (c0 c1 : list Stop) (matrix : Matrix)
  (allAddresses : list Stop) (start : option Location) :
  same_center (clusterCenter c1) (clusterCenter c0) = true ->
  optimizeClusterOrder [c0; c1] matrix allAddresses start = [c0; c0].
Proof.
  intro H. unfold optimizeClusterOrder. cbn [List.length Nat.leb map].
  destruct (nearestNeighborTSP_two (clusterCenter c0) (clusterCenter c1) start)
    as [-> | ->];
    cbn [flat_map findIndex]; rewrite !same_center_refl, H; reflexivity.
Qed.

(** ** Short routes *)

(** Routes of fewer than 4 stops are left alone by the local search. *)
Lemma applyLocalSearchImprovements_short (this : RouteOptimizer)
  (route : list Stop) (distanceMatrix : Matrix) :
  List.length route < 4 ->
  applyLocalSearchImprovements this route distanceMatrix = route.
Proof.
  intro Hlen. apply Nat.ltb_lt in Hlen.
  unfold applyLocalSearchImprovements.
  generalize 49 as fuel. intro fuel.
  change (local_search_loop this distanceMatrix 50 route)
    with (local_search_loop this distanceMatrix (S 49) route).
  generalize 49 as fuel'. intro fuel'. cbn [local_search_loop].
  unfold apply2OptImprovement, applyOrOptImprovement.
  rewrite Hlen, Hlen, Qltb_irrefl. reflexivity.
Qed.

(** With at most 3 groups the three heuristics build the same route. *)
Lemma advancedTSPOptimization_small (this : RouteOptimizer)
  (addresses : list Stop) (distanceMatrix : Matrix)
  (startLocation : option Location) :
  List.length addresses <= 3 ->
  advancedTSPOptimization this addresses distanceMatrix startLocation
  = nearestNeighborWithMatrix this addresses distanceMatrix startLocation.
Proof.
  intro Hlen. unfold advancedTSPOptimization, christofidesApproximation, greedyTSP.
  assert (H3 : (List.length addresses <=? 3) = true) by (apply Nat.leb_le; exact Hlen).
  assert (H5 : (List.length addresses <=? 5) = true) by (apply Nat.leb_le; lia).
  rewrite H3, H5. cbn [pick_best]. rewrite !Qltb_irrefl. reflexivity.
Qed.

(** Two groups and no start location: the input order. *)
Lemma nearestNeighborWithMatrix_pair (this : RouteOptimizer) (x y : Stop)
  (matrix : Matrix) :
  nearestNeighborWithMatrix this [x; y] matrix None = [x; y].
Proof. reflexivity. Qed.

(** ** The grouped stops are pairwise different *)

Lemma push_group_keys (key : string) (a : Address)
  (groups : list (string * list Address)) :
  map fst (push_group key a groups)
  = if existsb (String.eqb key) (map fst groups) then map fst groups
    else map fst groups ++ [key].
Proof.
  induction groups as [|[k g] groups IH]; simpl.
  - reflexivity.
  - rewrite (String.eqb_sym key k). destruct (String.eqb k key) eqn:E; simpl.
    + reflexivity.
    + rewrite IH. destruct (existsb _ _); reflexivity.
Qed.

Lemma existsb_eqb_In (key : string) (keys : list string) :
  existsb (String.eqb key) keys = true <-> In key keys.
Proof.
  rewrite existsb_exists. split.
  - intros [k [Hin E]]. apply String.eqb_eq in E. subst. exact Hin.
  - intro Hin. exists key. split; [exact Hin|apply String.eqb_refl].
Qed.

Lemma push_group_NoDup (key : string) (a : Address)
  (groups : list (string * list Address)) :
  NoDup (map fst groups) -> NoDup (map fst (push_group key a groups)).
Proof.
  intro H. rewrite push_group_keys.
  destruct (existsb (String.eqb key) (map fst groups)) eqn:E; [exact H|].
  apply NoDup_rev in H. rewrite <- (rev_involutive (_ ++ _)).
  apply NoDup_rev. rewrite rev_app_distr. simpl. constructor; [|exact H].
  rewrite <- in_rev. intro Hin. apply existsb_eqb_In in Hin. congruence.
Qed.

Lemma push_group_keyed (a : Address) (groups : list (string * list Address)) :
  Forall keyed groups ->
  Forall keyed (push_group (normalizeAddressForGrouping (address a)) a groups).
Proof.
  induction 1 as [|[k g] groups [Hne Hg] Hrest IH]; simpl.
  - constructor; [|constructor]. split; [discriminate|].
    constructor; [reflexivity|constructor].
  - destruct (String.eqb k _) eqn:E.
    + apply String.eqb_eq in E. constructor; [|exact Hrest].
      split; simpl in *.
      * destruct g; discriminate.
      * apply Forall_app. split; [exact Hg|].
        constructor; [symmetry; exact E|constructor].
    + constructor; [split; assumption|exact IH].
Qed.

Lemma locationGroups_invariant (addresses : list Address) :
  NoDup (map fst (locationGroups addresses))
  /\ Forall keyed (locationGroups addresses).
Proof.
  unfold locationGroups.
  enough (G : forall groups,
             NoDup (map fst groups) -> Forall keyed groups ->
             NoDup (map fst
                      (fold_left
                         (fun groups a =>
                            push_group (normalizeAddressForGrouping (address a)) a groups)
                         addresses groups))
             /\ Forall keyed
                  (fold_left
                     (fun groups a =>
                        push_group (normalizeAddressForGrouping (address a)) a groups)
                     addresses groups)).
  { apply G; constructor. }
  induction addresses as [|a addresses IH]; intros groups Hk Hg; simpl.
  - split; assumption.
  - apply IH; [apply push_group_NoDup; exact Hk|apply push_group_keyed; exact Hg].
Qed.

Lemma substring_all (s : string) : String.substring 0 (String.length s) s = s.
Proof.
  induction s as [|c s IH]; simpl; [reflexivity|]. rewrite IH. reflexivity.
Qed.

Lemma groupSameLocationAddresses_keys (addresses : list Address) :
  map key_of (groupSameLocationAddresses addresses)
  = map fst (locationGroups addresses).
Proof.
  unfold groupSameLocationAddresses.
  destruct (locationGroups_invariant addresses) as [_ Hkeyed].
  induction Hkeyed as [|[k g] groups [Hne Hg] _ IH]; simpl.
  - reflexivity.
  - rewrite map_app, IH. f_equal. simpl in *.
    destruct g as [|a [|b g]]; [congruence| |].
    + simpl. unfold key_of. simpl. inversion Hg as [|? ? Ha _].
      simpl in Ha. rewrite Ha. reflexivity.
    + simpl. unfold key_of. simpl. rewrite Nat.sub_0_r, substring_all. reflexivity.
Qed.

(** No two stops of the grouped list have the same content, so [indexOf],
    which compares contents, finds a stop of the list at its own position,
    as the identity comparison of the source does. *)
Lemma groupSameLocationAddresses_NoDup (addresses : list Address) :
  NoDup (groupSameLocationAddresses addresses).
Proof.
  apply (NoDup_map_inv key_of). rewrite groupSameLocationAddresses_keys.
  apply locationGroups_invariant.
Qed.

Lemma Q_same_eq (x y : Q) : Q_same x y = true <-> x = y.
Proof.
  unfold Q_same. destruct x as [a b], y as [c d]. simpl.
  rewrite andb_true_iff, Z.eqb_eq, Pos.eqb_eq. split.
  - intros [-> ->]. reflexivity.
  - intro H. inversion H. auto.
Qed.

Lemma option_same_eq {A : Type} (same : A -> A -> bool) (x y : option A) :
  (forall a b, same a b = true <-> a = b) ->
  option_same same x y = true <-> x = y.
Proof.
  intro H. destruct x as [a|], y as [b|]; simpl.
  - rewrite H. split; [intros ->; reflexivity|intro E; inversion E; reflexivity].
  - split; discriminate.
  - split; discriminate.
  - split; reflexivity.
Qed.

Lemma list_same_eq {A : Type} (same : A -> A -> bool) (x y : list A) :
  (forall a b, same a b = true <-> a = b) ->
  list_same same x y = true <-> x = y.
Proof.
  intro H. revert y. induction x as [|a x IH]; intros [|b y]; simpl.
  - split; reflexivity.
  - split; discriminate.
  - split; discriminate.
  - rewrite andb_true_iff, H, IH. split.
    + intros [-> ->]. reflexivity.
    + intro E. inversion E. auto.
Qed.

Lemma Address_same_eq (a b : Address) : Address_same a b = true <-> a = b.
Proof.
  unfold Address_same. destruct a, b. simpl.
  rewrite !andb_true_iff, !String.eqb_eq, !Q_same_eq,
    !(option_same_eq String.eqb) by apply String.eqb_eq.
  split.
  - intros [[[[[-> ->] ->] ->] ->] ->]. reflexivity.
  - intro E. inversion E. repeat split.
Qed.

Lemma Stop_same_eq (a b : Stop) : Stop_same a b = true <-> a = b.
Proof.
  unfold Stop_same. destruct a as [a ga], b as [b gb]. simpl.
  rewrite andb_true_iff, Address_same_eq.
  rewrite (option_same_eq (list_same Address_same))
    by (intros; apply list_same_eq; apply Address_same_eq).
  split.
  - intros [-> ->]. reflexivity.
  - intro E. inversion E. auto.
Qed.

Lemma indexOf_position (addresses : list Stop) (p : nat) (a : Stop) :
  NoDup addresses -> nth_error addresses p = Some a ->
  indexOf addresses a = Some p.
Proof.
  unfold indexOf. revert p. induction addresses as [|x addresses IH]; intros p Hnd Hp.
  - destruct p; discriminate.
  - inversion Hnd as [|? ? Hnotin Hnd']. subst. simpl.
    destruct p as [|p]; simpl in Hp.
    + inversion Hp. subst.
      replace (Stop_same a a) with true by (symmetry; apply Stop_same_eq; reflexivity).
      reflexivity.
    + destruct (Stop_same a x) eqn:E.
      * apply Stop_same_eq in E. subst x. exfalso. apply Hnotin.
        apply (nth_error_In _ _ Hp).
      * rewrite (IH p Hnd' Hp). reflexivity.
Qed.

(** ** The cluster tier keeps every stop unless two centroids collide *)

Lemma nearest_scan_range {A : Type} (dist : A -> Q) (candidates : list A)
  (pos best : nat) (shortest : option Q) :
  nearest_scan dist candidates pos best shortest = best
  \/ pos <= nearest_scan dist candidates pos best shortest
            < pos + List.length candidates.
Proof.
  revert pos best shortest.
  induction candidates as [|c rest IH]; intros pos best shortest; simpl.
  - left. reflexivity.
  - destruct (below (dist c) shortest).
    + right. destruct (IH (S pos) pos (Some (dist c))) as [-> | H]; lia.
    + destruct (IH (S pos) best shortest) as [-> | H]; [left; reflexivity|right; lia].
Qed.

Lemma findNearestAddress_lt (addresses : list Stop) (location : Location) :
  addresses <> [] -> findNearestAddress addresses location < List.length addresses.
Proof.
  intro Hne. unfold findNearestAddress.
  destruct addresses as [|first rest]; [congruence|].
  match goal with
  | |- nearest_scan ?d ?l 0 0 ?s < _ =>
      destruct (nearest_scan_range d l 0 0 s) as [-> | H]
  end; simpl in *; lia.
Qed.

Lemma nearestNeighborTSP_loop_perm (fuel : nat) (current : Stop)
  (unvisited route : list Stop) :
  fuel = List.length unvisited ->
  Permutation (nearestNeighborTSP_loop fuel current unvisited route)
    (rev route ++ unvisited).
Proof.
  revert current unvisited route.
  induction fuel as [|fuel IH]; intros current unvisited route Hfuel; simpl.
  - destruct unvisited; [|discriminate]. rewrite app_nil_r. reflexivity.
  - assert (Hne : unvisited <> []) by (destruct unvisited; discriminate).
    pose proof (findNearestAddress_lt unvisited
                  (mkLocation (latitude current) (longitude current)) Hne) as Hp.
    destruct (nth_error unvisited _) as [nearest|] eqn:Hn;
      [|apply nth_error_None in Hn; lia].
    rewrite IH by (pose proof (length_remove_at unvisited _ Hp); lia).
    simpl. rewrite <- app_assoc. simpl.
    apply Permutation_app_head. apply remove_at_perm. exact Hn.
Qed.

Lemma nearestNeighborTSP_perm (addresses : list Stop)
  (startLocation : option Location) :
  Permutation (nearestNeighborTSP addresses startLocation) addresses.
Proof.
  unfold nearestNeighborTSP. destruct addresses as [|a0 more]; [reflexivity|].
  set (addresses := a0 :: more).
  set (p := match startLocation with
            | Some s => findNearestAddress addresses s
            | None => 0
            end).
  assert (Hp : p < List.length addresses).
  { unfold p. destruct startLocation as [s|]; [|simpl; lia].
    apply findNearestAddress_lt. discriminate. }
  destruct (nth_error addresses p) as [current|] eqn:Hn;
    [|apply nth_error_None in Hn; lia].
  rewrite nearestNeighborTSP_loop_perm by reflexivity.
  simpl. apply remove_at_perm. exact Hn.
Qed.

Lemma findIndex_own (centers : list Stop) (q : nat) (c : Stop) :
  distinct_centers centers -> nth_error centers q = Some c ->
  findIndex (same_center c) centers = Some q.
Proof.
  intros Hd Hq.
  destruct (findIndex (same_center c) centers) as [k|] eqn:Hf.
  - apply findIndex_some in Hf. destruct Hf as [a [Hk [Ha Hbefore]]].
    destruct (Nat.lt_trichotomy k q) as [Hlt|[->|Hgt]].
    + rewrite (Hd k q a c Hlt Hk Hq) in Ha. discriminate.
    + reflexivity.
    + pose proof (Hbefore q c Hgt Hq) as H.
      rewrite same_center_refl in H. discriminate.
  - pose proof (findIndex_none _ _ Hf c (nth_error_In _ _ Hq)) as H.
    rewrite same_center_refl in H. discriminate.
Qed.

Lemma flat_map_own (clusters : list (list Stop)) (centers : list Stop)
  (g : Stop -> list (list Stop)) :
  centers = map clusterCenter clusters ->
  (forall q c cluster, nth_error centers q = Some c ->
     nth_error clusters q = Some cluster -> g c = [cluster]) ->
  flat_map g centers = clusters.
Proof.
  revert centers g. induction clusters as [|cluster clusters IH]; intros centers g E Hg.
  - subst. reflexivity.
  - subst centers. simpl. rewrite (Hg 0 (clusterCenter cluster) cluster eq_refl eq_refl).
    simpl. f_equal. apply IH; [reflexivity|].
    intros q c cl Hq Hcl. apply (Hg (S q) c cl); assumption.
Qed.

Lemma optimizeClusterOrder_perm (clusters : list (list Stop)) (matrix : Matrix)
  (allAddresses : list Stop) (start : option Location) :
  distinct_centers (map clusterCenter clusters) ->
  Permutation (optimizeClusterOrder clusters matrix allAddresses start) clusters.
Proof.
  intro Hd. unfold optimizeClusterOrder.
  destruct (List.length clusters <=? 1); [reflexivity|].
  set (centers := map clusterCenter clusters) in *.
  set (g := fun center : Stop =>
              match findIndex (same_center center) centers with
              | Some clusterIndex =>
                  match nth_error clusters clusterIndex with
                  | Some cluster => [cluster]
                  | None => []
                  end
              | None => []
              end).
  apply Permutation_trans with (flat_map g centers).
  - apply Permutation_flat_map. apply nearestNeighborTSP_perm.
  - rewrite (flat_map_own clusters centers g eq_refl); [reflexivity|].
    intros q c cluster Hq Hcl. unfold g.
    rewrite (findIndex_own centers q c Hd Hq), Hcl. reflexivity.
Qed.

Lemma push_at_perm {A : Type} (k : nat) (a : A) (clusters : list (list A)) :
  k < List.length clusters ->
  Permutation (List.concat (push_at k a clusters)) (a :: List.concat clusters).
Proof.
  unfold push_at. revert k. induction clusters as [|c clusters IH]; intros k Hk.
  - simpl in Hk. lia.
  - destruct k as [|k]; simpl.
    + rewrite <- app_assoc. simpl. symmetry. apply Permutation_middle.
    + simpl in Hk. specialize (IH k ltac:(lia)).
      destruct (nth_error clusters k) as [c'|] eqn:Hc;
        [|apply nth_error_None in Hc; lia].
      simpl. rewrite IH. symmetry. apply Permutation_middle.
Qed.

Lemma length_push_at {A : Type} (k : nat) (a : A) (clusters : list (list A)) :
  List.length (push_at k a clusters) = List.length clusters.
Proof.
  unfold push_at. destruct (nth_error clusters k); [apply length_set_at|reflexivity].
Qed.

Lemma concat_filter_nonempty {A : Type} (clusters : list (list A)) :
  List.concat (filter (fun cluster => 0 <? List.length cluster) clusters)
  = List.concat clusters.
Proof.
  induction clusters as [|c clusters IH]; simpl; [reflexivity|].
  destruct c as [|x c]; simpl; [exact IH|]. rewrite IH. reflexivity.
Qed.

Lemma concat_repeat_nil {A : Type} (n : nat) :
  List.concat (repeat (@nil A) n) = [].
Proof. induction n as [|n IH]; simpl; [reflexivity|exact IH]. Qed.

(** The clusters partition the groups. *)
Lemma createSmartClusters_perm (addresses : list Stop) (count : nat) :
  1 <= count ->
  Permutation (List.concat (createSmartClusters addresses count)) addresses.
Proof.
  intro Hcount. unfold createSmartClusters.
  destruct (Nat.leb_spec (List.length addresses) count) as [Hle|Hgt].
  - induction addresses as [|a addresses IH]; simpl; [reflexivity|].
    apply perm_skip. apply IH. simpl in Hle. lia.
  - rewrite concat_filter_nonempty.
    set (centers := initial_centers addresses count).
    assert (Hc : centers <> []).
    { unfold centers, initial_centers.
      destruct count as [|count]; [lia|]. rewrite <- cons_seq.
      destruct addresses as [|a addresses]; [simpl in Hgt; lia|].
      simpl. discriminate. }
    enough (G : forall processed clusters,
               List.length clusters = List.length centers ->
               Permutation
                 (List.concat
                    (fold_left
                       (fun clusters a => push_at (nearestCluster centers a) a clusters)
                       processed clusters))
                 (List.concat clusters ++ processed)).
    { rewrite (G addresses); [|apply repeat_length].
      rewrite concat_repeat_nil. reflexivity. }
    induction processed as [|a processed IH]; intros clusters Hlen; simpl.
    + rewrite app_nil_r. reflexivity.
    + assert (Hk : nearestCluster centers a < List.length clusters).
      { rewrite Hlen. unfold nearestCluster.
        match goal with
        | |- nearest_scan ?d ?l 0 0 None < _ =>
            destruct (nearest_scan_earliest d l Hc) as [c [Hn _]]
        end.
        apply nth_error_Some. rewrite Hn. discriminate. }
      rewrite IH by (rewrite length_push_at; exact Hlen).
      rewrite (push_at_perm _ a clusters Hk). simpl. apply Permutation_middle.
Qed.

Lemma concat_map_perm {A : Type} (f : list A -> list A) (clusters : list (list A)) :
  (forall c, Permutation (f c) c) ->
  Permutation (List.concat (map f clusters)) (List.concat clusters).
Proof.
  intro Hf. induction clusters as [|c clusters IH]; simpl; [reflexivity|].
  apply Permutation_app; [apply Hf|exact IH].
Qed.

Lemma concat_perm {A : Type} (l1 l2 : list (list A)) :
  Permutation l1 l2 -> Permutation (List.concat l1) (List.concat l2).
Proof.
  induction 1; simpl.
  - reflexivity.
  - apply Permutation_app_head. assumption.
  - rewrite !app_assoc. apply Permutation_app_tail. apply Permutation_app_comm.
  - etransitivity; eassumption.
Qed.

(** The cluster tier keeps every group when no centroid lies within 0.0001
    (in both coordinates) of the centroid of an earlier cluster. *)
Lemma clusterBasedOptimization_perm (this : RouteOptimizer)
  (addresses : list Stop) (distanceMatrix : Matrix)
  (startLocation : option Location) :
  distinct_centers
    (map clusterCenter (optimizedClusters this addresses distanceMatrix)) ->
  Permutation
    (clusterBasedOptimization this addresses distanceMatrix startLocation)
    addresses.
Proof.
  intro Hd. unfold clusterBasedOptimization. cbv zeta.
  fold (optimizedClusters this addresses distanceMatrix).
  rewrite (concat_perm _ _ (optimizeClusterOrder_perm _ distanceMatrix addresses
                              startLocation Hd)).
  unfold optimizedClusters.
  rewrite concat_map_perm by (intro c; apply nearestNeighborWithMatrix_perm).
  destruct addresses as [|a addresses]; [reflexivity|].
  apply createSmartClusters_perm.
  simpl List.length.
  pose proof (Nat.div_mod_eq (S (List.length addresses) + 29) 30).
  pose proof (Nat.mod_upper_bound (S (List.length addresses) + 29) 30 ltac:(discriminate)).
  lia.
Qed.

(** The output of [optimizeRoute] is a permutation of its input in every
    tier, unless two centroids of the cluster tier collide. *)
Lemma optimizeRoute_perm_unless_collision (this : RouteOptimizer)
  (addresses : list Address) (startLocation : option Location) :
  let grouped := groupSameLocationAddresses addresses in
  let this' := mkRouteOptimizer (googleMapsApiKey this) (Some grouped) in
  let distanceMatrix := buildDistanceMatrix this' grouped in
  (100 < List.length grouped ->
   distinct_centers
     (map clusterCenter (optimizedClusters this' grouped distanceMatrix))) ->
  Permutation (snd (optimizeRoute this addresses startLocation)) addresses.
Proof.
  intros grouped this' distanceMatrix Hd.
  destruct (le_lt_dec (List.length grouped) 100) as [Hle|Hgt].
  - apply optimizeRoute_perm. exact Hle.
  - unfold optimizeRoute.
    destruct (List.length addresses <=? 2); [reflexivity|]. cbn [snd].
    fold grouped. fold this'. fold distanceMatrix.
    apply Permutation_trans with (expandGroupedRoute grouped).
    2:{ unfold grouped. rewrite expand_groupSameLocationAddresses.
        apply locationGroups_perm. }
    apply expandGroupedRoute_perm.
    unfold applyLocalSearchImprovements. rewrite local_search_loop_perm.
    unfold construct.
    destruct (Nat.leb_spec (List.length grouped) 25); [lia|].
    destruct (Nat.leb_spec (List.length grouped) 100); [lia|].
    apply clusterBasedOptimization_perm. apply Hd. exact Hgt.
Qed.

(** ** The members of a group and the output of the tiers *)

Lemma at_key_snoc (key : string) (seen : list Address) (a : Address) :
  at_key key (seen ++ [a])
  = at_key key seen ++ (if String.eqb (locationKey a) key then [a] else []).
Proof.
  unfold at_key. rewrite filter_app. cbn [filter].
  destruct (String.eqb (locationKey a) key); reflexivity.
Qed.

Lemma at_key_absent (key : string) (seen : list Address)
  (groups : list (string * list Address)) :
  (forall a, In a seen -> In (locationKey a) (map fst groups)) ->
  ~ In key (map fst groups) -> at_key key seen = [].
Proof.
  intros Hall Hnot. unfold at_key.
  induction seen as [|b seen IH]; [reflexivity|].
  cbn [filter]. destruct (String.eqb (locationKey b) key) eqn:E.
  - apply String.eqb_eq in E. exfalso. apply Hnot. rewrite <- E.
    apply Hall. left. reflexivity.
  - apply IH. intros a Ha. apply Hall. right. exact Ha.
Qed.

Lemma push_group_entries (seen : list Address) (a : Address)
  (groups : list (string * list Address)) :
  NoDup (map fst groups) ->
  Forall (fun entry => snd entry = at_key (fst entry) seen /\ snd entry <> []) groups ->
  (~ In (locationKey a) (map fst groups) -> at_key (locationKey a) seen = []) ->
  Forall (fun entry => snd entry = at_key (fst entry) (seen ++ [a]) /\ snd entry <> [])
    (push_group (locationKey a) a groups).
Proof.
  intros Hkeys Hall. revert Hkeys.
  induction Hall as [|[k g] groups [Hg Hne] Hrest IH]; intros Hkeys Hnew;
    cbn [push_group].
  - constructor; [|constructor]. cbn [fst snd]. split; [|discriminate].
    rewrite at_key_snoc, String.eqb_refl, Hnew; [reflexivity|]. intros [].
  - cbn [fst snd] in Hg, Hne. cbn [map fst] in Hkeys.
    apply NoDup_cons_iff in Hkeys. destruct Hkeys as [Hk Hkeys].
    destruct (String.eqb k (locationKey a)) eqn:E.
    + apply String.eqb_eq in E. subst k.
      constructor.
      * cbn [fst snd]. rewrite at_key_snoc, String.eqb_refl, <- Hg.
        split; [reflexivity|]. destruct g; discriminate.
      * rewrite Forall_forall in Hrest |- *. intros [k' g'] Hin.
        destruct (Hrest _ Hin) as [Hg' Hne']. cbn [fst snd] in *.
        split; [|exact Hne'].
        rewrite at_key_snoc.
        destruct (String.eqb (locationKey a) k') eqn:E'.
        -- apply String.eqb_eq in E'. subst k'. exfalso. apply Hk.
           apply (in_map fst) in Hin. exact Hin.
        -- rewrite app_nil_r. exact Hg'.
    + constructor.
      * cbn [fst snd]. rewrite at_key_snoc.
        rewrite String.eqb_sym in E. rewrite E, app_nil_r. split; assumption.
      * apply IH; [exact Hkeys|]. intro Hnot. apply Hnew. cbn [map fst].
        intros [Hk'|Hin].
        -- rewrite Hk', String.eqb_refl in E. discriminate.
        -- apply Hnot. exact Hin.
Qed.

Lemma push_group_grouped_so_far (seen : list Address) (a : Address)
  (groups : list (string * list Address)) :
  grouped_so_far seen groups ->
  grouped_so_far (seen ++ [a]) (push_group (locationKey a) a groups).
Proof.
  intros [Hkeys [Hall Hseen]]. split; [|split].
  - apply push_group_NoDup. exact Hkeys.
  - apply push_group_entries; [exact Hkeys|exact Hall|].
    apply at_key_absent. exact Hseen.
  - intros b Hb. rewrite push_group_keys.
    apply in_app_or in Hb.
    destruct (existsb (String.eqb (locationKey a)) (map fst groups)) eqn:E.
    + destruct Hb as [Hb|[<-|[]]]; [apply Hseen; exact Hb|].
      apply existsb_eqb_In. exact E.
    + apply in_or_app. destruct Hb as [Hb|[<-|[]]].
      * left. apply Hseen. exact Hb.
      * right. left. reflexivity.
Qed.

Lemma locationGroups_grouped_so_far (addresses : list Address) :
  grouped_so_far addresses (locationGroups addresses).
Proof.
  unfold locationGroups.
  enough (G : forall rest seen groups,
             grouped_so_far seen groups ->
             grouped_so_far (seen ++ rest)
               (fold_left
                  (fun groups a =>
                     push_group (normalizeAddressForGrouping (address a)) a groups)
                  rest groups)).
  { apply (G addresses [] []). split; [constructor|split; [constructor|intros a []]]. }
  induction rest as [|a rest IH]; intros seen groups H; cbn [fold_left].
  - rewrite app_nil_r. exact H.
  - replace (seen ++ a :: rest) with ((seen ++ [a]) ++ rest)
      by (rewrite <- app_assoc; reflexivity).
    apply IH. apply (push_group_grouped_so_far seen a groups H).
Qed.

Lemma grouped_stops_members (addresses : list Address) :
  Forall
    (fun s : Stop =>
       expandGroupedRoute [s] = at_key (locationKey s) addresses
       /\ at_key (locationKey s) addresses <> []
       /\ (groupedAddresses s = None
           <-> at_key (locationKey s) addresses = [addr s]))
    (groupSameLocationAddresses addresses)
  /\ map (fun s : Stop => locationKey s) (groupSameLocationAddresses addresses)
     = map fst (locationGroups addresses).
Proof.
  destruct (locationGroups_grouped_so_far addresses) as [Hkeys [Hall _]].
  destruct (locationGroups_invariant addresses) as [_ Hkeyed].
  unfold groupSameLocationAddresses.
  induction Hall as [|[k g] groups [Hg Hne] _ IH]; cbn [flat_map map].
  - split; constructor.
  - inversion Hkeys as [|? ? _ Hkeys']. subst.
    inversion Hkeyed as [|? ? [_ Hmembers] Hkeyed']. subst.
    destruct (IH Hkeys' Hkeyed') as [IH1 IH2]. clear IH.
    cbn [fst snd] in Hg, Hne, Hmembers.
    rewrite map_app, IH2. cbn [fst].
    destruct g as [|a [|b g]]; [congruence| |].
    + inversion Hmembers as [|? ? Ha _]. subst.
      change (normalizeAddressForGrouping (address a)) with (locationKey a) in *.
      split; [|reflexivity].
      apply Forall_app. split; [|exact IH1].
      constructor; [|constructor]. cbn [addr groupedAddresses].
      rewrite <- Hg. unfold expandGroupedRoute. cbn.
      split; [reflexivity|]. split; [discriminate|]. split; reflexivity.
    + inversion Hmembers as [|? ? Ha _]. subst.
      change (normalizeAddressForGrouping (address a)) with (locationKey a) in *.
      split; [|reflexivity].
      apply Forall_app. split; [|exact IH1].
      constructor; [|constructor].
      assert (Ek : locationKey (representative (locationKey a) a (a :: b :: g))
                   = locationKey a) by reflexivity.
      rewrite Ek, <- Hg. split; [|split; [discriminate|]].
      * unfold expandGroupedRoute.
        cbn [flat_map representative groupedAddresses]. apply app_nil_r.
      * cbn [representative groupedAddresses].
        split; intro H; discriminate H.
Qed.

Lemma grouped_keys_NoDup (addresses : list Address) :
  NoDup (map (fun s : Stop => locationKey s) (groupSameLocationAddresses addresses)).
Proof.
  rewrite (proj2 (grouped_stops_members addresses)).
  exact (proj1 (locationGroups_grouped_so_far addresses)).
Qed.

Lemma expandGroupedRoute_members (members : Stop -> list Address)
  (route : list Stop) :
  Forall (fun s : Stop => expandGroupedRoute [s] = members s) route ->
  expandGroupedRoute route = flat_map members route.
Proof.
  intro H. induction H as [|s route Hs _ IH]; [reflexivity|].
  change (expandGroupedRoute (s :: route))
    with (match groupedAddresses s with
          | Some group => group
          | None => [addr s]
          end ++ expandGroupedRoute route).
  cbn [flat_map]. rewrite IH, <- Hs.
  unfold expandGroupedRoute. cbn [flat_map]. rewrite app_nil_r. reflexivity.
Qed.

(** Up to 100 groups, the output of [optimizeRoute] on more than 2 stops is
    the grouped list in some order, with every group replaced by its members
    in input order. *)
Lemma optimizeRoute_groups_contiguous (this : RouteOptimizer)
  (addresses : list Address) (startLocation : option Location) :
  2 < List.length addresses ->
  List.length (groupSameLocationAddresses addresses) <= 100 ->
  exists route,
    Permutation route (groupSameLocationAddresses addresses)
    /\ NoDup (map (fun s : Stop => locationKey s) route)
    /\ snd (optimizeRoute this addresses startLocation)
       = flat_map (fun s : Stop => at_key (locationKey s) addresses) route.
Proof.
  intros H2 H100. unfold optimizeRoute.
  destruct (List.length addresses <=? 2) eqn:E; [apply Nat.leb_le in E; lia|].
  cbv zeta. cbn [snd].
  set (grouped := groupSameLocationAddresses addresses) in *.
  set (this' := mkRouteOptimizer (googleMapsApiKey this) (Some grouped)).
  set (distanceMatrix := buildDistanceMatrix this' grouped).
  set (route := applyLocalSearchImprovements this'
                  (construct this' grouped distanceMatrix startLocation)
                  distanceMatrix).
  assert (Hp : Permutation route grouped).
  { unfold route, applyLocalSearchImprovements. rewrite local_search_loop_perm.
    apply construct_perm. exact H100. }
  exists route. split; [exact Hp|]. split.
  - eapply Permutation_NoDup; [|apply (grouped_keys_NoDup addresses)].
    apply Permutation_map. symmetry. exact Hp.
  - apply expandGroupedRoute_members.
    eapply Permutation_Forall; [symmetry; exact Hp|].
    eapply Forall_impl; [|exact (proj1 (grouped_stops_members addresses))].
    intros s [Hs _]. exact Hs.
Qed.

(** C2 (amended). The tier is a function of the number of stops and of the
    number [n] of groups: at most 2 stops give the input back unchanged;
    otherwise [n <= 25] (1 and 2 included) runs the three construction
    heuristics and keeps a route of least total distance among their results,
    [26 <= n <= 100] runs nearest neighbour, 2-opt, Or-opt, and [n > 100] runs
    the cluster pipeline; the local search and the expansion follow in the
    three non-trivial tiers. When more than 2 stops make at most 100 groups
    (so also when they make 2 or fewer), the output lists the groups in some
    order, each group once and its members side by side in input order. *)
Theorem optimizeRoute_tiers (this : RouteOptimizer) (addresses : list Address)
  (startLocation : option Location) :
  let grouped := groupSameLocationAddresses addresses in
  let this' := mkRouteOptimizer (googleMapsApiKey this) (Some grouped) in
  let distanceMatrix := buildDistanceMatrix this' grouped in
  let finish route :=
    expandGroupedRoute (applyLocalSearchImprovements this' route distanceMatrix) in
  snd (optimizeRoute this addresses startLocation)
  = match tier_of (List.length addresses) (List.length grouped) with
    | Trivial => addresses
    | ExactIsh =>
        finish (advancedTSPOptimization this' grouped distanceMatrix startLocation)
    | Hybrid =>
        finish
          (applyOrOptImprovement this'
             (apply2OptImprovement this'
                (nearestNeighborWithMatrix this' grouped distanceMatrix startLocation)
                distanceMatrix)
             distanceMatrix)
    | Cluster =>
        finish (clusterBasedOptimization this' grouped distanceMatrix startLocation)
    end
  /\ In (advancedTSPOptimization this' grouped distanceMatrix startLocation)
        (heuristics this' grouped distanceMatrix startLocation)
  /\ (forall r, In r (heuristics this' grouped distanceMatrix startLocation) ->
       (calculateTotalDistance this'
          (advancedTSPOptimization this' grouped distanceMatrix startLocation)
          (Some distanceMatrix)
        <= calculateTotalDistance this' r (Some distanceMatrix))%Q)
  /\ (2 < List.length addresses -> List.length grouped <= 100 ->
      exists route,
        Permutation route grouped
        /\ NoDup (map (fun s : Stop => locationKey s) route)
        /\ snd (optimizeRoute this addresses startLocation)
           = flat_map (fun s : Stop => at_key (locationKey s) addresses) route).
Proof.
  intros grouped this' distanceMatrix finish.
  split; [apply optimizeRoute_dispatch|].
  destruct (advancedTSPOptimization_least this' grouped distanceMatrix startLocation)
    as [Hin Hleast].
  split; [exact Hin|]. split; [exact Hleast|].
  apply optimizeRoute_groups_contiguous.
Qed.

(** ** Further properties *)

(** *** Grouping *)

(** X1. Every stop of the grouped list stands for exactly the input stops that
    have its normalized address, in input order: expanding it gives them
    back. It carries no [groupedAddresses] exactly when it is one input stop,
    and it is then that stop. No two stops of the grouped list have the same
    normalized address, and expanding the whole list gives a permutation of
    the input. *)
Theorem groupSameLocationAddresses_members (addresses : list Address) :
  Forall
    (fun s : Stop =>
       expandGroupedRoute [s] = at_key (locationKey s) addresses
       /\ at_key (locationKey s) addresses <> []
       /\ (groupedAddresses s = None
           <-> at_key (locationKey s) addresses = [addr s]))
    (groupSameLocationAddresses addresses)
  /\ NoDup (map (fun s : Stop => locationKey s) (groupSameLocationAddresses addresses))
  /\ Permutation (expandGroupedRoute (groupSameLocationAddresses addresses))
       addresses.
Proof.
  split; [exact (proj1 (grouped_stops_members addresses))|]. split.
  - apply grouped_keys_NoDup.
  - rewrite expand_groupSameLocationAddresses. apply locationGroups_perm.
Qed.

(** *** The whole pipeline *)

(** X2. When the grouping leaves at most 100 locations, the route
    [optimizeRoute] returns is a permutation of the stops it was given: no
    stop is lost, none is visited twice. *)
Theorem optimizeRoute_keeps_stops (this : RouteOptimizer)
  (addresses : list Address) (startLocation : option Location) :
  List.length (groupSameLocationAddresses addresses) <= 100 ->
  Permutation (snd (optimizeRoute this addresses startLocation)) addresses
  /\ List.length (snd (optimizeRoute this addresses startLocation))
     = List.length addresses.
Proof.
  intro Hlen.
  pose proof (optimizeRoute_perm this addresses startLocation Hlen) as Hp.
  split; [exact Hp|]. apply Permutation_length. exact Hp.
Qed.

Lemma distinct_centersb_spec (centers : list Stop) :
  distinct_centersb centers = true -> distinct_centers centers.
Proof.
  induction centers as [|c centers IH]; intros H p q cp cq Hlt Hp Hq.
  - destruct p; discriminate.
  - cbn [distinct_centersb] in H. apply andb_true_iff in H. destruct H as [Hc Hrest].
    destruct q as [|q]; [lia|]. cbn [nth_error] in Hq.
    destruct p as [|p].
    + cbn [nth_error] in Hp. inversion Hp. subst cp.
      rewrite forallb_forall in Hc.
      apply nth_error_In in Hq. specialize (Hc cq Hq).
      apply negb_true_iff in Hc. exact Hc.
    + cbn [nth_error] in Hp. apply (IH Hrest p q cp cq); [lia|assumption|assumption].
Qed.

(** X3. Above 100 locations, the route [optimizeRoute] returns is a
    permutation of the stops it was given provided no centroid of a cluster
    lies within 0.0001 degrees, in both coordinates, of the centroid of an
    earlier cluster. *)
Theorem optimizeRoute_keeps_stops_in_clusters (this : RouteOptimizer)
  (addresses : list Address) (startLocation : option Location) :
  let grouped := groupSameLocationAddresses addresses in
  let this' := mkRouteOptimizer (googleMapsApiKey this) (Some grouped) in
  let distanceMatrix := buildDistanceMatrix this' grouped in
  100 < List.length grouped ->
  distinct_centers
    (map clusterCenter (optimizedClusters this' grouped distanceMatrix)) ->
  Permutation (snd (optimizeRoute this addresses startLocation)) addresses.
Proof.
  intros grouped this' distanceMatrix Hlen Hd. unfold optimizeRoute.
  destruct (List.length addresses <=? 2); [reflexivity|]. cbn [snd].
  fold grouped. fold this'. fold distanceMatrix.
  apply Permutation_trans with (expandGroupedRoute grouped).
  2:{ unfold grouped. rewrite expand_groupSameLocationAddresses.
      apply locationGroups_perm. }
  apply expandGroupedRoute_perm.
  unfold applyLocalSearchImprovements. rewrite local_search_loop_perm.
  unfold construct.
  destruct (Nat.leb_spec (List.length grouped) 25); [lia|].
  destruct (Nat.leb_spec (List.length grouped) 100); [lia|].
  apply clusterBasedOptimization_perm. exact Hd.
Qed.


(** *** Local search *)

Lemma same_ends_refl (l : list Stop) : same_ends l l.
Proof. split; reflexivity. Qed.

Lemma same_ends_trans (l1 l2 l3 : list Stop) :
  same_ends l1 l2 -> same_ends l2 l3 -> same_ends l1 l3.
Proof.
  intros [H1 L1] [H2 L2]. split.
  - rewrite H2. exact H1.
  - intro x. rewrite L2. apply L1.
Qed.

Lemma last_after {A : Type} (l1 : list A) (d : A) (l2 : list A) (x : A) :
  last (l1 ++ d :: l2) x = last (d :: l2) x.
Proof.
  induction l1 as [|y l1 IH]; [reflexivity|].
  change ((y :: l1) ++ d :: l2) with (y :: (l1 ++ d :: l2)).
  destruct (l1 ++ d :: l2) eqn:E.
  - destruct l1; discriminate.
  - rewrite <- E in *. cbn [last]. rewrite E. rewrite <- E. exact IH.
Qed.

(** Reversing an inner segment leaves the two ends of the route alone. *)
Lemma same_ends_segment (pre : list Stop) (a : Stop) (seg seg' : list Stop)
  (d : Stop) (post : list Stop) :
  same_ends (pre ++ a :: seg ++ d :: post) (pre ++ a :: seg' ++ d :: post).
Proof.
  split.
  - destruct pre; reflexivity.
  - intro x.
    replace (pre ++ a :: seg ++ d :: post) with ((pre ++ a :: seg) ++ d :: post)
      by (rewrite <- app_assoc; reflexivity).
    replace (pre ++ a :: seg' ++ d :: post) with ((pre ++ a :: seg') ++ d :: post)
      by (rewrite <- app_assoc; reflexivity).
    rewrite !last_after. reflexivity.
Qed.

Lemma two_opt_step_ends (this : RouteOptimizer) (matrix : Matrix)
  (state : list Stop * bool) (i j : nat) :
  1 <= i -> i < j ->
  same_ends (fst state) (fst (two_opt_step this matrix state (i, j))).
Proof.
  intros Hi Hij. destruct state as [improved found]. unfold two_opt_step.
  destruct (item improved (i - 1)) as [a|] eqn:Ia; [|apply same_ends_refl].
  destruct (item improved i) as [b|] eqn:Ib; [|apply same_ends_refl].
  destruct (item improved j) as [c|] eqn:Ic; [|apply same_ends_refl].
  destruct (item improved (j + 1)) as [d|] eqn:Id; [|apply same_ends_refl].
  destruct (Qltb _ _); [|apply same_ends_refl]. cbn [fst].
  assert (Hlen : j + 1 < List.length improved).
  { apply nth_error_Some. unfold item in Id. rewrite Id. discriminate. }
  destruct (split_route improved i j Hi Hij Hlen)
    as [pre [a' [b' [mid [c' [d' [post [E [Lpre Lmid]]]]]]]]].
  destruct (split_route_items pre a' b' mid c' d' post i j Hi Hij Lpre Lmid)
    as [_ [_ [_ [_ Erev]]]].
  rewrite <- E in Erev. rewrite Erev. rewrite E at 1.
  apply same_ends_segment.
Qed.

Lemma two_opt_fold_ends (this : RouteOptimizer) (matrix : Matrix)
  (pairs : list (nat * nat)) (state : list Stop * bool) :
  (forall i j, In (i, j) pairs -> 1 <= i /\ i < j) ->
  same_ends (fst state) (fst (fold_left (two_opt_step this matrix) pairs state)).
Proof.
  revert state. induction pairs as [|[i j] pairs IH]; intros state Hvalid.
  - apply same_ends_refl.
  - cbn [fold_left].
    destruct (Hvalid i j (or_introl eq_refl)) as [Hi Hij].
    apply (same_ends_trans _ (fst (two_opt_step this matrix state (i, j)))).
    + apply two_opt_step_ends; assumption.
    + apply IH. intros i' j' Hin. apply Hvalid. right. exact Hin.
Qed.

Lemma two_opt_loop_ends (this : RouteOptimizer) (matrix : Matrix) (fuel : nat)
  (improved : list Stop) :
  same_ends improved (two_opt_loop this matrix fuel improved).
Proof.
  revert improved. induction fuel as [|fuel IH]; intro improved; cbn [two_opt_loop].
  - apply same_ends_refl.
  - pose proof (two_opt_fold_ends this matrix
                  (two_opt_pairs (List.length improved)) (improved, false)
                  (fun i j => two_opt_pairs_valid (List.length improved) i j)) as H.
    fold (two_opt_pass this matrix improved) in H.
    destruct (two_opt_pass this matrix improved) as [improved' found].
    cbn [fst] in H. destruct found; [|exact H].
    apply (same_ends_trans _ improved'); [exact H|apply IH].
Qed.

(** X5. [apply2OptImprovement] rearranges the inside of a route only: its
    result is a permutation of the route with the same first stop and the
    same last stop. *)
Theorem apply2OptImprovement_keeps_ends (this : RouteOptimizer)
  (route : list Stop) (matrix : Matrix) :
  Permutation (apply2OptImprovement this route matrix) route
  /\ hd_error (apply2OptImprovement this route matrix) = hd_error route
  /\ forall x, last (apply2OptImprovement this route matrix) x = last route x.
Proof.
  split; [apply apply2OptImprovement_sound|].
  unfold apply2OptImprovement. destruct (List.length route <? 4).
  - split; reflexivity.
  - apply (two_opt_loop_ends this matrix (Nat.min 20 (List.length route)) route).
Qed.

Lemma nearestNeighborWithMatrix_first (this : RouteOptimizer)
  (addresses : list Stop) (matrix : Matrix) (start : option Location) :
  hd_error (nearestNeighborWithMatrix this addresses matrix start)
  = nth_error addresses (start_position addresses start).
Proof.
  destruct addresses as [|x [|y l]].
  - destruct start; reflexivity.
  - destruct start as [s|]; [|reflexivity].
    unfold start_position. cbn [findIndex nearestNeighborWithMatrix hd_error].
    destruct (near_start s x); reflexivity.
  - destruct (nearestNeighborWithMatrix_route this matrix (x :: y :: l) start)
      as [first [rest [E [Hn _]]]]; [cbn [List.length]; lia|].
    rewrite E, Hn. reflexivity.
Qed.

(** X6. The route of the small tier begins where the construction begins:
    the first stop of [christofidesApproximation] and of
    [advancedTSPOptimization] is the first stop within 0.001 degrees of the
    start location, or the first stop of the input when there is none or no
    start location is given. *)
Theorem advancedTSPOptimization_first_stop (this : RouteOptimizer)
  (addresses : list Stop) (distanceMatrix : Matrix)
  (startLocation : option Location) :
  hd_error (christofidesApproximation this addresses distanceMatrix startLocation)
  = nth_error addresses (start_position addresses startLocation)
  /\ hd_error (advancedTSPOptimization this addresses distanceMatrix startLocation)
     = nth_error addresses (start_position addresses startLocation).
Proof.
  assert (Hn := nearestNeighborWithMatrix_first this addresses distanceMatrix
                  startLocation).
  assert (Hc : hd_error
                 (christofidesApproximation this addresses distanceMatrix startLocation)
               = nth_error addresses (start_position addresses startLocation)).
  { unfold christofidesApproximation. destruct (List.length addresses <=? 5).
    - rewrite greedyTSP_nearestNeighbor. exact Hn.
    - unfold apply2OptImprovement. destruct (List.length _ <? 4); [exact Hn|].
      rewrite (proj1 (two_opt_loop_ends this distanceMatrix _ _)). exact Hn. }
  split; [exact Hc|].
  destruct (advancedTSPOptimization_least this addresses distanceMatrix startLocation)
    as [Hin _].
  destruct Hin as [E|[E|[E|[]]]]; rewrite <- E.
  - exact Hn.
  - rewrite greedyTSP_nearestNeighbor. exact Hn.
  - exact Hc.
Qed.

(** X7. [applyOrOptImprovement] keeps the stops of a route and never makes
    it longer, whatever the distance matrix: it accepts a relocation only
    when the whole route, measured again, is strictly shorter. *)
Theorem applyOrOptImprovement_monotonic (this : RouteOptimizer)
  (route : list Stop) (matrix : Matrix) :
  Permutation (applyOrOptImprovement this route matrix) route
  /\ (calculateTotalDistance this (applyOrOptImprovement this route matrix)
        (Some matrix)
      <= calculateTotalDistance this route (Some matrix))%Q.
Proof.
  destruct (applyOrOptImprovement_sound this matrix route) as [Hp Hc].
  split; [exact Hp|].
  rewrite !calculateTotalDistance_path_cost. exact Hc.
Qed.

(** X8. [applyLocalSearchImprovements] keeps the stops of a route, whatever
    the distance matrix and however its comparisons turn out: what it returns
    is a permutation of what it was given, of the same length, and a route of
    fewer than 4 stops comes back as it is. *)
Theorem applyLocalSearchImprovements_keeps_stops (this : RouteOptimizer)
  (route : list Stop) (matrix : Matrix) :
  Permutation (applyLocalSearchImprovements this route matrix) route
  /\ List.length (applyLocalSearchImprovements this route matrix)
     = List.length route
  /\ (List.length route < 4 ->
      applyLocalSearchImprovements this route matrix = route).
Proof.
  assert (Hp : Permutation (applyLocalSearchImprovements this route matrix) route).
  { unfold applyLocalSearchImprovements. apply local_search_loop_perm. }
  split; [exact Hp|]. split.
  - apply Permutation_length. exact Hp.
  - apply applyLocalSearchImprovements_short.
Qed.

(** *** The geometric matrix *)

Lemma cell_buildHaversineMatrix_outside (addresses : list Stop) (i j : nat) :
  nth_error addresses i = None \/ nth_error addresses j = None ->
  cell (buildHaversineMatrix addresses) i j = None.
Proof.
  intro H. unfold cell, buildHaversineMatrix. rewrite nth_error_map.
  destruct (nth_error (indexed addresses) i) as [ia|] eqn:Ei; [|reflexivity].
  cbn [option_map]. rewrite nth_error_map.
  destruct (nth_error (indexed addresses) j) as [jb|] eqn:Ej; [|reflexivity].
  exfalso.
  assert (Hi : i < List.length addresses).
  { rewrite <- (length_indexed addresses). apply nth_error_Some. congruence. }
  assert (Hj : j < List.length addresses).
  { rewrite <- (length_indexed addresses). apply nth_error_Some. congruence. }
  destruct H as [H|H]; apply nth_error_None in H; lia.
Qed.

Lemma getMatrixDistance_buildHaversineMatrix (this : RouteOptimizer)
  (addresses : list Stop) (a b : Stop) :
  getMatrixDistance this a b (buildHaversineMatrix addresses)
  = match findAddressIndex this a, findAddressIndex this b with
    | Some i, Some j =>
        match nth_error addresses i, nth_error addresses j with
        | Some x, Some y => if i =? j then 0%Q else distanceBetween x y
        | _, _ => distanceBetween a b
        end
    | _, _ => distanceBetween a b
    end.
Proof.
  unfold getMatrixDistance.
  destruct (findAddressIndex this a) as [i|]; [|reflexivity].
  destruct (findAddressIndex this b) as [j|]; [|reflexivity].
  destruct (nth_error addresses i) as [x|] eqn:Ex.
  - destruct (nth_error addresses j) as [y|] eqn:Ey.
    + rewrite (cell_buildHaversineMatrix addresses i j x y Ex Ey). reflexivity.
    + rewrite cell_buildHaversineMatrix_outside by auto. reflexivity.
  - rewrite cell_buildHaversineMatrix_outside by auto. reflexivity.
Qed.

(** X9. A lookup in the matrix [buildHaversineMatrix] builds: when the two
    stops are found at the positions [i] and [j] of [originalAddresses] and
    both positions are inside the matrix, [getMatrixDistance] returns [0] for
    [i = j] and otherwise the [calculateDistance] between the stops the
    matrix was built from at [i] and at [j]; in every other case it returns
    the [calculateDistance] between the two stops themselves. The lookups do
    not depend on the direction when [calculateDistance] does not. *)
Theorem getMatrixDistance_geometric (this : RouteOptimizer)
  (addresses : list Stop) (a b : Stop) :
  getMatrixDistance this a b (buildHaversineMatrix addresses)
  = match findAddressIndex this a, findAddressIndex this b with
    | Some i, Some j =>
        match nth_error addresses i, nth_error addresses j with
        | Some x, Some y => if i =? j then 0%Q else distanceBetween x y
        | _, _ => distanceBetween a b
        end
    | _, _ => distanceBetween a b
    end
  /\ (symmetric_distance ->
      (getMatrixDistance this a b (buildHaversineMatrix addresses)
       == getMatrixDistance this b a (buildHaversineMatrix addresses))%Q).
Proof.
  split; [apply getMatrixDistance_buildHaversineMatrix|].
  intro Hsym. rewrite !getMatrixDistance_buildHaversineMatrix.
  assert (Hfall : (distanceBetween a b == distanceBetween b a)%Q) by apply Hsym.
  destruct (findAddressIndex this a) as [i|], (findAddressIndex this b) as [j|];
    try exact Hfall.
  destruct (nth_error addresses i) as [x|], (nth_error addresses j) as [y|];
    try exact Hfall.
  rewrite (Nat.eqb_sym j i). destruct (i =? j); [reflexivity|apply Hsym].
Qed.

Lemma shaped_buildHaversineMatrix (addresses : list Stop) :
  shaped (List.length addresses) (buildHaversineMatrix addresses).
Proof.
  unfold shaped, buildHaversineMatrix. split.
  - rewrite length_map. apply length_indexed.
  - apply Forall_forall. intros row Hin. apply in_map_iff in Hin.
    destruct Hin as [ia [<- _]]. rewrite length_map. apply length_indexed.
Qed.

(** X10. Whatever the provider answers, and with or without an API key,
    [buildDistanceMatrix] returns a table with one row per stop and one cell
    per stop in every row. *)
Theorem buildDistanceMatrix_shape (this : RouteOptimizer) (addresses : list Stop) :
  List.length (buildDistanceMatrix this addresses) = List.length addresses
  /\ Forall (fun row => List.length row = List.length addresses)
       (buildDistanceMatrix this addresses).
Proof.
  unfold buildDistanceMatrix.
  destruct (String.eqb (googleMapsApiKey this) "");
    [apply shaped_buildHaversineMatrix|].
  destruct (provider_matrix addresses) as [m|] eqn:Hm;
    [|apply shaped_buildHaversineMatrix].
  unfold provider_matrix in Hm. cbv zeta in Hm.
  pose proof (batches_filled addresses (batches (List.length addresses))
                (fun _ => False)
                (Some (repeat (repeat (Some 0%Q) (List.length addresses))
                              (List.length addresses)))) as F.
  rewrite Hm in F. destruct F as [Hshape _].
  - intros b Hb. apply batches_spec. exact Hb.
  - split; [apply shaped_zeros|]. intros ? ? _ _ [].
  - exact Hshape.
Qed.

(** *** The legacy nearest-neighbour construction and the clusters *)




Lemma length_initial_centers (addresses : list Stop) (count : nat) :
  List.length (initial_centers addresses count) <= count.
Proof.
  unfold initial_centers.
  enough (G : forall start n,
             List.length
               (flat_map
                  (fun i =>
                     match nth_error addresses (i * List.length addresses / count) with
                     | Some a => [(latitude a, longitude a)]
                     | None => []
                     end)
                  (seq start n)) <= n) by apply G.
  intros start n. revert start. induction n as [|n IH]; intro start; cbn [seq flat_map].
  - apply Nat.le_refl.
  - rewrite length_app. specialize (IH (S start)).
    destruct (nth_error addresses _); cbn [List.length]; lia.
Qed.

Lemma length_clusters_fold (centers : list (Q * Q)) (processed : list Stop)
  (clusters : list (list Stop)) :
  List.length
    (fold_left (fun clusters a => push_at (nearestCluster centers a) a clusters)
       processed clusters)
  = List.length clusters.
Proof.
  revert clusters. induction processed as [|a processed IH]; intro clusters;
    cbn [fold_left]; [reflexivity|].
  rewrite IH. apply length_push_at.
Qed.

(** X12. For a positive [count], [createSmartClusters] splits the stops into
    at most [count] clusters, none of them empty, that together hold every
    stop exactly once. (With [count = 0] and a stop to place, the source
    files every stop under index 0; the callers never pass 0 then, and the
    embedding covers the positive counts.) *)
Theorem createSmartClusters_partition (addresses : list Stop) (count : nat) :
  1 <= count ->
  Permutation (List.concat (createSmartClusters addresses count)) addresses
  /\ Forall (fun cluster => cluster <> []) (createSmartClusters addresses count)
  /\ List.length (createSmartClusters addresses count) <= count.
Proof.
  intro Hcount. split; [apply createSmartClusters_perm; exact Hcount|].
  unfold createSmartClusters.
  destruct (Nat.leb_spec (List.length addresses) count) as [Hle|Hgt].
  - split.
    + apply Forall_forall. intros c Hc. apply in_map_iff in Hc.
      destruct Hc as [a [<- _]]. discriminate.
    + rewrite length_map. exact Hle.
  - split.
    + apply Forall_forall. intros c Hc. apply filter_In in Hc.
      destruct Hc as [_ Hc]. destruct c; [discriminate|discriminate].
    + eapply Nat.le_trans; [apply filter_length_le|].
      rewrite length_clusters_fold, repeat_length.
      apply length_initial_centers.
Qed.

(** X13. While [optimizeRoute] runs on a grouped list whose ids are pairwise
    distinct, [findAddressIndex] resolves every stop of the list to its own
    position, so [getMatrixDistance] between two stops of the list is the
    matrix cell of the pair whenever that cell is defined. *)
Theorem findAddressIndex_position (this : RouteOptimizer) (grouped : list Stop)
  (matrix : Matrix) (p : nat) (a : Stop) :
  originalAddresses this = Some grouped ->
  NoDup (ids grouped) ->
  nth_error grouped p = Some a ->
  findAddressIndex this a = Some p
  /\ forall q b d,
       nth_error grouped q = Some b -> cell matrix p q = Some d ->
       getMatrixDistance this a b matrix = d.
Proof.
  intros Ho Hids Ha.
  assert (Hfind : forall r c, nth_error grouped r = Some c ->
            findIndex (fun o : Stop => String.eqb (id o) (id c)) grouped = Some r).
  { clear p a Ha Ho. intros r c. revert r Hids.
    induction grouped as [|x l IH]; intros r Hids Hr; [destruct r; discriminate|].
    cbn [ids map] in Hids. apply NoDup_cons_iff in Hids. destruct Hids as [Hx Hl].
    cbn [findIndex]. destruct r as [|r].
    - inversion Hr. subst. rewrite String.eqb_refl. reflexivity.
    - cbn [nth_error] in Hr.
      destruct (String.eqb (id x) (id c)) eqn:E.
      + apply String.eqb_eq in E. exfalso. apply Hx. rewrite E.
        apply nth_error_In in Hr. apply (in_map (fun s : Stop => id s)) in Hr.
        exact Hr.
      + rewrite (IH r Hl Hr). reflexivity. }
  assert (Hidx : forall r c, nth_error grouped r = Some c ->
            findAddressIndex this c = Some r).
  { intros r c Hr. unfold findAddressIndex. rewrite Ho. apply Hfind. exact Hr. }
  split; [apply Hidx; exact Ha|].
  intros q b d Hb Hd. unfold getMatrixDistance.
  rewrite (Hidx p a Ha), (Hidx q b Hb), Hd. reflexivity.
Qed.

Lemma prefix_group (k : string) :
  String.prefix "group_" ("group_" ++ k) = true.
Proof. destruct k; reflexivity. Qed.

Lemma grouped_ids_from (groups : list (string * list Address)) (x : string) :
  In x
    (ids
       (flat_map
          (fun entry : string * list Address =>
             let (locationKey, group) := entry in
             match group with
             | [] => []
             | [a] => [mkStop a None]
             | first :: _ => [representative locationKey first group]
             end)
          groups)) ->
  (exists a, In a (List.concat (map snd groups)) /\ x = id a)
  \/ (exists k, In k (map fst groups) /\ x = ("group_" ++ k)%string).
Proof.
  induction groups as [|[k g] groups IH]; cbn [flat_map]; [intros []|].
  unfold ids. rewrite map_app. intro H. apply in_app_or in H.
  cbn [map snd fst List.concat].
  destruct H as [H|H].
  - destruct g as [|a [|b g]]; [destruct H| |].
    + destruct H as [<-|[]]. left. exists a. split; [left; reflexivity|reflexivity].
    + destruct H as [<-|[]]. right. exists k. split; [left; reflexivity|reflexivity].
  - destruct (IH H) as [[a [Ha E]]|[k' [Hk E]]].
    + left. exists a. split; [apply in_or_app; right; exact Ha|exact E].
    + right. exists k'. split; [right; exact Hk|exact E].
Qed.

(** X14. When the ids of the input stops are pairwise distinct and none of
    them begins with [group_], the ids of the grouped list are pairwise
    distinct as well, so that the lookups of the run resolve every grouped
    stop to its own row of the matrix. *)
Theorem groupSameLocationAddresses_ids (addresses : list Address) :
  NoDup (map id addresses) ->
  Forall (fun a => String.prefix "group_" (id a) = false) addresses ->
  NoDup (ids (groupSameLocationAddresses addresses))
  /\ forall p s,
       nth_error (groupSameLocationAddresses addresses) p = Some s ->
       findAddressIndex (during (groupSameLocationAddresses addresses)) s = Some p.
Proof.
  intros Hids Hprefix.
  assert (Hnodup : NoDup (ids (groupSameLocationAddresses addresses))).
  { pose proof (locationGroups_perm addresses) as Hperm.
    destruct (locationGroups_invariant addresses) as [Hkeys _].
    assert (Hids' : NoDup (map id (List.concat (map snd (locationGroups addresses))))).
    { apply (Permutation_NoDup (l := map id addresses)); [|exact Hids].
      apply Permutation_map. symmetry. exact Hperm. }
    assert (Hprefix' : forall a, In a (List.concat (map snd (locationGroups addresses))) ->
                                 String.prefix "group_" (id a) = false).
    { intros a Ha. rewrite Forall_forall in Hprefix. apply Hprefix.
      apply (Permutation_in _ Hperm Ha). }
    unfold groupSameLocationAddresses.
    clear Hperm Hids Hprefix.
    induction (locationGroups addresses) as [|[k g] groups IH]; cbn [flat_map].
    - constructor.
    - cbn [map snd fst List.concat] in Hids', Hprefix', Hkeys.
      apply NoDup_cons_iff in Hkeys. destruct Hkeys as [Hk Hkeys].
      rewrite map_app in Hids'.
      assert (Hrest : NoDup (map id (List.concat (map snd groups))))
        by (apply NoDup_app_remove_l in Hids'; exact Hids').
      specialize (IH Hkeys Hrest
                    (fun a Ha => Hprefix' a (in_or_app _ _ _ (or_intror Ha)))).
      unfold ids in *. rewrite map_app.
      destruct g as [|a [|b g]]; [exact IH| |].
      + cbn [map app addr]. constructor; [|exact IH].
        intro Hin. apply grouped_ids_from in Hin.
        destruct Hin as [[a' [Ha' E]]|[k' [_ E]]].
        * cbn [map app] in Hids'. apply NoDup_cons_iff in Hids'.
          destruct Hids' as [Hnot _]. apply Hnot. rewrite E.
          apply in_map. exact Ha'.
        * cbn [id] in E.
          pose proof (Hprefix' a (or_introl eq_refl)) as Hp.
          rewrite E, prefix_group in Hp. discriminate Hp.
      + cbn [map app representative addr id]. constructor; [|exact IH].
        intro Hin. apply grouped_ids_from in Hin.
        destruct Hin as [[a' [Ha' E]]|[k' [Hk' E]]].
        * pose proof (Hprefix' a' (in_or_app _ _ _ (or_intror Ha'))) as Hp.
          rewrite <- E, prefix_group in Hp. discriminate Hp.
        * apply Hk. cbn in E. inversion E. subst. exact Hk'. }
  split; [exact Hnodup|].
  intros p s Hs. unfold findAddressIndex, during. cbn [originalAddresses].
  revert p Hs Hnodup.
  induction (groupSameLocationAddresses addresses) as [|x l IH]; intros p Hs Hnodup;
    [destruct p; discriminate|].
  cbn [ids map] in Hnodup. apply NoDup_cons_iff in Hnodup.
  destruct Hnodup as [Hx Hl]. cbn [findIndex]. destruct p as [|p].
  - inversion Hs. subst. rewrite String.eqb_refl. reflexivity.
  - cbn [nth_error] in Hs. destruct (String.eqb (id x) (id s)) eqn:E.
    + apply String.eqb_eq in E. exfalso. apply Hx. rewrite E.
      apply nth_error_In in Hs. apply (in_map (fun s : Stop => id s)) in Hs.
      exact Hs.
    + rewrite (IH p Hs Hl). reflexivity.
Qed.

(** *** Geocoding *)

Lemma toInt32_quotient (x : Z) :
  toInt32 x = (x - 2 ^ 32 * ((x + 2 ^ 31) / 2 ^ 32))%Z.
Proof.
  unfold toInt32. rewrite Z.mod_eq by lia. lia.
Qed.

Lemma toInt32_shift (x k : Z) : toInt32 (x + k * 2 ^ 32) = toInt32 x.
Proof.
  unfold toInt32.
  replace (x + k * 2 ^ 32 + 2 ^ 31)%Z with (x + 2 ^ 31 + k * 2 ^ 32)%Z by lia.
  rewrite Z_mod_plus_full. reflexivity.
Qed.

Lemma toInt32_range (x : Z) : (- 2 ^ 31 <= toInt32 x < 2 ^ 31)%Z.
Proof.
  unfold toInt32.
  pose proof (Z.mod_pos_bound (x + 2 ^ 31) (2 ^ 32) ltac:(lia)). lia.
Qed.

Lemma hash_step_polynomial (h : Z) (c : ascii) :
  hash_step h c = toInt32 (31 * h + charCode c).
Proof.
  unfold hash_step. rewrite Z.shiftl_mul_pow2 by lia.
  rewrite (toInt32_quotient (toInt32 h * 2 ^ 5)), (toInt32_quotient h).
  set (q1 := ((h + 2 ^ 31) / 2 ^ 32)%Z).
  set (q2 := (((h - 2 ^ 32 * q1) * 2 ^ 5 + 2 ^ 31) / 2 ^ 32)%Z).
  replace ((h - 2 ^ 32 * q1) * 2 ^ 5 - 2 ^ 32 * q2 - h + charCode c)%Z
    with (31 * h + charCode c + (- (32 * q1) - q2) * 2 ^ 32)%Z by lia.
  apply toInt32_shift.
Qed.

Lemma hash_step_wrapped (a : Z) (c : ascii) :
  hash_step (toInt32 a) c = toInt32 (31 * a + charCode c).
Proof.
  rewrite hash_step_polynomial, (toInt32_quotient a).
  set (q := ((a + 2 ^ 31) / 2 ^ 32)%Z).
  replace (31 * (a - 2 ^ 32 * q) + charCode c)%Z
    with (31 * a + charCode c + (- (31 * q)) * 2 ^ 32)%Z by lia.
  apply toInt32_shift.
Qed.

Lemma fold_left_wrapped {A : Type} (step next : Z -> A -> Z) (wrap : Z -> Z) :
  (forall a c, step (wrap a) c = wrap (next a c)) ->
  forall s a, fold_left step s (wrap a) = wrap (fold_left next s a).
Proof.
  intros H s. induction s as [|c s IH]; intro a; cbn [fold_left].
  - reflexivity.
  - rewrite H. apply IH.
Qed.

Lemma toInt32_zero : toInt32 0 = 0%Z.
Proof. reflexivity. Qed.

Lemma hash_fold_polynomial (s : list ascii) :
  fold_left hash_step s 0%Z = toInt32 (polynomial31 0 s).
Proof.
  rewrite <- toInt32_zero at 1.
  apply (fold_left_wrapped hash_step (fun h c => (31 * h + charCode c)%Z) toInt32
           hash_step_wrapped).
Qed.

(** X15. [hashCode] is the absolute value of the 32-bit wrap of the
    polynomial of base 31 over the character codes of the string; it lies
    between 0 and 2^31 inclusive. *)
Theorem hashCode_polynomial (str : string) :
  hashCode str = Z.abs (toInt32 (polynomial31 0 (list_ascii_of_string str)))
  /\ (0 <= hashCode str <= 2 ^ 31)%Z.
Proof.
  assert (E : hashCode str
              = Z.abs (toInt32 (polynomial31 0 (list_ascii_of_string str)))).
  { unfold hashCode. rewrite hash_fold_polynomial. reflexivity. }
  split; [exact E|]. rewrite E.
  pose proof (toInt32_range (polynomial31 0 (list_ascii_of_string str))). lia.
Qed.

(** X16. The coordinates [mockGeocode] invents stay in one small box: the
    latitude is between 40.7128 and 40.8118, the longitude between -74.0060
    and -73.9070, and neither is zero, so a mock-geocoded address counts as
    one that has coordinates. *)
Theorem mockGeocode_range (address : string) :
  (407128 # 10000 <= loc_latitude (mockGeocode address) <= 408118 # 10000)%Q
  /\ (- (740060 # 10000) <= loc_longitude (mockGeocode address)
      <= - (739070 # 10000))%Q
  /\ truthy (loc_latitude (mockGeocode address)) = true
  /\ truthy (loc_longitude (mockGeocode address)) = true.
Proof.
  unfold mockGeocode. cbv zeta. cbn [loc_latitude loc_longitude].
  pose proof (Z.mod_pos_bound (hashCode address) 100 ltac:(lia)) as [Hlo Hhi].
  assert (Hhi' : (hashCode address mod 100 <= 99)%Z) by lia.
  set (m := (hashCode address mod 100)%Z) in *.
  assert (Q0 : (0 <= inject_Z m)%Q) by (rewrite (Zle_Qle 0 m) in Hlo; exact Hlo).
  assert (Q99 : (inject_Z m <= 99)%Q) by (rewrite (Zle_Qle m 99) in Hhi'; exact Hhi').
  assert (Hm : (0 <= inject_Z m / 1000 <= 99 # 1000)%Q).
  { setoid_replace (inject_Z m / 1000)%Q with (inject_Z m * (1 # 1000))%Q
      by reflexivity.
    split; nra. }
  destruct Hm as [Hm0 Hm99].
  split; [split; lra|]. split; [split; lra|].
  unfold truthy. split; apply negb_true_iff.
  - destruct (Qeq_bool _ 0) eqn:E; [|reflexivity].
    apply Qeq_bool_iff in E. lra.
  - destruct (Qeq_bool _ 0) eqn:E; [|reflexivity].
    apply Qeq_bool_iff in E. lra.
Qed.

Lemma geocodeAddress_total (geocodeApi : string -> option GeocodeResponse)
  (this : RouteOptimizer) (address : string) :
  exists location, geocodeAddress geocodeApi this address = Some location.
Proof.
  unfold geocodeAddress. destruct (String.eqb _ _); [eauto|].
  destruct (geocodeRequest geocodeApi address); eauto.
Qed.

(** X17. [geocodeAddresses] returns one address per input address, in the
    same order: [geocodeAddress] never rejects, since every failure of the
    provider ends in [mockGeocode], so no address is skipped. Each returned
    address keeps its id, text, name and notes, has both coordinates, and is
    the input address itself when that one had both coordinates. *)
Theorem geocodeAddresses_keeps_all (geocodeApi : string -> option GeocodeResponse)
  (this : RouteOptimizer) (addresses : list RawAddress) :
  Forall2 geocoded_from addresses (geocodeAddresses geocodeApi this addresses).
Proof.
  induction addresses as [|a rest IH]; cbn [geocodeAddresses]; [constructor|].
  destruct (hasCoordinates a) eqn:Hc.
  - constructor; [|exact IH].
    unfold hasCoordinates in Hc.
    destruct (raw_latitude a) as [lat|] eqn:Elat; [|discriminate].
    destruct (raw_longitude a) as [lon|] eqn:Elon; [|discriminate].
    unfold geocoded_from. rewrite Elat, Elon.
    repeat split; try reflexivity; discriminate.
  - destruct (geocodeAddress_total geocodeApi this (raw_address a)) as [g Hg].
    rewrite Hg. constructor; [|exact IH].
    unfold geocoded_from.
    cbn [withCoordinates raw_id raw_address raw_name raw_notes raw_latitude
         raw_longitude].
    repeat split; try discriminate. intro H. rewrite Hc in H. discriminate H.
Qed.

(** *** The earlier optimizer for large data sets *)

Lemma set_at_exact {A : Type} (pre : list A) (x v : A) (rest : list A) :
  set_at (List.length pre) v (pre ++ x :: rest) = pre ++ v :: rest.
Proof.
  induction pre as [|y pre IH]; cbn [List.length app set_at]; [reflexivity|].
  rewrite IH. reflexivity.
Qed.

(** The loop reverses the segment it is given. *)
Lemma twoOptSwap_loop_reverses (fuel : nat) (pre seg post : list Stop) :
  List.length seg <= 2 * fuel ->
  twoOptSwap_loop fuel (pre ++ seg ++ post) (List.length pre)
    (List.length pre + List.length seg - 1)
  = pre ++ rev seg ++ post.
Proof.
  revert pre seg post. induction fuel as [|fuel IH]; intros pre seg post Hfuel.
  - destruct seg; [reflexivity|cbn [List.length] in Hfuel; lia].
  - cbn [twoOptSwap_loop].
    destruct seg as [|x seg].
    { cbn [List.length]. destruct (Nat.ltb_spec (List.length pre) (List.length pre + 0 - 1));
        [lia|reflexivity]. }
    destruct (exists_last (l := x :: seg)) as [body [y E]]; [discriminate|].
    destruct body as [|x' mid].
    { (* a segment of one stop *)
      cbn [app] in E. injection E as Ex Eseg. subst y seg.
      cbn [List.length].
      destruct (Nat.ltb_spec (List.length pre) (List.length pre + 1 - 1));
        [lia|reflexivity]. }
    cbn [app] in E. injection E as Ex Eseg. subst x' seg.
    assert (Lseg : List.length (x :: mid ++ [y]) = List.length mid + 2)
      by (cbn [List.length]; rewrite length_app; cbn [List.length]; lia).
    rewrite Lseg.
    destruct (Nat.ltb_spec (List.length pre) (List.length pre + (List.length mid + 2) - 1));
      [|lia].
    assert (Ei : nth_error (pre ++ (x :: mid ++ [y]) ++ post) (List.length pre) = Some x).
    { cbn [app]. apply nth_error_exact. }
    assert (Ej : nth_error (pre ++ (x :: mid ++ [y]) ++ post)
                   (List.length pre + (List.length mid + 2) - 1) = Some y).
    { replace (pre ++ (x :: mid ++ [y]) ++ post)
        with ((pre ++ x :: mid) ++ y :: post)
        by (cbn [app]; rewrite <- !app_assoc; reflexivity).
      replace (List.length pre + (List.length mid + 2) - 1)
        with (List.length (pre ++ x :: mid))
        by (rewrite length_app; cbn [List.length]; lia).
      apply nth_error_exact. }
    rewrite Ei, Ej.
    assert (Eswap : set_at (List.length pre) y
                      (set_at (List.length pre + (List.length mid + 2) - 1) x
                         (pre ++ (x :: mid ++ [y]) ++ post))
                    = (pre ++ [y]) ++ mid ++ (x :: post)).
    { replace (pre ++ (x :: mid ++ [y]) ++ post)
        with ((pre ++ x :: mid) ++ y :: post)
        by (cbn [app]; rewrite <- !app_assoc; reflexivity).
      replace (List.length pre + (List.length mid + 2) - 1)
        with (List.length (pre ++ x :: mid))
        by (rewrite length_app; cbn [List.length]; lia).
      rewrite set_at_exact.
      replace ((pre ++ x :: mid) ++ x :: post) with (pre ++ x :: (mid ++ x :: post))
        by (rewrite <- app_assoc; reflexivity).
      rewrite set_at_exact. rewrite <- app_assoc. reflexivity. }
    rewrite Eswap.
    replace (S (List.length pre)) with (List.length (pre ++ [y]))
      by (rewrite length_app; cbn [List.length]; lia).
    replace (List.length pre + (List.length mid + 2) - 1 - 1)
      with (List.length (pre ++ [y]) + List.length mid - 1)
      by (rewrite length_app; cbn [List.length]; lia).
    rewrite IH by (rewrite Lseg in Hfuel; lia).
    cbn [rev]. rewrite rev_app_distr. cbn [rev app].
    rewrite <- !app_assoc. reflexivity.
Qed.

Lemma reverse_segment_split (route : list Stop) (i j : nat) :
  i <= j -> j < List.length route ->
  exists pre seg post,
    route = pre ++ seg ++ post
    /\ List.length pre = i /\ List.length seg = j + 1 - i
    /\ reverse_segment route i j = pre ++ rev seg ++ post.
Proof.
  intros Hij Hj.
  exists (firstn i route), (firstn (j + 1 - i) (skipn i route)), (skipn (j + 1) route).
  assert (Epost : skipn (j + 1 - i) (skipn i route) = skipn (j + 1) route).
  { rewrite skipn_skipn. f_equal. lia. }
  split; [|split; [|split]].
  - rewrite <- Epost, firstn_skipn, firstn_skipn. reflexivity.
  - rewrite length_firstn. lia.
  - rewrite length_firstn, length_skipn. lia.
  - unfold reverse_segment, slice. rewrite Nat.sub_0_r. reflexivity.
Qed.

Lemma app_same_length {A : Type} (l1 l2 r1 r2 : list A) :
  l1 ++ r1 = l2 ++ r2 -> List.length l1 = List.length l2 ->
  l1 = l2 /\ r1 = r2.
Proof.
  revert l2. induction l1 as [|x l1 IH]; intros [|y l2] E L;
    cbn [List.length] in L; try lia.
  - auto.
  - cbn [app] in E. injection E as -> E.
    destruct (IH l2 E) as [-> ->]; [lia|auto].
Qed.

Lemma twoOptSwap_split (route : list Stop) (i j : nat) :
  i <= j -> j < List.length route ->
  exists pre seg post,
    route = pre ++ seg ++ post
    /\ List.length pre = i /\ List.length seg = j + 1 - i
    /\ reverse_segment route i j = pre ++ rev seg ++ post
    /\ twoOptSwap route i j = pre ++ rev seg ++ post.
Proof.
  intros Hij Hj.
  destruct (reverse_segment_split route i j Hij Hj)
    as [pre [seg [post [E [Lpre [Lseg Erev]]]]]].
  exists pre, seg, post. repeat split; try assumption.
  unfold twoOptSwap. rewrite E at 2.
  replace i with (List.length pre) by exact Lpre.
  replace j with (List.length pre + List.length seg - 1) by lia.
  apply twoOptSwap_loop_reverses.
  rewrite E, !length_app. lia.
Qed.

(** X18. [twoOptSwap], which exchanges the stops of a segment pairwise from
    its two ends, returns the route with the segment from [i] to [j]
    reversed: the same route as the slices of [apply2OptImprovement]. Doing
    it twice gives the route back. *)
Theorem twoOptSwap_reverses (route : list Stop) (i j : nat) :
  i <= j -> j < List.length route ->
  twoOptSwap route i j = reverse_segment route i j
  /\ Permutation (twoOptSwap route i j) route
  /\ twoOptSwap (twoOptSwap route i j) i j = route.
Proof.
  intros Hij Hj.
  destruct (twoOptSwap_split route i j Hij Hj)
    as [pre [seg [post [E [Lpre [Lseg [Erev E1]]]]]]].
  split; [rewrite E1, Erev; reflexivity|]. split.
  - rewrite E1, E.
    apply Permutation_app_head. apply Permutation_app_tail.
    symmetry. apply Permutation_rev.
  - assert (Hj' : j < List.length (twoOptSwap route i j)).
    { rewrite E1, !length_app, length_rev. rewrite E, !length_app in Hj. exact Hj. }
    destruct (twoOptSwap_split (twoOptSwap route i j) i j Hij Hj')
      as [pre' [seg' [post' [E' [Lpre' [Lseg' [_ E2]]]]]]].
    rewrite E2.
    assert (Hpre : pre' = pre /\ seg' = rev seg /\ post' = post).
    { rewrite E1 in E'. symmetry in E'.
      apply app_same_length in E'; [|lia]. destruct E' as [Ep E'].
      apply app_same_length in E'; [|rewrite length_rev; lia].
      destruct E' as [Es Et]. auto. }
    destruct Hpre as [-> [-> ->]]. rewrite rev_involutive. symmetry. exact E.
Qed.

Lemma improves_refl (this : RouteOptimizer) (route : list Stop) :
  improves this route route.
Proof. split; [reflexivity|split; [reflexivity|apply Qle_refl]]. Qed.

Lemma improves_trans (this : RouteOptimizer) (r1 r2 r3 : list Stop) :
  improves this r1 r2 -> improves this r2 r3 -> improves this r1 r3.
Proof.
  intros [P1 [H1 C1]] [P2 [H2 C2]]. split; [|split].
  - rewrite P2. exact P1.
  - rewrite H2. exact H1.
  - eapply Qle_trans; eassumption.
Qed.

Lemma twoOptImprovement_pairs_valid (n i j : nat) :
  In (i, j) (twoOptImprovement_pairs n) -> 1 <= i /\ i <= j /\ j < n.
Proof.
  unfold twoOptImprovement_pairs. intro H.
  apply in_flat_map in H. destruct H as [i' [Hi' H]].
  apply in_map_iff in H. destruct H as [j' [E Hj']].
  injection E as -> ->. apply in_seq in Hi'. apply in_seq in Hj'. lia.
Qed.

Lemma twoOptImprovement_step_improves (this : RouteOptimizer)
  (state : list Stop * bool) (i j : nat) :
  1 <= i -> i <= j -> j < List.length (fst state) ->
  improves this (fst state) (fst (twoOptImprovement_step this state (i, j))).
Proof.
  intros Hi Hij Hj. destruct state as [current improved]. cbn [fst] in *.
  unfold twoOptImprovement_step. cbn [fst snd].
  destruct (Qltb _ _) eqn:Hlt; [|apply improves_refl]. cbn [fst].
  apply Qltb_lt in Hlt.
  destruct (twoOptSwap_split current i j Hij Hj)
    as [pre [seg [post [E [Lpre [_ [_ E1]]]]]]].
  split; [|split].
  - rewrite E1, E.
    apply Permutation_app_head. apply Permutation_app_tail.
    symmetry. apply Permutation_rev.
  - rewrite E1, E.
    destruct pre; [cbn [List.length] in Lpre; lia|reflexivity].
  - apply Qlt_le_weak. exact Hlt.
Qed.

Lemma twoOptImprovement_fold_improves (this : RouteOptimizer)
  (pairs : list (nat * nat)) (state : list Stop * bool) :
  (forall i j, In (i, j) pairs -> 1 <= i /\ i <= j /\ j < List.length (fst state)) ->
  improves this (fst state)
    (fst (fold_left (twoOptImprovement_step this) pairs state)).
Proof.
  revert state. induction pairs as [|[i j] pairs IH]; intros state Hvalid;
    cbn [fold_left].
  - apply improves_refl.
  - destruct (Hvalid i j (or_introl eq_refl)) as [Hi [Hij Hj]].
    pose proof (twoOptImprovement_step_improves this state i j Hi Hij Hj) as Hstep.
    apply (improves_trans this _ _ _ Hstep).
    apply IH. intros i' j' Hin.
    rewrite (Permutation_length (proj1 Hstep)).
    apply Hvalid. right. exact Hin.
Qed.

Lemma twoOptImprovement_loop_improves (this : RouteOptimizer) (fuel : nat)
  (route : list Stop) :
  improves this route (twoOptImprovement_loop this fuel route).
Proof.
  revert route. induction fuel as [|fuel IH]; intro route;
    cbn [twoOptImprovement_loop].
  - apply improves_refl.
  - pose proof (twoOptImprovement_fold_improves this
                  (twoOptImprovement_pairs (List.length route)) (route, false)
                  (fun i j => twoOptImprovement_pairs_valid (List.length route) i j))
      as H.
    destruct (fold_left _ _ _) as [route' improved]. cbn [fst] in H.
    destruct improved; [|exact H].
    apply (improves_trans this _ _ _ H). apply IH.
Qed.

(** X19. [twoOptImprovement] keeps the stops of the route and its first
    stop, and never makes the route longer by the straight-line measure,
    whatever [calculateDistance] is: it accepts a reversal only when the
    whole route, measured again, is strictly shorter. *)
Theorem twoOptImprovement_monotonic (this : RouteOptimizer) (route : list Stop)
  (maxIterations : nat) :
  Permutation (twoOptImprovement this route maxIterations) route
  /\ hd_error (twoOptImprovement this route maxIterations) = hd_error route
  /\ (calculateTotalDistance this (twoOptImprovement this route maxIterations) None
      <= calculateTotalDistance this route None)%Q.
Proof.
  destruct (twoOptImprovement_loop_improves this maxIterations route)
    as [Hperm [Hfirst Hcost]].
  split; [exact Hperm|]. split; [exact Hfirst|exact Hcost].
Qed.

Lemma length_geographic_centers (addresses : list Stop) (count : nat) :
  List.length (geographic_centers addresses count) <= count.
Proof.
  unfold geographic_centers.
  enough (G : forall start n,
             List.length
               (flat_map
                  (fun i =>
                     match nth_error addresses (i * List.length addresses / count) with
                     | Some a => [(or_zero (latitude a), or_zero (longitude a))]
                     | None => []
                     end)
                  (seq start n)) <= n) by apply G.
  intros start n. revert start. induction n as [|n IH]; intro start; cbn [seq flat_map].
  - apply Nat.le_refl.
  - rewrite length_app. specialize (IH (S start)).
    destruct (nth_error addresses _); cbn [List.length]; lia.
Qed.

Lemma geographic_centers_nonempty (addresses : list Stop) (count : nat) :
  1 <= count -> addresses <> [] -> geographic_centers addresses count <> [].
Proof.
  intros Hcount Hne. unfold geographic_centers.
  destruct count as [|count]; [lia|]. rewrite <- cons_seq.
  destruct addresses as [|a addresses]; [congruence|].
  cbn. discriminate.
Qed.

Lemma assign_cluster_fold (centers : list (Q * Q)) (processed : list Stop)
  (clusters : list (list Stop)) :
  centers <> [] -> List.length centers <= List.length clusters ->
  exists clusters',
    fold_left (assign_cluster centers) processed (Some clusters) = Some clusters'
    /\ Permutation (List.concat clusters')
         (List.concat clusters ++ filter bothCoordinates processed).
Proof.
  intros Hc. revert clusters.
  induction processed as [|a processed IH]; intros clusters Hlen; cbn [fold_left filter].
  - exists clusters. split; [reflexivity|]. rewrite app_nil_r. reflexivity.
  - unfold assign_cluster at 2. fold (bothCoordinates a).
    destruct (bothCoordinates a).
    + assert (Hk : nearestCluster centers a < List.length clusters).
      { apply (Nat.lt_le_trans _ (List.length centers)); [|exact Hlen].
        unfold nearestCluster.
        match goal with
        | |- nearest_scan ?d ?l 0 0 None < _ =>
            destruct (nearest_scan_earliest d l Hc) as [c [Hn _]]
        end.
        apply nth_error_Some. rewrite Hn. discriminate. }
      destruct (nth_error clusters (nearestCluster centers a)) eqn:En;
        [|apply nth_error_None in En; lia].
      destruct (IH (push_at (nearestCluster centers a) a clusters))
        as [clusters' [E P]]; [rewrite length_push_at; exact Hlen|].
      exists clusters'. split; [exact E|].
      rewrite P, (push_at_perm _ a clusters Hk). cbn [List.concat app].
      apply Permutation_middle.
    + apply IH. exact Hlen.
Qed.

Lemma createGeographicClusters_partition (addresses : list Stop) (count : nat) :
  1 <= count -> count < List.length addresses ->
  exists clusters,
    createGeographicClusters addresses count = Some clusters
    /\ Permutation (List.concat clusters) (filter bothCoordinates addresses)
    /\ Forall (fun cluster => cluster <> []) clusters.
Proof.
  intros Hcount Hlt. unfold createGeographicClusters.
  destruct (Nat.leb_spec (List.length addresses) count); [lia|].
  destruct (assign_cluster_fold (geographic_centers addresses count) addresses
              (repeat [] count)) as [clusters' [E P]].
  - apply geographic_centers_nonempty; [exact Hcount|].
    destruct addresses; [cbn [List.length] in Hlt; lia|discriminate].
  - rewrite repeat_length. apply length_geographic_centers.
  - rewrite E. cbn [option_map].
    exists (filter (fun cluster : list Stop => 0 <? List.length cluster) clusters').
    split; [reflexivity|]. split.
    + rewrite concat_filter_nonempty, P, concat_repeat_nil. reflexivity.
    + apply Forall_forall. intros c Hc. apply filter_In in Hc.
      destruct Hc as [_ Hc]. destruct c; discriminate.
Qed.

Lemma visit_cluster_fold (clusters : list (list Stop)) (route : list Stop)
  (location : option Location) :
  Forall (fun cluster => cluster <> []) clusters ->
  exists route' location',
    fold_left visit_cluster clusters (Some (route, location))
    = Some (route', location')
    /\ Permutation route' (route ++ List.concat clusters).
Proof.
  intro Hne. revert route location.
  induction Hne as [|cluster clusters Hc _ IH]; intros route location;
    cbn [fold_left List.concat].
  - exists route, location. split; [reflexivity|]. rewrite app_nil_r. reflexivity.
  - unfold visit_cluster at 2.
    pose proof (nearestNeighborTSP_perm cluster location) as Hp.
    destruct (nth_error (nearestNeighborTSP cluster location) _) as [lastStop|] eqn:El.
    + match goal with
      | |- context [Some (?r, ?l)] =>
          destruct (IH r l) as [route' [location' [E P]]]
      end.
      exists route', location'. split; [exact E|].
      rewrite P, <- app_assoc. apply Permutation_app_head.
      apply Permutation_app_tail. exact Hp.
    + exfalso. apply nth_error_None in El.
      apply Permutation_length in Hp.
      destruct cluster; [congruence|cbn [List.length] in Hp; lia].
Qed.

(** X20. [optimizeRouteForLargeDataset] never throws. Up to 300 stops it
    returns a permutation of the stops; above 300 it returns a permutation
    of the stops whose latitude and longitude are both non-zero: a stop with
    a zero coordinate is left out of the route. *)
Theorem optimizeRouteForLargeDataset_stops (this : RouteOptimizer)
  (addresses : list Stop) (startLocation : option Location) :
  exists route,
    optimizeRouteForLargeDataset this addresses startLocation = Some route
    /\ Permutation route
         (if 300 <? List.length addresses
          then filter bothCoordinates addresses else addresses).
Proof.
  unfold optimizeRouteForLargeDataset.
  destruct (Nat.ltb_spec 300 (List.length addresses)) as [Hlarge|Hsmall].
  - unfold clusterAndOptimize. cbv zeta.
    assert (Hcount : 1 <= (List.length addresses + 49) / 50).
    { apply Nat.div_le_lower_bound; lia. }
    assert (Hlt : (List.length addresses + 49) / 50 < List.length addresses).
    { apply Nat.Div0.div_lt_upper_bound. lia. }
    destruct (createGeographicClusters_partition addresses _ Hcount Hlt)
      as [clusters [E [P Hne]]].
    rewrite E.
    destruct (visit_cluster_fold clusters [] startLocation Hne)
      as [route [location [E' P']]].
    rewrite E'. cbn [option_map fst]. exists route. split; [reflexivity|].
    rewrite P'. cbn [app]. exact P.
  - exists (enhancedNearestNeighbor this addresses startLocation).
    split; [reflexivity|]. unfold enhancedNearestNeighbor, twoOptImprovement.
    cbv zeta.
    rewrite (proj1 (twoOptImprovement_loop_improves this _ _)).
    apply nearestNeighborTSP_perm.
Qed.

(** *** The requests to the provider and the two totals *)

Lemma length_pairs {A B : Type} (l : list A) (l' : list B) :
  List.length (flat_map (fun i => map (fun j => (i, j)) l') l)
  = List.length l * List.length l'.
Proof.
  induction l as [|x l IH]; cbn [flat_map List.length]; [reflexivity|].
  rewrite length_app, length_map, IH. lia.
Qed.

(** X21. The loops of [buildDistanceMatrix] run over the square of
    [Math.ceil(n / 10)] batches, so that is the number of requests when none
    fails, and every batch asks for at least 1 and at most 10 origins and as
    many destinations: at most 100 elements per request. *)
Theorem buildDistanceMatrix_batches (addresses : list Stop) :
  List.length (batches (List.length addresses))
  = (List.length addresses + 9) / 10 * ((List.length addresses + 9) / 10)
  /\ Forall
       (fun ij =>
          1 <= List.length (batch_origins addresses ij) <= 10
          /\ 1 <= List.length (batch_destinations addresses ij) <= 10)
       (batches (List.length addresses)).
Proof.
  split.
  - unfold batches. rewrite length_pairs.
    unfold chunk_starts. rewrite length_map, length_seq. reflexivity.
  - apply Forall_forall. intros [i j] Hin.
    apply batches_spec in Hin. cbn [fst snd] in Hin.
    destruct Hin as [[ki [_ Hi]] [kj [_ Hj]]].
    unfold batch_origins, batch_destinations. cbn [fst snd].
    rewrite !length_batch_slice by assumption.
    unfold chunkSize. lia.
Qed.

Lemma haversine_total_metrics (total time : Q) (route : list Stop) :
  Forall (fun a => bothCoordinates a = true) route ->
  haversine_total_from total route
  = totalDistance (metrics_from total time (map addr route)).
Proof.
  intro Hall. revert total time.
  induction Hall as [|a route Ha Hroute IH]; intros total time; [reflexivity|].
  destruct Hroute as [|b route Hb Hroute]; [reflexivity|].
  change (haversine_total_from total (a :: b :: route))
    with (haversine_total_from
            (if truthy (latitude a) && truthy (longitude a)
                && truthy (latitude b) && truthy (longitude b)
             then (total + distanceBetween a b)%Q else total)
            (b :: route)).
  unfold bothCoordinates in Ha, Hb. rewrite <- andb_assoc, Ha, Hb.
  cbn [andb]. rewrite (IH (total + distanceBetween a b)%Q
                          (time + (distanceBetween a b / 40 * 60 + 5))%Q).
  reflexivity.
Qed.

(** X22. On a route whose stops all have two non-zero coordinates,
    [calculateTotalDistance] without a matrix is the [totalDistance] of
    [calculateRouteMetrics]: only an edge that touches a zero coordinate is
    left out of the former. *)
Theorem calculateTotalDistance_metrics (this : RouteOptimizer) (route : list Stop) :
  Forall (fun a => bothCoordinates a = true) route ->
  calculateTotalDistance this route None
  = totalDistance (calculateRouteMetrics (map addr route)).
Proof.
  intro Hall. unfold calculateTotalDistance, calculateRouteMetrics.
  apply haversine_total_metrics. exact Hall.
Qed.

(** *** The form of a grouping key *)

Lemma lower_char_not_upper (c : ascii) : Str.is_upper (Str.lower_char c) = false.
Proof.
  unfold Str.lower_char. destruct (Str.is_upper c) eqn:E; [|exact E].
  unfold Str.is_upper in *. apply andb_true_iff in E. destruct E as [E1 E2].
  apply Nat.leb_le in E1. apply Nat.leb_le in E2.
  rewrite nat_ascii_embedding by lia.
  apply andb_false_iff. right. apply Nat.leb_gt. lia.
Qed.

Section KeptByReplace.

Variable P : ascii -> Prop.

Lemma literal_kept (w s rest : Str.chars) :
  Forall P s -> Str.literal w s = Some rest -> Forall P rest.
Proof.
  revert s. induction w as [|a w IH]; intros s Hs H; cbn [Str.literal] in H.
  - injection H as <-. exact Hs.
  - destruct s as [|c s]; [discriminate|].
    destruct (Ascii.eqb _ _); [|discriminate].
    inversion Hs. subst. apply (IH s); assumption.
Qed.

Lemma greedy_kept (cls : ascii -> bool) (k : Str.chars -> option Str.chars) :
  (forall s rest, Forall P s -> k s = Some rest -> Forall P rest) ->
  forall s rest, Forall P s -> Str.greedy cls k s = Some rest -> Forall P rest.
Proof.
  intros Hk s. induction s as [|c s IH]; intros rest Hs H; cbn [Str.greedy] in H.
  - apply (Hk [] rest Hs H).
  - destruct (cls c).
    + destruct (Str.greedy cls k s) as [r|] eqn:E.
      * injection H as <-. inversion Hs. subst. apply IH; [assumption|reflexivity].
      * apply (Hk (c :: s) rest Hs H).
    + apply (Hk (c :: s) rest Hs H).
Qed.

Lemma first_alt_kept (alts : list Str.chars) (k : Str.chars -> option Str.chars) :
  (forall s rest, Forall P s -> k s = Some rest -> Forall P rest) ->
  forall s rest, Forall P s -> Str.first_alt alts k s = Some rest -> Forall P rest.
Proof.
  intros Hk. induction alts as [|w ws IH]; intros s rest Hs H;
    cbn [Str.first_alt] in H; [discriminate|].
  destruct (Str.literal w s) as [after|] eqn:El; [|apply (IH s rest Hs H)].
  destruct (k after) as [r|] eqn:Ek; [|apply (IH s rest Hs H)].
  injection H as <-. apply (Hk after r); [|exact Ek].
  apply (literal_kept w s after Hs El).
Qed.

Lemma match_here_kept (r : Str.regex) (s rest : Str.chars) :
  Forall P s -> Str.match_here r s = Some rest -> Forall P rest.
Proof.
  revert s rest. induction r as [|atom r IH]; intros s rest Hs H;
    cbn [Str.match_here] in H.
  - injection H as <-. exact Hs.
  - destruct atom as [cls|cls|cls|cls|alts|].
    + destruct s as [|c s]; [discriminate|]. destruct (cls c); [|discriminate].
      inversion Hs. subst. apply (IH s rest); assumption.
    + destruct s as [|c s]; [apply (IH [] rest Hs H)|].
      destruct (cls c); [|apply (IH (c :: s) rest Hs H)].
      destruct (Str.match_here r s) as [x|] eqn:E.
      * injection H as <-. inversion Hs. subst. apply (IH s x); assumption.
      * apply (IH (c :: s) rest Hs H).
    + apply (greedy_kept cls (Str.match_here r) IH s rest Hs H).
    + destruct s as [|c s]; [discriminate|]. destruct (cls c); [|discriminate].
      inversion Hs. subst.
      apply (greedy_kept cls (Str.match_here r) IH s rest); assumption.
    + apply (first_alt_kept alts (Str.match_here r) IH s rest Hs H).
    + destruct s as [|c s]; [|discriminate]. apply (IH [] rest Hs H).
Qed.

Lemma replace_from_kept (fuel : nat) (r : Str.regex) (rep s : Str.chars) :
  Forall P rep -> Forall P s -> Forall P (Str.replace_from fuel r rep s).
Proof.
  intro Hrep. revert s. induction fuel as [|fuel IH]; intros s Hs;
    cbn [Str.replace_from]; [exact Hs|].
  assert (Hskip : Forall P
                    match s with
                    | c :: s' => c :: Str.replace_from fuel r rep s'
                    | [] => []
                    end).
  { destruct s as [|c s']; [constructor|].
    inversion Hs. subst. constructor; [assumption|apply IH; assumption]. }
  destruct (Str.match_here r s) as [rest|] eqn:E; [|exact Hskip].
  destruct (List.length rest <? List.length s).
  - apply Forall_app. split; [exact Hrep|].
    apply IH. apply (match_here_kept r s rest Hs E).
  - apply Forall_app. split; [exact Hrep|exact Hskip].
Qed.

Lemma trimStart_kept (s : Str.chars) : Forall P s -> Forall P (Str.trimStart s).
Proof.
  induction s as [|c s IH]; intro Hs; cbn [Str.trimStart]; [constructor|].
  destruct (Str.is_space c); [|exact Hs].
  inversion Hs. subst. apply IH. assumption.
Qed.

Lemma trim_kept (s : Str.chars) : Forall P s -> Forall P (Str.trim s).
Proof.
  intro Hs. unfold Str.trim. apply Forall_rev. apply trimStart_kept.
  apply Forall_rev. apply trimStart_kept. exact Hs.
Qed.

End KeptByReplace.

Lemma trimStart_head (s : Str.chars) (c : ascii) :
  hd_error (Str.trimStart s) = Some c -> Str.is_space c = false.
Proof.
  induction s as [|x s IH]; cbn [Str.trimStart]; [discriminate|].
  destruct (Str.is_space x) eqn:E; [exact IH|].
  cbn [hd_error]. intro H. injection H as <-. exact E.
Qed.

Lemma trimStart_last (s : Str.chars) (c : ascii) :
  Str.is_space c = false -> Str.trimStart (s ++ [c]) = Str.trimStart s ++ [c].
Proof.
  intro Hc. induction s as [|x s IH]; cbn [app Str.trimStart].
  - rewrite Hc. reflexivity.
  - destruct (Str.is_space x); [exact IH|reflexivity].
Qed.

(** X30. The key [normalizeAddressForGrouping] returns holds no upper-case
    letter, and neither begins nor ends with white space. *)
Theorem normalizeAddressForGrouping_key (address : string) :
  Forall (fun c => Str.is_upper c = false)
    (chars_of (normalizeAddressForGrouping address))
  /\ (forall c,
        hd_error (chars_of (normalizeAddressForGrouping address)) = Some c ->
        Str.is_space c = false)
  /\ (forall c front,
        chars_of (normalizeAddressForGrouping address) = front ++ [c] ->
        Str.is_space c = false).
Proof.
  set (body := Str.replace spaces_pattern (chars_of " ")
                 (Str.replace suffix_pattern []
                    (Str.replace unit_pattern []
                       (Str.toLowerCase (chars_of address))))).
  assert (K : chars_of (normalizeAddressForGrouping address) = Str.trim body).
  { unfold normalizeAddressForGrouping. fold body. unfold chars_of at 1.
    apply list_ascii_of_string_of_list_ascii. }
  rewrite K. clear K.
  split; [|split].
  - apply trim_kept. unfold body, Str.replace.
    apply replace_from_kept; [repeat constructor|].
    apply replace_from_kept; [constructor|].
    apply replace_from_kept; [constructor|].
    unfold Str.toLowerCase. apply Forall_forall. intros c Hc.
    apply in_map_iff in Hc. destruct Hc as [x [<- _]].
    apply lower_char_not_upper.
  - intros c Hc. unfold Str.trim in Hc.
    destruct (Str.trimStart body) as [|x t] eqn:Et; [discriminate|].
    assert (Hx : Str.is_space x = false).
    { apply (trimStart_head body). rewrite Et. reflexivity. }
    cbn [rev] in Hc. rewrite (trimStart_last _ _ Hx), rev_app_distr in Hc.
    cbn [rev app hd_error] in Hc. injection Hc as <-. exact Hx.
  - intros c front E. unfold Str.trim in E.
    apply (f_equal (@rev ascii)) in E.
    rewrite rev_involutive, rev_app_distr in E. cbn [rev app] in E.
    apply (trimStart_head (rev (Str.trimStart body))). rewrite E. reflexivity.
Qed.

End Optimizer.

(** Without an API key, the route [optimizeRoute] returns does not depend on
    what the instance held before the call (the [originalAddresses] of an
    earlier call) nor on how the Distance Matrix service would have
    answered. *)
Lemma optimizeRoute_without_key
  (calculateDistance : Q -> Q -> Q -> Q -> Q)
  (api1 api2 : list Stop -> list Stop -> option response)
  (this1 this2 : RouteOptimizer)
  (addresses : list Address) (startLocation : option Location) :
  googleMapsApiKey this1 = "" ->
  googleMapsApiKey this2 = "" ->
  snd (optimizeRoute calculateDistance api1 this1 addresses startLocation)
  = snd (optimizeRoute calculateDistance api2 this2 addresses startLocation).
Proof.
  intros H1 H2. unfold optimizeRoute.
  destruct (List.length addresses <=? 2); [reflexivity|].
  rewrite H1, H2. unfold buildDistanceMatrix. cbn [googleMapsApiKey String.eqb].
  reflexivity.
Qed.

(** ** Concrete runs *)

(** *** C9: normalization *)

(** C9. [normalizeAddressForGrouping] is not idempotent: the pattern
    [/,?\s*[a-z]\s*$/] that is meant to remove a single-letter suffix removes
    the last letter of any address that ends in a letter, and removes one more
    at each application. *)
Theorem normalizeAddressForGrouping_again :
  normalizeAddressForGrouping "123 Main St" = "123 main s"
  /\ normalizeAddressForGrouping (normalizeAddressForGrouping "123 Main St")
     = "123 main"
  /\ normalizeAddressForGrouping (normalizeAddressForGrouping "123 Main St")
     <> normalizeAddressForGrouping "123 Main St".
Proof.
  repeat split; try (vm_compute; reflexivity).
  vm_compute. discriminate.
Qed.

(** Two different streets share a key. *)
Example normalizeAddressForGrouping_merges :
  normalizeAddressForGrouping "12 Oak St" = normalizeAddressForGrouping "12 Oak Sq".
Proof. vm_compute. reflexivity. Qed.

(** Scenario B of the specification: two apartments of one building. *)
Example normalizeAddressForGrouping_apartments :
  normalizeAddressForGrouping "123 Main St Apt 2"
  = normalizeAddressForGrouping "123 Main St Apt 5".
Proof. vm_compute. reflexivity. Qed.

(** *** C4 and C3: the matrix builder *)

(** Eleven stops take four batches. The first is answered, and its cells
    hold the 5 km the provider reported; the second is over quota. The matrix
    that comes back is the geometric one in every cell. *)
Lemma buildDistanceMatrix_request_failure_witness :
  (exists m d,
      batch gridDistance overQuotaApi eleven
        (Some (repeat (repeat (Some 0%Q) 11) 11)) (0, 0) = Some m
      /\ cell m 0 1 = Some d /\ (d == 5)%Q)
  /\ In (0, 10) (batches (List.length eleven))
  /\ request_failed overQuotaApi
       (batch_origins eleven (0, 10)) (batch_destinations eleven (0, 10))
  /\ buildDistanceMatrix gridDistance overQuotaApi withKey eleven
     = buildHaversineMatrix gridDistance eleven
  /\ forall i j a b,
       nth_error eleven i = Some a -> nth_error eleven j = Some b ->
       cell (buildDistanceMatrix gridDistance overQuotaApi withKey eleven) i j
       = Some (if i =? j then 0%Q else distanceBetween gridDistance a b).
Proof.
  assert (Hin : In (0, 10) (batches (List.length eleven)))
    by (vm_compute; right; left; reflexivity).
  assert (Hfail : request_failed overQuotaApi
                    (batch_origins eleven (0, 10)) (batch_destinations eleven (0, 10)))
    by (vm_compute; lia).
  split; [|split; [exact Hin|split; [exact Hfail|]]].
  - eexists. eexists. split; [vm_compute; reflexivity|].
    split; [vm_compute; reflexivity|]. reflexivity.
  - exact (buildDistanceMatrix_request_failure gridDistance overQuotaApi
             withKey eleven (0, 10) Hin Hfail).
Defined.

(** Between stop 0 and stop 1 the matrix holds the 111 km of the grid, not
    the 5 km of the first batch. *)
Example buildDistanceMatrix_over_quota :
  exists d,
    cell (buildDistanceMatrix gridDistance overQuotaApi withKey eleven) 0 1 = Some d
    /\ (d == 111)%Q.
Proof. eexists. split; [vm_compute; reflexivity|reflexivity]. Qed.

(** A service that cannot be reached at all. *)
Example buildDistanceMatrix_unreachable :
  buildDistanceMatrix gridDistance unreachableApi withKey three_stops
  = buildHaversineMatrix gridDistance three_stops.
Proof. vm_compute. reflexivity. Qed.

(** The diagonal of a provider-backed matrix holds what the provider
    reported. *)
Lemma buildDistanceMatrix_provider_diagonal :
  ~ (exists d,
        cell (buildDistanceMatrix gridDistance fiveKmApi withKey three_stops) 0 0
        = Some d
        /\ (d == 0)%Q).
Proof.
  intros [d [E H]]. vm_compute in E. inversion E. subst d.
  vm_compute in H. discriminate.
Qed.

(** A response row that is too short leaves [undefined] in the matrix. *)
Lemma buildDistanceMatrix_short_row :
  cell (buildDistanceMatrix gridDistance shortRowApi withKey three_stops) 0 2
  = None.
Proof. vm_compute. reflexivity. Qed.

Lemma buildDistanceMatrix_cells_witness :
  populated 3 (buildDistanceMatrix gridDistance fiveKmApi withKey three_stops).
Proof.
  apply (proj2 (proj2 (proj2 (buildDistanceMatrix_cells gridDistance fiveKmApi
                                withKey three_stops)))).
  intros origins destinations rows H. unfold fiveKmApi in H.
  inversion H. subst rows. split.
  - rewrite length_map. apply Nat.le_refl.
  - apply Forall_forall. intros elements Hin.
    apply in_map_iff in Hin. destruct Hin as [o [<- _]].
    rewrite length_map. apply Nat.le_refl.
Defined.

(** *** A call on an instance that has been used *)

Example optimizeRoute_after_earlier_call :
  snd (optimizeRoute gridDistance unreachableApi withoutKey apartments None)
  = snd (optimizeRoute gridDistance fiveKmApi (during three_stops) apartments None).
Proof.
  apply (optimizeRoute_without_key gridDistance unreachableApi fiveKmApi
           withoutKey (during three_stops) apartments None);
    reflexivity.
Qed.

(** *** C2: three stops in two groups *)

(** Whatever the distances, the provider and the instance, the two
    apartments come out side by side: the output is not the input order. *)
Lemma optimizeRoute_apartments
  (calculateDistance : Q -> Q -> Q -> Q -> Q)
  (api : list Stop -> list Stop -> option response) (this : RouteOptimizer) :
  map id (snd (optimizeRoute calculateDistance api this apartments None))
  = ["a"; "c"; "b"].
Proof.
  unfold optimizeRoute. cbn [apartments List.length Nat.leb snd].
  set (this' := mkRouteOptimizer (googleMapsApiKey this) _).
  generalize (buildDistanceMatrix calculateDistance api this'
                (groupSameLocationAddresses apartments)) as m.
  intro m.
  assert (Hg : groupSameLocationAddresses apartments
               = [ representative "1 main s"
                     (mkAddress "a" "1 Main St Apt 1" 40 (-74) (Some "A") None)
                     [ mkAddress "a" "1 Main St Apt 1" 40 (-74) (Some "A") None;
                       mkAddress "c" "1 Main St Apt 2" 40 (-74) None None ];
                   mkStop (mkAddress "b" "2 Oak Ave" 41 (-74) (Some "B") None) None ])
    by (vm_compute; reflexivity).
  rewrite Hg. unfold construct. cbn [List.length Nat.leb].
  rewrite advancedTSPOptimization_small by (simpl; lia).
  rewrite nearestNeighborWithMatrix_pair.
  rewrite applyLocalSearchImprovements_short by (simpl; lia).
  reflexivity.
Qed.

Lemma optimizeRoute_two_groups_reordered :
  ~ (List.length (groupSameLocationAddresses apartments) <= 2 ->
     snd (optimizeRoute gridDistance unreachableApi withoutKey apartments None)
     = apartments).
Proof.
  intro H.
  assert (Hlen : List.length (groupSameLocationAddresses apartments) <= 2)
    by (vm_compute; repeat constructor).
  specialize (H Hlen).
  pose proof (optimizeRoute_apartments gridDistance unreachableApi withoutKey) as E.
  rewrite H in E. vm_compute in E. discriminate.
Qed.

(** The three stops of the two groups: the building first, its two
    apartments side by side, then the other address. *)
Lemma optimizeRoute_tiers_witness :
  exists route,
    Permutation route (groupSameLocationAddresses apartments)
    /\ NoDup (map (fun s : Stop => locationKey s) route)
    /\ snd (optimizeRoute gridDistance unreachableApi withoutKey apartments None)
       = flat_map (fun s : Stop => at_key (locationKey s) apartments) route.
Proof.
  apply (proj2 (proj2 (proj2
           (optimizeRoute_tiers gridDistance unreachableApi withoutKey
              apartments None)))).
  - vm_compute. lia.
  - vm_compute. lia.
Defined.

(** *** C1: the cluster tier *)

(** C1. On 101 stops at 101 different addresses, of which the first is
    within 0.0001 degrees of the others, [optimizeRoute] returns the first
    stop twice and drops the other 100: the two clusters have centroids
    within 0.0001 of each other, and [optimizeClusterOrder] finds the first
    cluster for both. The output is not a permutation of the input. *)
Theorem optimizeRoute_cluster_tier_drops_stops :
  List.length (groupSameLocationAddresses hundred_and_one) = 101
  /\ snd (optimizeRoute gridDistance unreachableApi withoutKey hundred_and_one None)
     = [numbered 0; numbered 0]
  /\ ~ Permutation
         (snd (optimizeRoute gridDistance unreachableApi withoutKey
                 hundred_and_one None))
         hundred_and_one.
Proof.
  assert (E : snd (optimizeRoute gridDistance unreachableApi withoutKey
                     hundred_and_one None)
              = [numbered 0; numbered 0]) by (vm_compute; reflexivity).
  split; [vm_compute; reflexivity|]. split; [exact E|].
  rewrite E. intro H. apply Permutation_length in H. vm_compute in H. discriminate.
Qed.

(** *** C5: the start of the nearest-neighbour route *)

(** The route starts next door although the corner is at the start
    location: next door comes first in the input and is within 0.001. *)
Example nearestNeighborWithMatrix_next_door :
  ids
    (nearestNeighborWithMatrix gridDistance (during [next_door; corner])
       [next_door; corner]
       (buildHaversineMatrix gridDistance [next_door; corner])
       (Some at_corner))
  = ["next door"; "corner"]
  /\ findNearestAddress gridDistance [next_door; corner] at_corner = 1.
Proof. split; vm_compute; reflexivity. Qed.

Lemma nearestNeighborWithMatrix_start_not_nearest :
  hd_error
    (nearestNeighborWithMatrix gridDistance (during [next_door; corner])
       [next_door; corner]
       (buildHaversineMatrix gridDistance [next_door; corner])
       (Some at_corner))
  <> nth_error [next_door; corner]
       (findNearestAddress gridDistance [next_door; corner] at_corner).
Proof. vm_compute. discriminate. Qed.

(** A matrix cell of 0 is not used: from the corner, the depot (cell 0,
    haversine distance 111) comes after next door (cell 1). *)
Example nearestNeighborWithMatrix_zero_cell :
  ids
    (nearestNeighborWithMatrix gridDistance (during [corner; depot; next_door])
       [corner; depot; next_door] zero_to_depot None)
  = ["corner"; "next door"; "depot"].
Proof. vm_compute. reflexivity. Qed.

Lemma nearestNeighborWithMatrix_chain_witness :
  exists p first rest,
    nearestNeighborWithMatrix gridDistance (during [next_door; corner])
      [next_door; corner]
      (buildHaversineMatrix gridDistance [next_door; corner])
      (Some at_corner)
    = first :: rest
    /\ nth_error [next_door; corner] p = Some first
    /\ starts_at [next_door; corner] (Some at_corner) p
    /\ nearest_chain gridDistance (during [next_door; corner])
         (buildHaversineMatrix gridDistance [next_door; corner])
         first (remove_at p [next_door; corner]) rest.
Proof.
  apply (nearestNeighborWithMatrix_chain gridDistance (during [next_door; corner])
           (buildHaversineMatrix gridDistance [next_door; corner])
           [next_door; corner] (Some at_corner)).
  simpl. lia.
Defined.

(** *** C6 and C7: local search *)

(** C6. [apply2OptImprovement] is not monotonic on an asymmetric matrix. The
    route 0, 1, 2, 3 costs 3. The pass compares the edges 0-1 and 2-3 (cost 2)
    with the edges 0-2 and 1-3 (cost 3/2), reverses the segment and returns
    0, 2, 1, 3, which costs 1/2 + 100 + 1: the edge 1-2 of cost 1 has become
    the edge 2-1 of cost 100. *)
Theorem apply2OptImprovement_one_way :
  ids (apply2OptImprovement gridDistance (during four) four one_way)
  = ["0"; "2"; "1"; "3"]
  /\ calculateTotalDistance gridDistance (during four) four (Some one_way) = 3%Q
  /\ (calculateTotalDistance gridDistance (during four)
        (apply2OptImprovement gridDistance (during four) four one_way)
        (Some one_way)
      == 203 # 2)%Q
  /\ ~ (calculateTotalDistance gridDistance (during four)
          (apply2OptImprovement gridDistance (during four) four one_way)
          (Some one_way)
        <= calculateTotalDistance gridDistance (during four) four (Some one_way))%Q.
Proof.
  split; [vm_compute; reflexivity|].
  split; [vm_compute; reflexivity|].
  split; [vm_compute; reflexivity|].
  apply Qlt_not_le. vm_compute. reflexivity.
Qed.

(** On a symmetric matrix the pass does not lengthen the route. *)
Example local_search_monotonic_six :
  (calculateTotalDistance gridDistance (during six)
     (apply2OptImprovement gridDistance (during six) six six_costs)
     (Some six_costs)
   <= calculateTotalDistance gridDistance (during six) six (Some six_costs))%Q.
Proof.
  apply (proj2 (local_search_monotonic gridDistance (during six) six_costs six)).
  intros a b Ha Hb. simpl in Ha, Hb.
  repeat (destruct Ha as [<-|Ha]; [|try contradiction]);
    repeat (destruct Hb as [<-|Hb]; [|try contradiction]);
    vm_compute; reflexivity.
Qed.

(** The nearest-neighbour route is 0, 1, 2, 4, 5, 3. The first pass reverses
    the segment 4, 5 and leaves 0, 1, 2, 5, 4, 3; the second pass reverses
    the segment 1, 2 and leaves 0, 2, 1, 5, 4, 3; the third pass changes
    nothing. *)
Lemma christofidesApproximation_six :
  ids (nearestNeighborWithMatrix gridDistance (during six) six six_costs None)
  = ["0"; "1"; "2"; "4"; "5"; "3"]
  /\ ids (approximateHeuristic gridDistance (during six) six_costs six None)
     = ["0"; "1"; "2"; "5"; "4"; "3"]
  /\ ids (christofidesApproximation gridDistance (during six) six six_costs None)
     = ["0"; "2"; "1"; "5"; "4"; "3"].
Proof.
  repeat split; vm_compute; reflexivity.
Qed.

Lemma christofidesApproximation_not_one_pass :
  christofidesApproximation gridDistance (during six) six six_costs None
  <> approximateHeuristic gridDistance (during six) six_costs six None.
Proof.
  intro H.
  destruct christofidesApproximation_six as [_ [H1 H2]].
  rewrite H in H2. rewrite H1 in H2. discriminate.
Qed.

(** *** C8: metrics *)

(** Both stops map to matrix indices, and [calculateRouteMetrics] still
    reports the haversine distance. *)
Lemma calculateRouteMetrics_ignores_matrix :
  ~ (totalDistance (calculateRouteMetrics gridDistance two_towns)
     == totalDistance
          (matrixRouteMetrics gridDistance (during (map single two_towns)) road
             two_towns))%Q.
Proof.
  vm_compute. discriminate.
Qed.

(** *** The scenarios of the specification *)

(** Scenario A: three collinear stops, start at the first. *)
Example scenario_collinear :
  map id
    (snd (optimizeRoute gridDistance unreachableApi withoutKey
            [ plain "p0" "10 First Ave 1" 0 0;
              plain "p2" "30 Third Ave 3" 2 0;
              plain "p1" "20 Second Ave 2" 1 0 ]
            (Some (mkLocation 0 0))))
  = ["p0"; "p1"; "p2"].
Proof. vm_compute. reflexivity. Qed.

(** Scenario B: the two apartments come out side by side. *)
Example scenario_apartments :
  List.length (groupSameLocationAddresses apartments) = 2
  /\ map id (snd (optimizeRoute gridDistance unreachableApi withoutKey apartments None))
     = ["a"; "c"; "b"].
Proof. split; vm_compute; reflexivity. Qed.

(** Scenario C: no stops. *)
Example scenario_empty :
  snd (optimizeRoute gridDistance unreachableApi withoutKey [] None) = []
  /\ calculateRouteMetrics gridDistance [] = mkRouteMetrics 0 0.
Proof. split; reflexivity. Qed.

(** ** Runs of the further properties *)

Lemma gridDistance_symmetric : symmetric_distance gridDistance.
Proof.
  intros lat1 lon1 lat2 lon2. unfold gridDistance.
  rewrite (Qabs_Qminus lat2 lat1), (Qabs_Qminus lon2 lon1). reflexivity.
Qed.

Lemma optimizeRoute_keeps_stops_witness :
  Permutation
    (snd (optimizeRoute gridDistance unreachableApi withoutKey testAddresses None))
    testAddresses
  /\ List.length
       (snd (optimizeRoute gridDistance unreachableApi withoutKey testAddresses None))
     = List.length testAddresses.
Proof.
  apply (optimizeRoute_keeps_stops gridDistance unreachableApi withoutKey
           testAddresses None).
  apply Nat.leb_le. vm_compute. reflexivity.
Defined.

Lemma optimizeRoute_keeps_stops_in_clusters_witness :
  Permutation
    (snd (optimizeRoute gridDistance unreachableApi withoutKey on_a_line None))
    on_a_line.
Proof.
  apply (optimizeRoute_keeps_stops_in_clusters gridDistance unreachableApi
           withoutKey on_a_line None).
  - apply Nat.ltb_lt. vm_compute. reflexivity.
  - apply distinct_centersb_spec. vm_compute. reflexivity.
Defined.

Lemma getMatrixDistance_geometric_witness :
  (getMatrixDistance gridDistance (during six) (stop_of 1) (stop_of 4)
     (buildHaversineMatrix gridDistance six)
   == getMatrixDistance gridDistance (during six) (stop_of 4) (stop_of 1)
        (buildHaversineMatrix gridDistance six))%Q.
Proof.
  apply (proj2 (getMatrixDistance_geometric gridDistance (during six) six
                  (stop_of 1) (stop_of 4))).
  exact gridDistance_symmetric.
Defined.


Lemma createSmartClusters_partition_witness :
  Permutation (List.concat (createSmartClusters gridDistance six 2)) six
  /\ Forall (fun cluster => cluster <> []) (createSmartClusters gridDistance six 2)
  /\ List.length (createSmartClusters gridDistance six 2) <= 2.
Proof.
  apply (createSmartClusters_partition gridDistance six 2). lia.
Defined.

Lemma findAddressIndex_position_witness :
  findAddressIndex (during four) (stop_of 1) = Some 1
  /\ forall q b d,
       nth_error four q = Some b -> cell one_way 1 q = Some d ->
       getMatrixDistance gridDistance (during four) (stop_of 1) b one_way = d.
Proof.
  apply (findAddressIndex_position gridDistance (during four) four one_way 1
           (stop_of 1)).
  - reflexivity.
  - vm_compute. repeat (constructor; [simpl; intuition discriminate|]). constructor.
  - reflexivity.
Defined.

Lemma groupSameLocationAddresses_ids_witness :
  NoDup (ids (groupSameLocationAddresses apartments))
  /\ forall p s,
       nth_error (groupSameLocationAddresses apartments) p = Some s ->
       findAddressIndex (during (groupSameLocationAddresses apartments)) s = Some p.
Proof.
  apply (groupSameLocationAddresses_ids apartments).
  - vm_compute. repeat (constructor; [simpl; intuition discriminate|]). constructor.
  - repeat constructor.
Defined.

Lemma twoOptSwap_reverses_witness :
  twoOptSwap four 1 2 = reverse_segment four 1 2
  /\ Permutation (twoOptSwap four 1 2) four
  /\ twoOptSwap (twoOptSwap four 1 2) 1 2 = four.
Proof.
  apply (twoOptSwap_reverses four 1 2); [lia|simpl; lia].
Defined.

Lemma calculateTotalDistance_metrics_witness :
  calculateTotalDistance gridDistance withoutKey three_stops None
  = totalDistance (calculateRouteMetrics gridDistance (map addr three_stops)).
Proof.
  apply (calculateTotalDistance_metrics gridDistance withoutKey three_stops).
  repeat constructor.
Defined.

(** ** Route storage *)

Section RouteStorageFacts.

Import RouteStorage.

Lemma find_last {A : Type} (p : A -> bool) (l : list A) (x : A) :
  find p (l ++ [x])
  = match find p l with
    | Some y => Some y
    | None => if p x then Some x else None
    end.
Proof.
  induction l as [|y l IH]; cbn [app find]; [reflexivity|].
  destruct (p y); [reflexivity|exact IH].
Qed.

Lemma find_none_ids (wanted : string) (routes : list SavedRoute) :
  ~ In wanted (map routeId routes) -> find (hasId wanted) routes = None.
Proof.
  induction routes as [|r routes IH]; intro H; cbn [find]; [reflexivity|].
  unfold hasId at 1. destruct (String.eqb (routeId r) wanted) eqn:E.
  - apply String.eqb_eq in E. exfalso. apply H. left. exact E.
  - apply IH. intro Hin. apply H. right. exact Hin.
Qed.

(** [findIndex] and [find] stop at the same element. *)
Lemma findIndex_find {A : Type} (p : A -> bool) (l : list A) :
  match findIndex p l with
  | Some k => exists x, nth_error l k = Some x /\ find p l = Some x /\ p x = true
  | None => find p l = None
  end.
Proof.
  induction l as [|y l IH]; cbn [findIndex find]; [reflexivity|].
  destruct (p y) eqn:E.
  - exists y. auto.
  - destruct (findIndex p l) as [k|]; cbn [option_map]; exact IH.
Qed.

Lemma find_set_at {A : Type} (p : A -> bool) (l : list A) (k : nat) (v : A) :
  findIndex p l = Some k -> p v = true -> find p (set_at k v l) = Some v.
Proof.
  revert k. induction l as [|y l IH]; intros k H Hv; cbn [findIndex] in H;
    [discriminate|].
  destruct (p y) eqn:E.
  - injection H as <-. cbn [set_at find]. rewrite Hv. reflexivity.
  - destruct (findIndex p l) as [k'|]; [|discriminate].
    injection H as <-. cbn [set_at find]. rewrite E. apply IH; [reflexivity|exact Hv].
Qed.

(** Replacing an element by one that a predicate does not tell apart from it
    does not change what [find] returns for that predicate, unless it
    returns the element itself. *)
Lemma find_set_at_other {A : Type} (q : A -> bool) (l : list A) (k : nat)
  (old v : A) :
  nth_error l k = Some old -> q old = false -> q v = false ->
  find q (set_at k v l) = find q l.
Proof.
  revert k. induction l as [|y l IH]; intros k Hk Ho Hv;
    [destruct k; discriminate|].
  destruct k as [|k]; cbn [nth_error] in Hk; cbn [set_at find].
  - injection Hk as ->. rewrite Ho, Hv. reflexivity.
  - destruct (q y); [reflexivity|]. apply (IH k Hk Ho Hv).
Qed.

(** X23. A route saved under an id that no stored route has can be read
    back under that id, holds what was drafted, and sits after the routes
    that were there, which [getRoute] still returns as before. *)
Theorem saveRoute_getRoute (disk : Disk) (generatedId now later : string)
  (draft : RouteDraft) :
  writable disk = true ->
  ~ In generatedId (map routeId (readRoutes disk)) ->
  exists saved disk',
    saveRoute disk generatedId now later draft = Some (saved, disk')
    /\ getRoute disk' generatedId = Some saved
    /\ routeId saved = generatedId
    /\ addresses saved = draftAddresses draft
    /\ createdAt saved = now /\ lastModified saved = later
    /\ readRoutes disk' = readRoutes disk ++ [saved]
    /\ forall other, other <> generatedId ->
         getRoute disk' other = getRoute disk other.
Proof.
  intros Hw Hfresh. unfold saveRoute, writeRoutes. rewrite Hw.
  eexists. eexists. split; [reflexivity|].
  unfold getRoute. cbn [readRoutes file].
  split.
  - rewrite find_last, (find_none_ids _ _ Hfresh).
    unfold hasId. cbn [routeId]. rewrite String.eqb_refl. reflexivity.
  - repeat split; try reflexivity.
    intros other Hother. rewrite find_last.
    destruct (find (hasId other) (readRoutes disk)); [reflexivity|].
    unfold hasId. cbn [routeId].
    destruct (String.eqb generatedId other) eqn:E; [|reflexivity].
    apply String.eqb_eq in E. congruence.
Qed.

Lemma filter_length_existsb {A : Type} (p : A -> bool) (l : list A) :
  (List.length (filter (fun x => negb (p x)) l) <? List.length l) = existsb p l.
Proof.
  induction l as [|x l IH]; [reflexivity|].
  cbn [filter existsb].
  pose proof (filter_length_le (fun x => negb (p x)) l) as Hle.
  destruct (p x); cbn [negb orb List.length].
  - apply Nat.ltb_lt. lia.
  - rewrite <- IH.
    destruct (Nat.ltb_spec (List.length (filter (fun x => negb (p x)) l))
                (List.length l));
      [apply Nat.ltb_lt|apply Nat.ltb_ge]; lia.
Qed.

Lemma find_filter_out (wanted other : string) (routes : list SavedRoute) :
  find (hasId other) (filter (fun r => negb (hasId wanted r)) routes)
  = if String.eqb other wanted then None else find (hasId other) routes.
Proof.
  induction routes as [|r routes IH]; cbn [filter find].
  - destruct (String.eqb other wanted); reflexivity.
  - destruct (hasId wanted r) eqn:Ew; cbn [negb find].
    + rewrite IH. destruct (String.eqb other wanted) eqn:E; [reflexivity|].
      unfold hasId in *. apply String.eqb_eq in Ew. rewrite Ew.
      rewrite String.eqb_sym, E. reflexivity.
    + destruct (hasId other r) eqn:Eo; [|exact IH].
      destruct (String.eqb other wanted) eqn:E; [|reflexivity].
      apply String.eqb_eq in E. subst other. congruence.
Qed.

Lemma filter_none {A : Type} (p : A -> bool) (l : list A) :
  existsb p l = false -> filter (fun x => negb (p x)) l = l.
Proof.
  induction l as [|x l IH]; intro H; [reflexivity|].
  cbn [existsb] in H. apply orb_false_iff in H. destruct H as [Hx Hl].
  cbn [filter]. rewrite Hx. cbn [negb]. rewrite (IH Hl). reflexivity.
Qed.

(** X24. [deleteRoute] answers whether a stored route had the id. After it,
    no route has the id, and the other routes are the ones that were there,
    in the same order. *)
Theorem deleteRoute_removes (disk : Disk) (wanted : string) :
  writable disk = true ->
  exists disk',
    deleteRoute disk wanted
    = Some (existsb (hasId wanted) (readRoutes disk), disk')
    /\ readRoutes disk'
       = filter (fun r => negb (hasId wanted r)) (readRoutes disk)
    /\ getRoute disk' wanted = None
    /\ forall other, other <> wanted ->
         getRoute disk' other = getRoute disk other.
Proof.
  intro Hw. unfold deleteRoute. cbv zeta.
  rewrite filter_length_existsb.
  assert (Hafter : forall other,
            find (hasId other)
              (filter (fun r => negb (hasId wanted r)) (readRoutes disk))
            = if String.eqb other wanted then None
              else find (hasId other) (readRoutes disk))
    by (intro other; apply find_filter_out).
  destruct (existsb (hasId wanted) (readRoutes disk)) eqn:Ex.
  - unfold writeRoutes. rewrite Hw. eexists. split; [reflexivity|].
    unfold getRoute. cbn [readRoutes file].
    split; [reflexivity|]. split.
    + rewrite Hafter, String.eqb_refl. reflexivity.
    + intros other Hother. rewrite Hafter.
      destruct (String.eqb other wanted) eqn:E; [|reflexivity].
      apply String.eqb_eq in E. congruence.
  - exists disk. split; [reflexivity|].
    rewrite (filter_none _ _ Ex) in Hafter. unfold getRoute.
    split; [symmetry; apply filter_none; exact Ex|]. split.
    + specialize (Hafter wanted). rewrite String.eqb_refl in Hafter. exact Hafter.
    + reflexivity.
Qed.

(** X25. A change to a route that is not stored returns [null] and leaves
    the file as it is, whether or not the file can be written:
    [updateRoute], [addStopToRoute], [removeStopFromRoute],
    [updateStopStatus] and [setActiveRoute] alike. *)
Theorem unknown_route_untouched (disk : Disk) (wanted : string) :
  getRoute disk wanted = None ->
  (forall now updates, updateRoute disk now wanted updates = Some (None, disk))
  /\ (forall generatedId now a insertIndex,
        addStopToRoute disk generatedId now wanted a insertIndex = Some (None, disk))
  /\ (forall now addressId,
        removeStopFromRoute disk now wanted addressId = Some (None, disk))
  /\ (forall now later addressId newStatus,
        updateStopStatus disk now later wanted addressId newStatus
        = Some (None, disk))
  /\ setActiveRoute disk wanted = Some (None, disk).
Proof.
  intro Hnone.
  assert (Hidx : findIndex (hasId wanted) (readRoutes disk) = None).
  { pose proof (findIndex_find (hasId wanted) (readRoutes disk)) as H.
    destruct (findIndex _ _); [|reflexivity].
    destruct H as [x [_ [Hf _]]]. unfold getRoute in Hnone. congruence. }
  repeat split.
  - intros now updates. unfold updateRoute. cbv zeta. rewrite Hidx. reflexivity.
  - intros. unfold addStopToRoute. rewrite Hnone. reflexivity.
  - intros. unfold removeStopFromRoute. rewrite Hnone. reflexivity.
  - intros. unfold updateStopStatus. rewrite Hnone. reflexivity.
  - unfold setActiveRoute. cbv zeta.
    assert (Hmap : findIndex (hasId wanted) (map (withActive false) (readRoutes disk))
                   = None).
    { clear Hnone. induction (readRoutes disk) as [|r routes IH];
        [reflexivity|].
      cbn [map findIndex] in *.
      change (hasId wanted (withActive false r)) with (hasId wanted r).
      destruct (hasId wanted r); [discriminate|].
      destruct (findIndex (hasId wanted) routes); [discriminate|].
      rewrite IH; reflexivity. }
    rewrite Hmap. reflexivity.
Qed.

Lemma updateRoute_found (disk : Disk) (now wanted : string) (route : SavedRoute)
  (updates : Updates) :
  writable disk = true ->
  getRoute disk wanted = Some route ->
  exists k,
    findIndex (hasId wanted) (readRoutes disk) = Some k
    /\ nth_error (readRoutes disk) k = Some route
    /\ hasId wanted route = true
    /\ updateRoute disk now wanted updates
       = Some (Some (merge route updates now),
               mkDisk (Routes (set_at k (merge route updates now) (readRoutes disk)))
                 true).
Proof.
  intros Hw Hget. unfold getRoute in Hget.
  pose proof (findIndex_find (hasId wanted) (readRoutes disk)) as H.
  destruct (findIndex (hasId wanted) (readRoutes disk)) as [k|] eqn:Ek;
    [|congruence].
  destruct H as [x [Hn [Hf Hp]]].
  assert (x = route) by congruence. subst x.
  exists k. repeat split; try assumption.
  unfold updateRoute. cbv zeta. rewrite Ek, Hn.
  unfold writeRoutes. rewrite Hw. reflexivity.
Qed.

(** X26. [updateRoute] on a stored route returns the route with the updates
    laid over it and [lastModified] set from the clock, whatever
    [lastModified] the updates carry. The file keeps as many routes as
    before. When the updates carry no id, the route is read back under its
    id and the other ids read as before. *)
Theorem updateRoute_stored (disk : Disk) (now wanted : string)
  (route : SavedRoute) (updates : Updates) :
  writable disk = true ->
  getRoute disk wanted = Some route ->
  exists updated disk',
    updateRoute disk now wanted updates = Some (Some updated, disk')
    /\ updated = merge route updates now
    /\ lastModified updated = now
    /\ List.length (readRoutes disk') = List.length (readRoutes disk)
    /\ (newId updates = None ->
        getRoute disk' wanted = Some updated
        /\ forall other, other <> wanted ->
             getRoute disk' other = getRoute disk other).
Proof.
  intros Hw Hget.
  destruct (updateRoute_found disk now wanted route updates Hw Hget)
    as [k [Ek [Hn [Hid E]]]].
  eexists. eexists. split; [exact E|]. split; [reflexivity|].
  split; [reflexivity|]. cbn [readRoutes file]. split; [apply length_set_at|].
  intro Hkeep. unfold getRoute. cbn [readRoutes file].
  assert (Hsame : routeId (merge route updates now) = routeId route).
  { unfold merge. cbn [routeId]. rewrite Hkeep. reflexivity. }
  split.
  - apply find_set_at; [exact Ek|]. unfold hasId in *. rewrite Hsame. exact Hid.
  - intros other Hother.
    assert (Hno : hasId other route = false).
    { unfold hasId in *. apply String.eqb_eq in Hid.
      destruct (String.eqb (routeId route) other) eqn:E'; [|reflexivity].
      apply String.eqb_eq in E'. congruence. }
    apply (find_set_at_other (hasId other) (readRoutes disk) k route); try assumption.
    unfold hasId in *. rewrite Hsame. exact Hno.
Qed.

Lemma set_at_single {A : Type} (p : A -> bool) (f : A -> A) (l : list A)
  (k : nat) (v : A) :
  k < List.length l -> (forall x, p (f x) = false) -> p v = true ->
  find p (set_at k v (map f l)) = Some v
  /\ filter p (set_at k v (map f l)) = [v].
Proof.
  intros Hk Hf Hv. revert k Hk.
  assert (Hnone : forall l', filter p (map f l') = []).
  { induction l' as [|x l' IH]; [reflexivity|].
    cbn [map filter]. rewrite Hf. exact IH. }
  induction l as [|x l IH]; intros k Hk; cbn [List.length] in Hk; [lia|].
  destruct k as [|k]; cbn [map set_at find filter].
  - rewrite Hv, Hnone. auto.
  - rewrite Hf. apply IH. lia.
Qed.

Lemma findIndex_map_same {A : Type} (p : A -> bool) (f : A -> A) (l : list A) :
  (forall x, p (f x) = p x) -> findIndex p (map f l) = findIndex p l.
Proof.
  intro H. induction l as [|x l IH]; [reflexivity|].
  cbn [map findIndex]. rewrite H, IH. reflexivity.
Qed.

Lemma map_set_at_same {A B : Type} (g : A -> B) (l : list A) (k : nat) (v old : A) :
  nth_error l k = Some old -> g v = g old -> map g (set_at k v l) = map g l.
Proof.
  revert k. induction l as [|x l IH]; intros k Hk Hg;
    [destruct k; discriminate|].
  destruct k as [|k]; cbn [nth_error] in Hk; cbn [set_at map].
  - injection Hk as ->. rewrite Hg. reflexivity.
  - rewrite (IH k Hk Hg). reflexivity.
Qed.

(** X27. After [setActiveRoute] on a stored route, that route is the one
    active route of the file: [getActiveRoute] returns it, no other route is
    active, and the file holds the same routes, by id, in the same order. *)
Theorem setActiveRoute_single (disk : Disk) (wanted : string)
  (target : SavedRoute) :
  writable disk = true ->
  getRoute disk wanted = Some target ->
  exists disk',
    setActiveRoute disk wanted = Some (Some (withActive true target), disk')
    /\ getActiveRoute disk' = Some (withActive true target)
    /\ filter active (readRoutes disk') = [withActive true target]
    /\ map routeId (readRoutes disk') = map routeId (readRoutes disk).
Proof.
  intros Hw Hget. unfold getRoute in Hget.
  pose proof (findIndex_find (hasId wanted) (readRoutes disk)) as H.
  destruct (findIndex (hasId wanted) (readRoutes disk)) as [k|] eqn:Ek;
    [|congruence].
  destruct H as [x [Hn [Hf _]]].
  assert (x = target) by congruence. subst x.
  assert (Hk : k < List.length (readRoutes disk))
    by (apply nth_error_Some; rewrite Hn; discriminate).
  unfold setActiveRoute. cbv zeta.
  rewrite (findIndex_map_same (hasId wanted) (withActive false))
    by (intro r; reflexivity).
  rewrite Ek, nth_error_map, Hn. cbn [option_map].
  unfold writeRoutes. rewrite Hw.
  change (withActive true (withActive false target)) with (withActive true target).
  eexists. split; [reflexivity|].
  unfold getActiveRoute. cbn [readRoutes file].
  destruct (set_at_single active (withActive false) (readRoutes disk) k
              (withActive true target) Hk) as [Hfind Hfilter];
    [intro r; reflexivity|reflexivity|].
  split; [exact Hfind|]. split; [exact Hfilter|].
  rewrite (map_set_at_same routeId _ k _ (withActive false target)).
  - rewrite map_map. reflexivity.
  - rewrite nth_error_map, Hn. reflexivity.
  - reflexivity.
Qed.

Lemma filter_splice_in (wantedId : string) (a : Address) (stops : list Address)
  (k : nat) :
  id a = wantedId -> ~ In wantedId (map id stops) ->
  filter (fun s => negb (String.eqb (id s) wantedId)) (splice_in k a stops) = stops
  /\ filter (fun s => negb (String.eqb (id s) wantedId)) (stops ++ [a]) = stops.
Proof.
  intros Ha Hfresh.
  assert (Hkeep : forall l, (forall s, In s l -> In s stops) ->
            filter (fun s => negb (String.eqb (id s) wantedId)) l = l).
  { induction l as [|s l IH]; intro Hin; [reflexivity|].
    cbn [filter]. destruct (String.eqb (id s) wantedId) eqn:E.
    - apply String.eqb_eq in E. exfalso. apply Hfresh. rewrite <- E.
      apply in_map. apply Hin. left. reflexivity.
    - cbn [negb]. rewrite IH; [reflexivity|].
      intros s' Hs'. apply Hin. right. exact Hs'. }
  assert (Hdrop : filter (fun s => negb (String.eqb (id s) wantedId)) [a] = []).
  { cbn [filter]. rewrite Ha, String.eqb_refl. reflexivity. }
  split.
  - unfold splice_in. change (a :: skipn k stops) with ([a] ++ skipn k stops).
    rewrite !filter_app, Hdrop.
    rewrite (Hkeep (firstn k stops)), (Hkeep (skipn k stops)).
    + apply firstn_skipn.
    + intros s Hs. rewrite <- (firstn_skipn k stops). apply in_or_app. right. exact Hs.
    + intros s Hs. rewrite <- (firstn_skipn k stops). apply in_or_app. left. exact Hs.
  - rewrite filter_app, Hdrop, app_nil_r. apply Hkeep. auto.
Qed.

(** X28. [addStopToRoute] puts the stop, marked pending, into the stored
    route, which then has one stop more. When no stop of the route had the
    id of the new stop, [removeStopFromRoute] with that id gives the route
    its former stops back, in their former order. *)
Theorem removeStop_after_addStop (disk : Disk) (generatedId now later wanted : string)
  (a : Address) (insertIndex : option Z) (route : SavedRoute) :
  writable disk = true ->
  getRoute disk wanted = Some route ->
  ~ In (id (asPending generatedId a)) (map id (addresses route)) ->
  exists added disk1 removed disk2,
    addStopToRoute disk generatedId now wanted a insertIndex
    = Some (Some added, disk1)
    /\ In (asPending generatedId a) (addresses added)
    /\ List.length (addresses added) = S (List.length (addresses route))
    /\ removeStopFromRoute disk1 later wanted (id (asPending generatedId a))
       = Some (Some removed, disk2)
    /\ addresses removed = addresses route.
Proof.
  intros Hw Hget Hfresh.
  unfold addStopToRoute. rewrite Hget.
  set (newAddress := asPending generatedId a) in *.
  set (stops :=
         match insertIndex with
         | Some k =>
             if (0 <=? k)%Z
             then splice_in (Z.to_nat k) newAddress (addresses route)
             else addresses route ++ [newAddress]
         | None => addresses route ++ [newAddress]
         end).
  destruct (updateRoute_found disk now wanted route
              (asUpdates (withAddresses route stops)) Hw Hget)
    as [k [Ek [Hn [Hid E]]]].
  set (added := merge route (asUpdates (withAddresses route stops)) now) in *.
  assert (Hstops : addresses added = stops) by reflexivity.
  assert (Hshape : (exists n, stops = splice_in n newAddress (addresses route))
                   \/ stops = addresses route ++ [newAddress]).
  { unfold stops. destruct insertIndex as [z|]; [|right; reflexivity].
    destruct (0 <=? z)%Z; [left; eexists; reflexivity|right; reflexivity]. }
  assert (Hfilter : filter (fun s => negb (String.eqb (id s) (id newAddress))) stops
                    = addresses route).
  { destruct (filter_splice_in (id newAddress) newAddress (addresses route) 0
                eq_refl Hfresh) as [_ Happ].
    destruct Hshape as [[n ->]| ->]; [|exact Happ].
    apply (filter_splice_in (id newAddress) newAddress (addresses route) n
             eq_refl Hfresh). }
  set (disk1 := mkDisk (Routes (set_at k added (readRoutes disk))) true) in *.
  assert (Hget1 : getRoute disk1 wanted = Some added).
  { unfold getRoute. cbn [disk1 readRoutes file].
    apply find_set_at; [exact Ek|exact Hid]. }
  pose (stops2 := filter (fun s => negb (String.eqb (id s) (id newAddress)))
                    (addresses added)).
  destruct (updateRoute_found disk1 later wanted added
              (asUpdates (withAddresses added stops2)) eq_refl Hget1)
    as [k2 [_ [_ [_ E2]]]].
  exists added, disk1. eexists. eexists.
  split; [exact E|]. split; [|split; [|split]].
  - rewrite Hstops. destruct Hshape as [[n ->]| ->].
    + unfold splice_in. apply in_or_app. right. left. reflexivity.
    + apply in_or_app. right. left. reflexivity.
  - rewrite Hstops. destruct Hshape as [[n ->]| ->].
    + unfold splice_in. rewrite length_app. cbn [List.length].
      rewrite <- (firstn_skipn n (addresses route)) at 3.
      rewrite length_app. lia.
    + rewrite length_app. cbn [List.length]. lia.
  - unfold removeStopFromRoute. rewrite Hget1. exact E2.
  - unfold stops2. cbn [merge asUpdates withAddresses addresses newAddresses or_else].
    rewrite Hstops. exact Hfilter.
Qed.

(** X29. [updateStopStatus] on a stored route marks the first stop that has
    the id, and only that stop: the other stops, a later stop with the same
    id included, stay as they are. The marked stop gets the status, and the
    clock reading as [completedAt] or [skippedAt] when the status is
    [completed] or [skipped]; the route is read back with the change. *)
Theorem updateStopStatus_first (disk : Disk) (now later wanted addressId : string)
  (newStatus : Status) (route : SavedRoute) :
  writable disk = true ->
  getRoute disk wanted = Some route ->
  In addressId (map id (addresses route)) ->
  exists k old updated disk',
    nth_error (addresses route) k = Some old
    /\ id old = addressId
    /\ (forall j b, j < k -> nth_error (addresses route) j = Some b ->
                    id b <> addressId)
    /\ updateStopStatus disk now later wanted addressId newStatus
       = Some (Some updated, disk')
    /\ addresses updated
       = set_at k (withStatus now newStatus old) (addresses route)
    /\ lastModified updated = later
    /\ getRoute disk' wanted = Some updated.
Proof.
  intros Hw Hget Hin.
  destruct (findIndex (fun a => String.eqb (id a) addressId) (addresses route))
    as [k|] eqn:Ek.
  2:{ exfalso. apply in_map_iff in Hin. destruct Hin as [a [Ha Hin]].
      pose proof (findIndex_none _ _ Ek a Hin) as Hno. cbv beta in Hno.
      rewrite Ha, String.eqb_refl in Hno. discriminate. }
  destruct (findIndex_some _ _ _ Ek) as [old [Hn [Hid Hbefore]]].
  apply String.eqb_eq in Hid.
  set (stops := set_at k (withStatus now newStatus old) (addresses route)).
  destruct (updateRoute_found disk later wanted route
              (asUpdates (withAddresses route stops)) Hw Hget)
    as [kr [Ekr [_ [Hhas E]]]].
  exists k, old. eexists. eexists.
  split; [exact Hn|]. split; [exact Hid|]. split.
  - intros j b Hj Hb E'. specialize (Hbefore j b Hj Hb). cbv beta in Hbefore.
    rewrite E', String.eqb_refl in Hbefore. discriminate.
  - split.
    + unfold updateStopStatus. rewrite Hget, Ek, Hn. exact E.
    + split; [reflexivity|]. split; [reflexivity|].
      unfold getRoute. cbn [readRoutes file].
      apply find_set_at; [exact Ekr|exact Hhas].
Qed.

(** *** Runs on a file with two routes *)

Lemma saveRoute_getRoute_witness :
  exists saved disk',
    saveRoute two_routes "r3" "2024-01-02T21:00:00.000Z" "2024-01-02T21:00:00.001Z"
      night = Some (saved, disk')
    /\ getRoute disk' "r3" = Some saved
    /\ routeId saved = "r3"
    /\ addresses saved = draftAddresses night
    /\ createdAt saved = "2024-01-02T21:00:00.000Z"
    /\ lastModified saved = "2024-01-02T21:00:00.001Z"
    /\ readRoutes disk' = readRoutes two_routes ++ [saved]
    /\ forall other, other <> "r3" ->
         getRoute disk' other = getRoute two_routes other.
Proof.
  apply (saveRoute_getRoute two_routes "r3" "2024-01-02T21:00:00.000Z"
           "2024-01-02T21:00:00.001Z" night).
  - reflexivity.
  - simpl. intuition discriminate.
Defined.

Lemma deleteRoute_removes_witness :
  exists disk',
    deleteRoute two_routes "r1"
    = Some (existsb (hasId "r1") (readRoutes two_routes), disk')
    /\ readRoutes disk'
       = filter (fun r => negb (hasId "r1" r)) (readRoutes two_routes)
    /\ getRoute disk' "r1" = None
    /\ forall other, other <> "r1" ->
         getRoute disk' other = getRoute two_routes other.
Proof.
  apply (deleteRoute_removes two_routes "r1"). reflexivity.
Defined.

Lemma unknown_route_untouched_witness :
  (forall now updates, updateRoute two_routes now "r9" updates = Some (None, two_routes))
  /\ (forall generatedId now a insertIndex,
        addStopToRoute two_routes generatedId now "r9" a insertIndex
        = Some (None, two_routes))
  /\ (forall now addressId,
        removeStopFromRoute two_routes now "r9" addressId = Some (None, two_routes))
  /\ (forall now later addressId newStatus,
        updateStopStatus two_routes now later "r9" addressId newStatus
        = Some (None, two_routes))
  /\ setActiveRoute two_routes "r9" = Some (None, two_routes).
Proof.
  apply (unknown_route_untouched two_routes "r9"). reflexivity.
Defined.

Lemma updateRoute_stored_witness :
  exists updated disk',
    updateRoute two_routes "2024-01-03T09:00:00.000Z" "r2" rename
    = Some (Some updated, disk')
    /\ updated = merge evening rename "2024-01-03T09:00:00.000Z"
    /\ lastModified updated = "2024-01-03T09:00:00.000Z"
    /\ List.length (readRoutes disk') = List.length (readRoutes two_routes)
    /\ (newId rename = None ->
        getRoute disk' "r2" = Some updated
        /\ forall other, other <> "r2" ->
             getRoute disk' other = getRoute two_routes other).
Proof.
  apply (updateRoute_stored two_routes "2024-01-03T09:00:00.000Z" "r2" evening
           rename); reflexivity.
Defined.

Lemma setActiveRoute_single_witness :
  exists disk',
    setActiveRoute two_routes "r2" = Some (Some (withActive true evening), disk')
    /\ getActiveRoute disk' = Some (withActive true evening)
    /\ filter active (readRoutes disk') = [withActive true evening]
    /\ map routeId (readRoutes disk') = map routeId (readRoutes two_routes).
Proof.
  apply (setActiveRoute_single two_routes "r2" evening); reflexivity.
Defined.

Lemma removeStop_after_addStop_witness :
  exists added disk1 removed disk2,
    addStopToRoute two_routes "g1" "2024-01-03T09:00:00.000Z" "r1"
      (stored_stop "" "9 Elm St") (Some 1%Z)
    = Some (Some added, disk1)
    /\ In (asPending "g1" (stored_stop "" "9 Elm St")) (addresses added)
    /\ List.length (addresses added) = S (List.length (addresses morning))
    /\ removeStopFromRoute disk1 "2024-01-03T09:05:00.000Z" "r1"
         (id (asPending "g1" (stored_stop "" "9 Elm St")))
       = Some (Some removed, disk2)
    /\ addresses removed = addresses morning.
Proof.
  apply (removeStop_after_addStop two_routes "g1" "2024-01-03T09:00:00.000Z"
           "2024-01-03T09:05:00.000Z" "r1" (stored_stop "" "9 Elm St")
           (Some 1%Z) morning).
  - reflexivity.
  - reflexivity.
  - simpl. intuition discriminate.
Defined.

Lemma updateStopStatus_first_witness :
  exists k old updated disk',
    nth_error (addresses morning) k = Some old
    /\ id old = "s2"
    /\ (forall j b, j < k -> nth_error (addresses morning) j = Some b ->
                    id b <> "s2")
    /\ updateStopStatus two_routes "2024-01-03T09:00:00.000Z"
         "2024-01-03T09:00:00.001Z" "r1" "s2" completed
       = Some (Some updated, disk')
    /\ addresses updated
       = set_at k (withStatus "2024-01-03T09:00:00.000Z" completed old)
           (addresses morning)
    /\ lastModified updated = "2024-01-03T09:00:00.001Z"
    /\ getRoute disk' "r1" = Some updated.
Proof.
  apply (updateStopStatus_first two_routes "2024-01-03T09:00:00.000Z"
           "2024-01-03T09:00:00.001Z" "r1" "s2" completed morning).
  - reflexivity.
  - reflexivity.
  - simpl. auto.
Defined.

End RouteStorageFacts.
